(** * Nominatim forward search: token graph, tokenizer, token assignment,
      the database searches, the regex preprocessor and the import
      command, embedded from the Python sources.

    Conventions of the embedding.
    - Python [float] penalties of tokens and assignments are modelled
      as exact rationals ([Q]).  The accuracy of a row or of a search
      result is a double ([Double.t]): a sum of accuracies is rounded to
      the nearest double, ties to even, as IEEE 754 has it; overflow and
      NaN are left out.
    - A Python [str] is the [string] of its UTF-8 encoding; lengths and
      the tests of characters ([isdigit], [isspace]) are those of its
      code points, with the tables of Unicode 14.
    - Token slots and list indexes are [nat]; differences of slots and
      database integers are [Z].
    - A raised exception (IndexError, TypeError, ValueError,
      AssertionError) is the result [None] of an [option]-valued
      function.
    - What a query reads from the database is a parameter of the
      function that runs it; an SQL condition is a syntax tree, with the
      evaluation SQL gives it.
    - The calls of the import command into the import tools are the
      steps of a run, in their order; they are taken to return. *)

From Stdlib Require Import ZArith QArith Qpower Qround Qabs Lia Lqa Bool Btauto
  Ascii String Sorted.
From stdpp Require Import gmap strings list.

Local Open Scope string_scope.
Local Open Scope list_scope.
Local Open Scope nat_scope.

(** ** Small helpers shared by all modules *)

(** Python [range(a, b)]. *)
Definition range (a b : nat) : list nat := seq a (b - a).

(** [' '.join(l)]. *)
Fixpoint join_space (l : list string) : string :=
  match l with
  | [] => ""
  | [x] => x
  | x :: r => x +:+ " " +:+ join_space r
  end.

(** [l[i:j]]. *)
Definition slice {A} (l : list A) (i j : nat) : list A := take (j - i) (drop i l).

(** ** Python strings

    A Python [str] is a sequence of Unicode code points.  It is modelled
    by the [string] that holds its UTF-8 encoding: the literals below
    are such encodings, two strings are equal when their encodings are,
    and joining strings joins the encodings.  What Python counts or
    tests character by character is counted or tested on the code points
    the encoding decodes to.  A byte below 128 is an ASCII character and
    part of no other character, so that a split at an ASCII character is
    a split at its byte; and a string is empty when its encoding is. *)

(** A byte [10xxxxxx] continues a character; any other byte starts one
    and holds its leading bits. *)
Definition is_continuation (b : N) : bool := ((128 <=? b) && (b <? 192))%N.

Definition lead_bits (b : N) : N :=
  (if b <? 128 then b
   else if b <? 224 then b - 192
   else if b <? 240 then b - 224
   else b - 240)%N.

(** The code points of the bytes, [cur] being the character under way. *)
Fixpoint decode (cur : option N) (bytes : list ascii) : list N :=
  match bytes with
  | [] => option_list cur
  | a :: bytes =>
      let b := N_of_ascii a in
      if is_continuation b then
        match cur with
        | Some c => decode (Some (c * 64 + (b - 128))%N) bytes
        | None => decode (Some (b - 128)%N) bytes
        end
      else option_list cur ++ decode (Some (lead_bits b)) bytes
  end.

(** [[c for c in s]]: the characters of the string. *)
Definition chars (s : string) : list N := decode None (list_ascii_of_string s).

(** [len(s)]. *)
Definition len (s : string) : nat := length (chars s).

Definition in_ranges (c : N) (ranges : list (N * N)) : bool :=
  existsb (fun '(lo, hi) => (lo <=? c) && (c <=? hi))%N ranges.

(** The characters [c] with [c.isdigit()]: those of the numeric types
    Digit and Decimal of Unicode 14, in ranges of code points. *)
Definition DIGIT_RANGES : list (N * N) :=
  [(48, 57); (178, 179); (185, 185); (1632, 1641); (1776, 1785);
   (1984, 1993); (2406, 2415); (2534, 2543); (2662, 2671); (2790, 2799);
   (2918, 2927); (3046, 3055); (3174, 3183); (3302, 3311); (3430, 3439);
   (3558, 3567); (3664, 3673); (3792, 3801); (3872, 3881); (4160, 4169);
   (4240, 4249); (4969, 4977); (6112, 6121); (6160, 6169); (6470, 6479);
   (6608, 6618); (6784, 6793); (6800, 6809); (6992, 7001); (7088, 7097);
   (7232, 7241); (7248, 7257); (8304, 8304); (8308, 8313); (8320, 8329);
   (9312, 9320); (9332, 9340); (9352, 9360); (9450, 9450); (9461, 9469);
   (9471, 9471); (10102, 10110); (10112, 10120); (10122, 10130);
   (42528, 42537); (43216, 43225); (43264, 43273); (43472, 43481);
   (43504, 43513); (43600, 43609); (44016, 44025); (65296, 65305);
   (66720, 66729); (68160, 68163); (68912, 68921); (69216, 69224);
   (69714, 69722); (69734, 69743); (69872, 69881); (69942, 69951);
   (70096, 70105); (70384, 70393); (70736, 70745); (70864, 70873);
   (71248, 71257); (71360, 71369); (71472, 71481); (71904, 71913);
   (72016, 72025); (72784, 72793); (73040, 73049); (73120, 73129);
   (92768, 92777); (92864, 92873); (93008, 93017); (120782, 120831);
   (123200, 123209); (123632, 123641); (125264, 125273); (127232, 127242);
   (130032, 130041)]%N.

(** The decimal digits among them, which [int()] converts; within each
    range the digits 0 to 9 follow each other. *)
Definition DECIMAL_RANGES : list (N * N) :=
  [(48, 57); (1632, 1641); (1776, 1785); (1984, 1993); (2406, 2415);
   (2534, 2543); (2662, 2671); (2790, 2799); (2918, 2927); (3046, 3055);
   (3174, 3183); (3302, 3311); (3430, 3439); (3558, 3567); (3664, 3673);
   (3792, 3801); (3872, 3881); (4160, 4169); (4240, 4249); (6112, 6121);
   (6160, 6169); (6470, 6479); (6608, 6617); (6784, 6793); (6800, 6809);
   (6992, 7001); (7088, 7097); (7232, 7241); (7248, 7257); (42528, 42537);
   (43216, 43225); (43264, 43273); (43472, 43481); (43504, 43513);
   (43600, 43609); (44016, 44025); (65296, 65305); (66720, 66729);
   (68912, 68921); (69734, 69743); (69872, 69881); (69942, 69951);
   (70096, 70105); (70384, 70393); (70736, 70745); (70864, 70873);
   (71248, 71257); (71360, 71369); (71472, 71481); (71904, 71913);
   (72016, 72025); (72784, 72793); (73040, 73049); (73120, 73129);
   (92768, 92777); (92864, 92873); (93008, 93017); (120782, 120831);
   (123200, 123209); (123632, 123641); (125264, 125273); (130032, 130041)]%N.

(** The characters [c] with [c.isspace()], which [str.strip()] removes. *)
Definition SPACE_RANGES : list (N * N) :=
  [(9, 13); (28, 32); (133, 133); (160, 160); (5760, 5760); (8192, 8202);
   (8232, 8233); (8239, 8239); (8287, 8287); (12288, 12288)]%N.

(** [c.isdigit()], [c.isspace()] and [s.isdigit()]. *)
Definition char_isdigit (c : N) : bool := in_ranges c DIGIT_RANGES.

Definition char_isspace (c : N) : bool := in_ranges c SPACE_RANGES.

Definition isdigit (s : string) : bool :=
  negb (len s =? 0) && forallb char_isdigit (chars s).

(** The value of a decimal digit. *)
Definition decimal_value (c : N) : option Z :=
  match List.find (fun '(lo, hi) => (lo <=? c) && (c <=? hi))%N DECIMAL_RANGES with
  | Some (lo, _) => Some (Z.of_N ((c - lo) mod 10))
  | None => None
  end.

(** ** Python floats

    A finite Python [float] is a binary64 number: an integer mantissa of
    at most 53 bits times a power of two, whose exponent is at least
    -1074.  An operation on floats returns the double nearest to the
    exact result, ties going to the even mantissa. *)

Section Floats.
Local Open Scope Q_scope.

(** The [k] with [2 ^ k <= a < 2 ^ (k + 1)], for a positive [a]. *)
Definition floor_log2 (a : Q) : Z :=
  let k := (Z.log2 (Qnum a) - Z.log2 (Z.pos (Qden a)))%Z in
  if Qle_bool (2 ^ k) a then k else (k - 1)%Z.

(** The nearest integer, ties to even. *)
Definition round_half_even (z : Q) : Z :=
  let f := Qfloor z in
  match Qcompare (z - inject_Z f) (1 # 2) with
  | Lt => f
  | Gt => (f + 1)%Z
  | Eq => if Z.even f then f else (f + 1)%Z
  end.

(** The exponent of the doubles around a positive [a]: 53 bits of
    mantissa, or the least exponent for the subnormal numbers. *)
Definition double_exponent (a : Q) : Z := Z.max (-1074) (floor_log2 a - 52).

(** The double nearest to [q]. *)
Definition round_double (q : Q) : Q :=
  match Qcompare q 0 with
  | Eq => 0
  | Gt => inject_Z (round_half_even (q / 2 ^ double_exponent q))
          * 2 ^ double_exponent q
  | Lt => - (inject_Z (round_half_even (- q / 2 ^ double_exponent (- q)))
             * 2 ^ double_exponent (- q))
  end.

End Floats.

Module Double.
(** A double is given by a rational that rounds to it: [of_Q q] is what
    the literal or the exact result [q] evaluates to. *)
Record t := of_Q { raw : Q }.

(** The number a double stands for. *)
Definition value (d : t) : Q := round_double (raw d).
End Double.

Coercion Double.value : Double.t >-> Q.

(** [a + b] on floats. *)
Definition fadd (a b : Double.t) : Double.t :=
  Double.of_Q (Double.value a + Double.value b)%Q.

(** ** The query model (module [query], imported as [qmod])

    The module itself is not among the sources at hand; its classes are
    reconstructed from the specification and from the way the tokenizer
    and the token assignment use them.  Each Python class is a small
    module holding its record, so that the fields keep their names. *)

(** Token types, [qmod.TOKEN_*]. *)
Inductive TokenType :=
| TOKEN_WORD | TOKEN_PARTIAL | TOKEN_HOUSENUMBER | TOKEN_POSTCODE
| TOKEN_COUNTRY | TOKEN_QUALIFIER | TOKEN_NEAR_ITEM.

Definition ttype_eqb (a b : TokenType) : bool :=
  match a, b with
  | TOKEN_WORD, TOKEN_WORD | TOKEN_PARTIAL, TOKEN_PARTIAL
  | TOKEN_HOUSENUMBER, TOKEN_HOUSENUMBER | TOKEN_POSTCODE, TOKEN_POSTCODE
  | TOKEN_COUNTRY, TOKEN_COUNTRY | TOKEN_QUALIFIER, TOKEN_QUALIFIER
  | TOKEN_NEAR_ITEM, TOKEN_NEAR_ITEM => true
  | _, _ => false
  end.

(** Break types, [qmod.BREAK_*]. *)
Inductive BreakType :=
| BREAK_START | BREAK_END | BREAK_PHRASE | BREAK_SOFT_PHRASE
| BREAK_WORD | BREAK_PART | BREAK_TOKEN.

Definition btype_eqb (a b : BreakType) : bool :=
  match a, b with
  | BREAK_START, BREAK_START | BREAK_END, BREAK_END
  | BREAK_PHRASE, BREAK_PHRASE | BREAK_SOFT_PHRASE, BREAK_SOFT_PHRASE
  | BREAK_WORD, BREAK_WORD | BREAK_PART, BREAK_PART
  | BREAK_TOKEN, BREAK_TOKEN => true
  | _, _ => false
  end.

(** Phrase types, [qmod.PHRASE_*]. *)
Inductive PhraseType :=
| PHRASE_ANY | PHRASE_AMENITY | PHRASE_STREET | PHRASE_CITY | PHRASE_COUNTY
| PHRASE_STATE | PHRASE_POSTCODE | PHRASE_COUNTRY | PHRASE_HOUSENUMBER.

Definition ptype_eqb (a b : PhraseType) : bool :=
  match a, b with
  | PHRASE_ANY, PHRASE_ANY | PHRASE_AMENITY, PHRASE_AMENITY
  | PHRASE_STREET, PHRASE_STREET | PHRASE_CITY, PHRASE_CITY
  | PHRASE_COUNTY, PHRASE_COUNTY | PHRASE_STATE, PHRASE_STATE
  | PHRASE_POSTCODE, PHRASE_POSTCODE | PHRASE_COUNTRY, PHRASE_COUNTRY
  | PHRASE_HOUSENUMBER, PHRASE_HOUSENUMBER => true
  | _, _ => false
  end.

(** JSON values of the [info] column of the word table: the import
    writes integers and strings; [JNull] is JSON's [null]. *)
Inductive json := JNull | JInt (z : Z) | JStr (s : string).

Module TokenRange.
(** Modelled from the spec: [qmod.TokenRange], the half-open range
    [[start, end)] of token slots, with the optional window penalty the
    tokenizer stores in it. *)
Record t := mk {
  start : nat;
  end_ : nat;
  penalty : option Q
}.
End TokenRange.

(** [qmod.TokenRange(s, e)], the penalty left at its default [None]. *)
Definition mkTokenRange (s e : nat) : TokenRange.t := TokenRange.mk s e None.

(** Modelled from the spec: [TokenRange.__lt__] and [__gt__]; a range is
    smaller than another when it lies entirely before it. *)
Definition range_lt (a b : TokenRange.t) : bool :=
  TokenRange.end_ a <=? TokenRange.start b.
Definition range_gt (a b : TokenRange.t) : bool :=
  TokenRange.end_ b <=? TokenRange.start a.

(** Modelled from the spec: [TokenRange.replace_end] and
    [TokenRange.split]. *)
Definition replace_end (r : TokenRange.t) (e : nat) : TokenRange.t :=
  mkTokenRange (TokenRange.start r) e.
Definition split (r : TokenRange.t) (i : nat) : TokenRange.t * TokenRange.t :=
  (mkTokenRange (TokenRange.start r) i, mkTokenRange i (TokenRange.end_ r)).

Module Phrase.
Record t := mk {
  ptype : PhraseType;
  text : string
}.
End Phrase.

Module ICUToken.
(** [qmod.Token] with the two fields [ICUToken] adds. *)
Record t := mk {
  penalty : Q;
  token : Z;
  count : Z;
  addr_count : Z;
  lookup_word : string;
  word_token : string;
  info : option (gmap string json)
}.
End ICUToken.

Module TokenList.
(** Modelled from the spec: [qmod.TokenList], the tokens of one type
    that span the same range; the start of the range is the node that
    holds the list. *)
Record t := mk {
  end_ : nat;
  ttype : TokenType;
  tokens : list ICUToken.t
}.
End TokenList.

Module QueryNode.
(** Modelled from the spec: [qmod.QueryNode], a break node with its
    break type, the phrase type it inherits, the penalty of breaking a
    word here, the token lists that start at it and its partial token, if
    it has one. *)
Record t := mk {
  btype : BreakType;
  ptype : PhraseType;
  word_break_penalty : Q;
  starting : list TokenList.t;
  partial : option ICUToken.t
}.
End QueryNode.

Module QueryStruct.
(** Modelled from the spec: [qmod.QueryStruct]. *)
Record t := mk {
  source : list Phrase.t;
  nodes : list QueryNode.t;
  dir_penalty : Q
}.
End QueryStruct.

(** Modelled from the spec: [QueryStruct.num_token_slots]; the nodes
    [N_0 .. N_k] enclose [k] token slots. *)
Definition num_token_slots (query : QueryStruct.t) : nat :=
  length (QueryStruct.nodes query) - 1.

(** ** Generators

    A Python generator is modelled by what it yields, in order, and
    whether it ran to its end or stopped on an exception: what was
    yielded before the exception has reached the consumer. *)

Module Gen.
Record t (A : Type) := mk {
  yields : list A;
  completed : bool
}.
Arguments mk {A} _ _.
Arguments yields {A} _.
Arguments completed {A} _.
End Gen.

Definition gen_return {A} : Gen.t A := Gen.mk [] true.
Definition gen_raise {A} : Gen.t A := Gen.mk [] false.
Definition gen_yield {A} (a : A) : Gen.t A := Gen.mk [a] true.

(** Run [g], then [k] unless [g] raised. *)
Definition gen_then {A} (g k : Gen.t A) : Gen.t A :=
  if Gen.completed g
  then Gen.mk (Gen.yields g ++ Gen.yields k) (Gen.completed k)
  else g.

(** Use the value of an expression that may raise. *)
Definition gen_try {A B} (o : option B) (k : B -> Gen.t A) : Gen.t A :=
  match o with
  | Some b => k b
  | None => gen_raise
  end.

Notation "g ;;; k" := (gen_then g k) (at level 65, right associativity).

(** [for x in l: body(x)]. *)
Fixpoint gen_for {A B} (l : list B) (body : B -> Gen.t A) : Gen.t A :=
  match l with
  | [] => gen_return
  | x :: r => body x ;;; gen_for r body
  end.

(** [x > 0] and the like on penalties. *)
Definition Qlt_bool (x y : Q) : bool := negb (Qle_bool y x).

(** ** Token assignment ([search/token_assignment.py]) *)

Module TypedRange.
Record t := mk {
  ttype : TokenType;
  trange : TokenRange.t
}.
End TypedRange.

Module TokenAssignment.
Record t := mk {
  penalty : Q;
  name : option TokenRange.t;
  address : list TokenRange.t;
  housenumber : option TokenRange.t;
  postcode : option TokenRange.t;
  country : option TokenRange.t;
  near_item : option TokenRange.t;
  qualifier : option TokenRange.t
}.

(** [TokenAssignment()], all fields at their defaults. *)
Definition empty : t := mk 0 None [] None None None None None.

(** The field updates [from_ranges] and [dataclasses.replace] make. *)
Definition set_penalty (p : Q) (a : t) : t :=
  mk p (name a) (address a) (housenumber a) (postcode a) (country a)
     (near_item a) (qualifier a).
Definition set_name (r : option TokenRange.t) (a : t) : t :=
  mk (penalty a) r (address a) (housenumber a) (postcode a) (country a)
     (near_item a) (qualifier a).
Definition set_address (l : list TokenRange.t) (a : t) : t :=
  mk (penalty a) (name a) l (housenumber a) (postcode a) (country a)
     (near_item a) (qualifier a).
Definition set_housenumber (r : TokenRange.t) (a : t) : t :=
  mk (penalty a) (name a) (address a) (Some r) (postcode a) (country a)
     (near_item a) (qualifier a).
Definition set_postcode (r : TokenRange.t) (a : t) : t :=
  mk (penalty a) (name a) (address a) (housenumber a) (Some r) (country a)
     (near_item a) (qualifier a).
Definition set_country (r : TokenRange.t) (a : t) : t :=
  mk (penalty a) (name a) (address a) (housenumber a) (postcode a) (Some r)
     (near_item a) (qualifier a).
Definition set_near_item (r : TokenRange.t) (a : t) : t :=
  mk (penalty a) (name a) (address a) (housenumber a) (postcode a) (country a)
     (Some r) (qualifier a).
Definition set_qualifier (r : TokenRange.t) (a : t) : t :=
  mk (penalty a) (name a) (address a) (housenumber a) (postcode a) (country a)
     (near_item a) (Some r).
End TokenAssignment.

(** One round of the loop of [TokenAssignment.from_ranges]. *)
Definition from_ranges_step (out : TokenAssignment.t) (token : TypedRange.t)
  : TokenAssignment.t :=
  let r := TypedRange.trange token in
  match TypedRange.ttype token with
  | TOKEN_PARTIAL =>
      TokenAssignment.set_address (TokenAssignment.address out ++ [r]) out
  | TOKEN_HOUSENUMBER => TokenAssignment.set_housenumber r out
  | TOKEN_POSTCODE => TokenAssignment.set_postcode r out
  | TOKEN_COUNTRY => TokenAssignment.set_country r out
  | TOKEN_NEAR_ITEM => TokenAssignment.set_near_item r out
  | TOKEN_QUALIFIER => TokenAssignment.set_qualifier r out
  | TOKEN_WORD => out
  end.

Definition from_ranges (ranges : list TypedRange.t) : TokenAssignment.t :=
  fold_left from_ranges_step ranges TokenAssignment.empty.

Module TokenSequence.
(** [_TokenSequence]: the typed ranges so far, the reading direction
    (-1, 0 or 1) and the penalty. *)
Record t := mk {
  seq : list TypedRange.t;
  direction : Z;
  penalty : Q
}.
End TokenSequence.

Definition end_pos (self : TokenSequence.t) : nat :=
  match last (TokenSequence.seq self) with
  | Some r => TokenRange.end_ (TypedRange.trange r)
  | None => 0
  end.

(** [ttype in ttypes]. *)
Definition ttype_in (ttype : TokenType) (ttypes : list TokenType) : bool :=
  existsb (ttype_eqb ttype) ttypes.

Definition has_types (self : TokenSequence.t) (ttypes : list TokenType) : bool :=
  existsb (fun s => ttype_in (TypedRange.ttype s) ttypes) (TokenSequence.seq self).

Definition is_final (self : TokenSequence.t) : bool :=
  (1 <? length (TokenSequence.seq self)) &&
  match last (TokenSequence.seq self) with
  | Some r => ttype_in (TypedRange.ttype r) [TOKEN_COUNTRY; TOKEN_NEAR_ITEM]
  | None => false
  end.

(** [seq[0].ttype == ttype], for a sequence known not to be empty. *)
Definition first_is (s : list TypedRange.t) (ttype : TokenType) : bool :=
  match s with
  | r :: _ => ttype_eqb (TypedRange.ttype r) ttype
  | [] => false
  end.

Definition appendable (self : TokenSequence.t) (ttype : TokenType) : option Z :=
  let seq := TokenSequence.seq self in
  let direction := TokenSequence.direction self in
  if ttype_eqb ttype TOKEN_WORD then None
  else if (length seq =? 0) then
    if ttype_eqb ttype TOKEN_COUNTRY then Some (-1)%Z
    else if ttype_in ttype [TOKEN_HOUSENUMBER; TOKEN_QUALIFIER] then Some 1%Z
    else Some direction
  else if ttype_eqb ttype TOKEN_PARTIAL then
    if (direction =? -1)%Z
       && existsb (fun t => ttype_eqb (TypedRange.ttype t) TOKEN_QUALIFIER)
                  (removelast seq)
    then None
    else Some direction
  else if has_types self [ttype] then None
  else if ttype_eqb ttype TOKEN_HOUSENUMBER then
    if (direction =? 1)%Z then
      if (length seq =? 1) && first_is seq TOKEN_QUALIFIER then None
      else if (2 <? length seq) || has_types self [TOKEN_POSTCODE; TOKEN_COUNTRY]
      then None
      else Some direction
    else if (direction =? -1)%Z || has_types self [TOKEN_POSTCODE; TOKEN_COUNTRY]
    then Some (-1)%Z
    else Some direction
  else if ttype_eqb ttype TOKEN_POSTCODE then
    if (direction =? -1)%Z then
      if has_types self [TOKEN_HOUSENUMBER; TOKEN_QUALIFIER] then None
      else Some (-1)%Z
    else if (direction =? 1)%Z then
      if has_types self [TOKEN_COUNTRY] then None else Some 1%Z
    else if has_types self [TOKEN_HOUSENUMBER; TOKEN_QUALIFIER] then Some 1%Z
    else Some direction
  else if ttype_eqb ttype TOKEN_COUNTRY then
    if (direction =? -1)%Z then None else Some 1%Z
  else if ttype_eqb ttype TOKEN_NEAR_ITEM then Some direction
  else if ttype_eqb ttype TOKEN_QUALIFIER then
    if (direction =? 1)%Z then
      if ((length seq =? 1)
          && (first_is seq TOKEN_PARTIAL || first_is seq TOKEN_NEAR_ITEM))
         || ((length seq =? 2)
             && first_is seq TOKEN_NEAR_ITEM
             && first_is (drop 1 seq) TOKEN_PARTIAL)
      then Some 1%Z
      else None
    else if (direction =? -1)%Z then Some (-1)%Z
    else
      let tempseq := if first_is seq TOKEN_NEAR_ITEM then drop 1 seq else seq in
      if length tempseq =? 0 then Some 1%Z
      else if (length tempseq =? 1) && first_is seq TOKEN_HOUSENUMBER then None
      else if (1 <? length tempseq)
              || has_types self [TOKEN_POSTCODE; TOKEN_COUNTRY]
      then Some (-1)%Z
      else Some 0%Z
  else None.

Definition advance (self : TokenSequence.t) (ttype : TokenType) (end_pos : nat)
    (force_break : bool) (break_penalty : Q) : option TokenSequence.t :=
  match appendable self ttype with
  | None => None
  | Some newdir =>
      let seq := TokenSequence.seq self in
      let '(newseq, new_penalty) :=
        match last seq with
        | None => ([TypedRange.mk ttype (mkTokenRange 0 end_pos)], 0%Q)
        | Some last =>
            if negb force_break && ttype_eqb (TypedRange.ttype last) ttype
            then (removelast seq
                    ++ [TypedRange.mk ttype
                          (replace_end (TypedRange.trange last) end_pos)],
                  0%Q)
            else (seq ++ [TypedRange.mk ttype
                            (mkTokenRange
                               (TokenRange.end_ (TypedRange.trange last))
                               end_pos)],
                  break_penalty)
        end in
      Some (TokenSequence.mk newseq newdir
              (TokenSequence.penalty self + new_penalty)%Q)
  end.

(** The methods below update [self] in place; here they return the
    updated sequence next to their result. *)
Definition set_direction (d : Z) (self : TokenSequence.t) : TokenSequence.t :=
  TokenSequence.mk (TokenSequence.seq self) d (TokenSequence.penalty self).
Definition add_seq_penalty (p : Q) (self : TokenSequence.t) : TokenSequence.t :=
  TokenSequence.mk (TokenSequence.seq self) (TokenSequence.direction self)
                   (TokenSequence.penalty self + p)%Q.

Definition _adapt_penalty_from_priors (self : TokenSequence.t) (priors : nat)
    (new_dir : Z) : bool * TokenSequence.t :=
  if 2 <=? priors then
    if (TokenSequence.direction self =? 0)%Z then (true, set_direction new_dir self)
    else if priors =? 2 then (true, add_seq_penalty 0.8 self)
    else (false, self)
  else (true, self).

(** [next((i for i, tr in enumerate(seq) if tr.ttype == ttype), None)]. *)
Fixpoint index_of_type (ttype : TokenType) (s : list TypedRange.t) : option nat :=
  match s with
  | [] => None
  | r :: rest =>
      if ttype_eqb (TypedRange.ttype r) ttype then Some 0
      else option_map S (index_of_type ttype rest)
  end.

(** [sum(1 for t in s if t.ttype == TOKEN_PARTIAL)]. *)
Definition count_partial (s : list TypedRange.t) : nat :=
  length (List.filter (fun t => ttype_eqb (TypedRange.ttype t) TOKEN_PARTIAL) s).

Definition recheck_sequence (self : TokenSequence.t) : bool * TokenSequence.t :=
  let seq := TokenSequence.seq self in
  match index_of_type TOKEN_HOUSENUMBER seq with
  | None => (true, self)
  | Some hnrpos =>
      let '(ok1, self1) :=
        if negb (TokenSequence.direction self =? -1)%Z
        then _adapt_penalty_from_priors self (count_partial (take hnrpos seq)) (-1)
        else (true, self) in
      if negb ok1 then (false, self1)
      else
        let '(ok2, self2) :=
          if negb (TokenSequence.direction self1 =? 1)%Z
          then _adapt_penalty_from_priors self1
                 (count_partial (drop (hnrpos + 1) seq)) 1
          else (true, self1) in
        if negb ok2 then (false, self2)
        else if existsb (fun t => ttype_eqb (TypedRange.ttype t) TOKEN_NEAR_ITEM) seq
        then (true, add_seq_penalty 1.0 self2)
        else (true, self2)
  end.

(** Truth value of an optional range: [None] is false, a range is true. *)
Definition truthy {A} (o : option A) : bool :=
  match o with Some _ => true | None => false end.

(** [o and p(o)] for an optional range. *)
Definition and_then {A} (o : option A) (p : A -> bool) : bool :=
  match o with Some x => p x | None => false end.

(** [0.1 * max(0, len(address) - 1)]. *)
Definition extra_address_penalty (address : list TokenRange.t) : Q :=
  (0.1 * inject_Z (Z.max 0 (Z.of_nat (length address) - 1)))%Q.

Definition _get_assignments_postcode (self : TokenSequence.t)
    (base : TokenAssignment.t) (query_len : nat) : Gen.t TokenAssignment.t :=
  gen_try (TokenAssignment.postcode base) (fun postcode =>
    if ((TokenRange.start postcode =? 0)
        && negb (TokenSequence.direction self =? -1)%Z)
       || ((TokenRange.end_ postcode =? query_len)
           && negb (TokenSequence.direction self =? 1)%Z)
    then
      let penalty :=
        if TokenRange.start postcode =? 0
        then TokenSequence.penalty self
        else (TokenSequence.penalty self + 0.1)%Q in
      let penalty := (penalty + extra_address_penalty (TokenAssignment.address base))%Q in
      gen_yield (TokenAssignment.set_penalty penalty base)
    else gen_return).

(** [query.nodes[i]], which raises outside the list. *)
Definition node_at (query : QueryStruct.t) (i : nat) : option QueryNode.t :=
  QueryStruct.nodes query !! i.

Definition _get_assignments_address_forward (self : TokenSequence.t)
    (base : TokenAssignment.t) (query : QueryStruct.t) : Gen.t TokenAssignment.t :=
  gen_try (head (TokenAssignment.address base)) (fun first =>
    if and_then (TokenAssignment.postcode base) (fun p => range_lt p first)
    then gen_return
    else
      let penalty := TokenSequence.penalty self in
      let penalty :=
        if negb (truthy (TokenAssignment.country base))
           && (TokenSequence.direction self =? 1)%Z
           && Qlt_bool 0 (QueryStruct.dir_penalty query)
        then (penalty + QueryStruct.dir_penalty query)%Q
        else penalty in
      gen_yield (TokenAssignment.set_address (drop 1 (TokenAssignment.address base))
                   (TokenAssignment.set_name (Some first)
                      (TokenAssignment.set_penalty penalty base)))
      ;;;
      if and_then (TokenAssignment.housenumber base)
           (fun h => TokenRange.end_ first <? TokenRange.start h)
         || and_then (TokenAssignment.qualifier base) (fun q => range_gt q first)
      then gen_return
      else
        gen_try (node_at query (TokenRange.start first)) (fun node =>
          if negb (ptype_eqb (QueryNode.ptype node) PHRASE_ANY) then gen_return
          else
            let penalty :=
              if and_then (TokenAssignment.housenumber base)
                   (fun h => range_gt h first)
                 || (1 <? length (QueryStruct.source query))
              then (penalty + 0.25)%Q
              else penalty in
            let penalty :=
              if (TokenSequence.direction self =? 0)%Z
                 && Qlt_bool 0 (QueryStruct.dir_penalty query)
              then (penalty + QueryStruct.dir_penalty query)%Q
              else penalty in
            gen_for (range (TokenRange.start first + 1) (TokenRange.end_ first))
              (fun i =>
                 let '(name, addr) := split first i in
                 gen_try (node_at query i) (fun nodei =>
                   gen_yield
                     (TokenAssignment.set_penalty
                        (penalty + QueryNode.word_break_penalty nodei)%Q
                        (TokenAssignment.set_address
                           (addr :: drop 1 (TokenAssignment.address base))
                           (TokenAssignment.set_name (Some name) base))))))).

Definition _get_assignments_address_backward (self : TokenSequence.t)
    (base : TokenAssignment.t) (query : QueryStruct.t) : Gen.t TokenAssignment.t :=
  gen_try (last (TokenAssignment.address base)) (fun last =>
    if and_then (TokenAssignment.postcode base) (fun p => range_gt p last)
    then gen_return
    else
      let penalty := TokenSequence.penalty self in
      let penalty :=
        if negb (truthy (TokenAssignment.country base))
           && (TokenSequence.direction self =? -1)%Z
           && Qlt_bool (QueryStruct.dir_penalty query) 0
        then (penalty - QueryStruct.dir_penalty query)%Q
        else penalty in
      (if (TokenSequence.direction self =? -1)%Z
          || (1 <? length (TokenAssignment.address base))
          || truthy (TokenAssignment.postcode base)
       then gen_yield (TokenAssignment.set_address
                         (removelast (TokenAssignment.address base))
                         (TokenAssignment.set_name (Some last)
                            (TokenAssignment.set_penalty penalty base)))
       else gen_return)
      ;;;
      if and_then (TokenAssignment.housenumber base)
           (fun h => TokenRange.end_ h <? TokenRange.start last)
         || and_then (TokenAssignment.qualifier base) (fun q => range_lt q last)
      then gen_return
      else
        gen_try (node_at query (TokenRange.start last)) (fun node =>
          if negb (ptype_eqb (QueryNode.ptype node) PHRASE_ANY) then gen_return
          else
            let penalty :=
              if and_then (TokenAssignment.housenumber base)
                   (fun h => range_lt h last)
              then (penalty + 0.4)%Q
              else penalty in
            let penalty :=
              if 1 <? length (QueryStruct.source query)
              then (penalty + 0.25)%Q
              else penalty in
            let penalty :=
              if (TokenSequence.direction self =? 0)%Z
                 && Qlt_bool (QueryStruct.dir_penalty query) 0
              then (penalty - QueryStruct.dir_penalty query)%Q
              else penalty in
            gen_for (range (TokenRange.start last + 1) (TokenRange.end_ last))
              (fun i =>
                 let '(addr, name) := split last i in
                 gen_try (node_at query i) (fun nodei =>
                   gen_yield
                     (TokenAssignment.set_penalty
                        (penalty + QueryNode.word_break_penalty nodei)%Q
                        (TokenAssignment.set_address
                           (removelast (TokenAssignment.address base) ++ [addr])
                           (TokenAssignment.set_name (Some name) base))))))).

(** [sum(t.end - t.start for t in address)]. *)
Definition num_addr_tokens (address : list TokenRange.t) : Z :=
  fold_left (fun acc t =>
               (acc + (Z.of_nat (TokenRange.end_ t) - Z.of_nat (TokenRange.start t)))%Z)
            address 0%Z.

Definition get_assignments (self : TokenSequence.t) (query : QueryStruct.t)
  : Gen.t TokenAssignment.t :=
  let base := from_ranges (TokenSequence.seq self) in
  if (50 <? num_addr_tokens (TokenAssignment.address base))%Z then gen_return
  else
    (if truthy (TokenAssignment.postcode base)
        && negb (length (TokenAssignment.address base) =? 0)
     then _get_assignments_postcode self base (num_token_slots query)
     else gen_return)
    ;;;
    if length (TokenAssignment.address base) =? 0 then
      if negb (truthy (TokenAssignment.housenumber base))
         && (truthy (TokenAssignment.postcode base)
             || truthy (TokenAssignment.country base)
             || truthy (TokenAssignment.near_item base))
      then gen_yield (TokenAssignment.set_penalty (TokenSequence.penalty self) base)
      else gen_return
    else
      let self :=
        if and_then (TokenAssignment.postcode base)
             (fun p => TokenRange.start p =? 0)
        then add_seq_penalty 0.1 self
        else self in
      (if negb (TokenSequence.direction self =? -1)%Z
       then _get_assignments_address_forward self base query
       else gen_return)
      ;;;
      (if negb (TokenSequence.direction self =? 1)%Z
       then _get_assignments_address_backward self base query
       else gen_return)
      ;;;
      if truthy (TokenAssignment.housenumber base)
         && negb (truthy (TokenAssignment.qualifier base))
      then gen_yield (TokenAssignment.set_penalty (TokenSequence.penalty self) base)
      else gen_return.

(** [_append_state_to_todo]: what it yields, and the work list after it.
    The work list [todo] is a stack; its top, the end of the Python list,
    is the head here. *)
Definition _append_state_to_todo (query : QueryStruct.t)
    (todo : list TokenSequence.t) (newstate : option TokenSequence.t)
  : Gen.t TokenAssignment.t * list TokenSequence.t :=
  match newstate with
  | None => (gen_return, todo)
  | Some newstate =>
      if end_pos newstate =? num_token_slots query then
        let '(ok, newstate) := recheck_sequence newstate in
        if ok then (get_assignments newstate query, todo)
        else (gen_return, todo)
      else if negb (is_final newstate) then (gen_return, newstate :: todo)
      else (gen_return, todo)
  end.

(** [for tlist in node.starting: yield from _append_state_to_todo(...)]. *)
Fixpoint for_starting (query : QueryStruct.t) (state : TokenSequence.t)
    (node : QueryNode.t) (tlists : list TokenList.t) (todo : list TokenSequence.t)
  : Gen.t TokenAssignment.t * list TokenSequence.t :=
  match tlists with
  | [] => (gen_return, todo)
  | tlist :: rest =>
      let '(g, todo) :=
        _append_state_to_todo query todo
          (advance state (TokenList.ttype tlist) (TokenList.end_ tlist) true
                   (QueryNode.word_break_penalty node)) in
      if Gen.completed g then
        let '(g', todo) := for_starting query state node rest todo in
        (g ;;; g', todo)
      else (g, todo)
  end.

(** The body of the [while todo] loop, for the state popped. *)
Definition loop_body (query : QueryStruct.t) (state : TokenSequence.t)
    (todo : list TokenSequence.t)
  : Gen.t TokenAssignment.t * list TokenSequence.t :=
  match node_at query (end_pos state) with
  | None => (gen_raise, todo)
  | Some node =>
      let '(g, todo) :=
        for_starting query state node (QueryNode.starting node) todo in
      if Gen.completed g then
        match QueryNode.partial node with
        | Some _ =>
            let '(g', todo) :=
              _append_state_to_todo query todo
                (advance state TOKEN_PARTIAL (end_pos state + 1)
                         (btype_eqb (QueryNode.btype node) BREAK_PHRASE)
                         (QueryNode.word_break_penalty node)) in
            (g ;;; g', todo)
        | None => (g, todo)
        end
      else (g, todo)
  end.

Module Run.
(** What the enumerator has yielded after some rounds of its loop, and
    the work list it still holds. *)
Record t := mk {
  out : Gen.t TokenAssignment.t;
  todo : list TokenSequence.t
}.
End Run.

(** At most [fuel] rounds of [while todo]. *)
Fixpoint run_todo (fuel : nat) (query : QueryStruct.t) (todo : list TokenSequence.t)
  : Run.t :=
  match fuel, todo with
  | _, [] => Run.mk gen_return []
  | 0, _ => Run.mk gen_return todo
  | S fuel, state :: todo =>
      let '(g, todo) := loop_body query state todo in
      if Gen.completed g then
        let r := run_todo fuel query todo in
        Run.mk (g ;;; Run.out r) (Run.todo r)
      else Run.mk g todo
  end.

(** The enumerator has finished when nothing was raised and no work is
    left. *)
Definition finished (r : Run.t) : bool :=
  Gen.completed (Run.out r) && (length (Run.todo r) =? 0).

Definition yield_token_assignments (fuel : nat) (query : QueryStruct.t) : Run.t :=
  match head (QueryStruct.source query) with
  | None => Run.mk gen_raise []
  | Some phrase =>
      run_todo fuel query
        [TokenSequence.mk []
           (if ptype_eqb (Phrase.ptype phrase) PHRASE_ANY then 0 else 1)%Z 0%Q]
  end.

(** *** Well-formed queries

    The tokenizer only adds ranges [[i, j)] with [i < j] inside the
    query, and a query has the start node. *)
Definition tlist_ok (n i : nat) (tlist : TokenList.t) : bool :=
  (i <? TokenList.end_ tlist) && (TokenList.end_ tlist <=? n).

Definition wf_query (query : QueryStruct.t) : bool :=
  (0 <? length (QueryStruct.nodes query)) &&
  forallb (fun '(i, node) =>
             forallb (tlist_ok (num_token_slots query) i) (QueryNode.starting node))
          (imap pair (QueryStruct.nodes query)).

(** *** The ranges of an assignment *)

Definition assignment_ranges (a : TokenAssignment.t) : list TokenRange.t :=
  option_list (TokenAssignment.name a) ++ TokenAssignment.address a
  ++ option_list (TokenAssignment.housenumber a)
  ++ option_list (TokenAssignment.postcode a)
  ++ option_list (TokenAssignment.country a)
  ++ option_list (TokenAssignment.near_item a)
  ++ option_list (TokenAssignment.qualifier a).

(** Slot [k] lies in the range. *)
Definition covers (k : nat) (r : TokenRange.t) : bool :=
  (TokenRange.start r <=? k) && (k <? TokenRange.end_ r).

Definition cover_count (k : nat) (l : list TokenRange.t) : nat :=
  length (List.filter (covers k) l).

(** How often a token type occurs in a sequence. *)
Definition count_type (ttype : TokenType) (s : list TypedRange.t) : nat :=
  length (List.filter (fun r => ttype_eqb (TypedRange.ttype r) ttype) s).

(** ** The ICU tokenizer ([search/icu_tokenizer.py]) *)

Definition PENALTY_IN_TOKEN_BREAK (b : BreakType) : Q :=
  match b with
  | BREAK_START => 0.5
  | BREAK_END => 0.5
  | BREAK_PHRASE => 0.5
  | BREAK_SOFT_PHRASE => 0.5
  | BREAK_WORD => 0.1
  | BREAK_PART => 0.0
  | BREAK_TOKEN => 0.0
  end.

Module QueryPart.
Record t := mk {
  token : string;
  normalized : string;
  penalty : Q
}.
End QueryPart.

(** [words[word].append(r)] on the [defaultdict(list)]. *)
Definition words_append (word : string) (r : TokenRange.t)
    (words : gmap string (list TokenRange.t)) : gmap string (list TokenRange.t) :=
  <[word := default [] (words !! word) ++ [r]]> words.

(** The inner loop of [extract_words], over the values [lasts] that are
    left for [last]. *)
Fixpoint extract_words_inner (terms : list QueryPart.t) (first : nat)
    (lasts : list nat) (word : string) (penalty : Q)
    (words : gmap string (list TokenRange.t))
  : option (gmap string (list TokenRange.t)) :=
  match lasts with
  | [] => Some words
  | last :: lasts =>
      match terms !! last, terms !! (last - 1) with
      | Some tlast, Some tprev =>
          let word := word +:+ " " +:+ QueryPart.token tlast in
          let penalty := (penalty + QueryPart.penalty tprev)%Q in
          extract_words_inner terms first lasts word penalty
            (words_append word (TokenRange.mk first (last + 1) (Some penalty)) words)
      | _, _ => None
      end
  end.

(** The outer loop of [extract_words], over the values left for
    [first]. *)
Fixpoint extract_words_outer (terms : list QueryPart.t) (total : nat)
    (firsts : list nat) (words : gmap string (list TokenRange.t))
  : option (gmap string (list TokenRange.t)) :=
  match firsts with
  | [] => Some words
  | first :: firsts =>
      match terms !! first with
      | Some tfirst =>
          let word := QueryPart.token tfirst in
          let penalty := PENALTY_IN_TOKEN_BREAK BREAK_WORD in
          let words :=
            words_append word (TokenRange.mk first (first + 1) (Some penalty)) words in
          match extract_words_inner terms first
                  (range (first + 1) (Nat.min (first + 20) total)) word penalty words with
          | Some words => extract_words_outer terms total firsts words
          | None => None
          end
      | None => None
      end
  end.

Definition extract_words (terms : list QueryPart.t) (start : nat)
    (words : gmap string (list TokenRange.t))
  : option (gmap string (list TokenRange.t)) :=
  let total := length terms in
  extract_words_outer terms total (range start total) words.

(** [s.split('@', 1)[0]]: the part of [s] before its first [@]. *)
Fixpoint before_at (s : string) : string :=
  match s with
  | EmptyString => EmptyString
  | String c r => if Ascii.eqb c "@" then EmptyString else String c (before_at r)
  end.

Module SaRow.
(** A row of the [word] table. *)
Record t := mk {
  word_id : Z;
  word_token : string;
  type : string;
  word : option string;
  info : option (gmap string json)
}.
End SaRow.

(** [row.info.get(key, dflt)] when [row.info] is a dictionary. *)
Definition info_get (info : gmap string json) (key : string) (dflt : json) : json :=
  default dflt (info !! key).

(** [max(1, count)]; comparing 1 with a string or with [None] raises. *)
Definition max_1 (count : json) : option Z :=
  match count with
  | JInt c => Some (Z.max 1 c)
  | _ => None
  end.

(** [sum(0.1 for c in word_token if c != ' ' and not c.isdigit())]. *)
Definition housenumber_char_penalty (word_token : string) : Q :=
  fold_left (fun acc c =>
               if negb (c =? 32)%N && negb (char_isdigit c)
               then (acc + 0.1)%Q else acc)
            (chars word_token) 0%Q.

(** The penalty part of [ICUToken.from_db_row]. *)
Definition row_penalty (row : SaRow.t) (base_penalty : Q) : Q :=
  let penalty := base_penalty in
  if String.eqb (SaRow.type row) "w" then (penalty + 0.3)%Q
  else if String.eqb (SaRow.type row) "W" then
    match SaRow.word row with
    | Some word =>
        if (len (SaRow.word_token row) =? 1)
           && String.eqb (SaRow.word_token row) word
        then (penalty + (if isdigit word then 0.2 else 0.3))%Q
        else penalty
    | None => penalty
    end
  else if String.eqb (SaRow.type row) "H" then
    let penalty := (penalty + housenumber_char_penalty (SaRow.word_token row))%Q in
    if forallb (fun c => negb (char_isdigit c)) (chars (SaRow.word_token row))
    then (penalty
          + 0.2 * inject_Z (Z.of_nat (len (SaRow.word_token row)) - 1))%Q
    else penalty
  else if String.eqb (SaRow.type row) "C" then
    if len (SaRow.word_token row) =? 1 then (penalty + 0.3)%Q
    else penalty
  else penalty.

(** The lookup word chosen by [from_db_row]; [None] when [info] holds a
    non-zero number under [lookup], which has no [split]. *)
Definition row_lookup_word (row : SaRow.t) : option string :=
  let lookup_word :=
    match SaRow.info row with
    | None => from_option JStr JNull (SaRow.word row)
    | Some info =>
        info_get info "lookup" (from_option JStr JNull (SaRow.word row))
    end in
  match lookup_word with
  | JStr s =>
      if negb (String.length s =? 0) then Some (before_at s)
      else Some (SaRow.word_token row)
  | JNull => Some (SaRow.word_token row)
  | JInt z => if (z =? 0)%Z then Some (SaRow.word_token row) else None
  end.

Definition from_db_row (row : SaRow.t) (base_penalty : Q) : option ICUToken.t :=
  let count :=
    match SaRow.info row with
    | None => JInt 1
    | Some info => info_get info "count" (JInt 1)
    end in
  let addr_count :=
    match SaRow.info row with
    | None => JInt 1
    | Some info => info_get info "addr_count" (JInt 1)
    end in
  let penalty := row_penalty row base_penalty in
  match row_lookup_word row, max_1 count, max_1 addr_count with
  | Some lookup_word, Some count, Some addr_count =>
      Some (ICUToken.mk penalty (SaRow.word_id row) count addr_count lookup_word
              (SaRow.word_token row) (SaRow.info row))
  | _, _, _ => None
  end.

(** *** Changing the token graph *)

Definition set_nodes (nodes : list QueryNode.t) (query : QueryStruct.t)
  : QueryStruct.t :=
  QueryStruct.mk (QueryStruct.source query) nodes (QueryStruct.dir_penalty query).

Definition set_starting (starting : list TokenList.t) (node : QueryNode.t)
  : QueryNode.t :=
  QueryNode.mk (QueryNode.btype node) (QueryNode.ptype node)
               (QueryNode.word_break_penalty node) starting (QueryNode.partial node).

Definition set_tokens (tokens : list ICUToken.t) (tlist : TokenList.t)
  : TokenList.t :=
  TokenList.mk (TokenList.end_ tlist) (TokenList.ttype tlist) tokens.

Definition add_token_penalty (p : Q) (token : ICUToken.t) : ICUToken.t :=
  ICUToken.mk (ICUToken.penalty token + p)%Q (ICUToken.token token)
              (ICUToken.count token) (ICUToken.addr_count token)
              (ICUToken.lookup_word token) (ICUToken.word_token token)
              (ICUToken.info token).

(** Modelled from the spec: [TokenList.add_penalty], which adds the
    penalty to every token of the list. *)
Definition add_penalty (p : Q) (tlist : TokenList.t) : TokenList.t :=
  set_tokens (map (add_token_penalty p) (TokenList.tokens tlist)) tlist.

(** Modelled from the spec: [QueryNode.has_tokens], whether a token list
    of one of the types ends at [e] among those starting at the node. *)
Definition has_tokens (node : QueryNode.t) (e : nat) (ttypes : list TokenType)
  : bool :=
  existsb (fun tl => (TokenList.end_ tl =? e) && ttype_in (TokenList.ttype tl) ttypes)
          (QueryNode.starting node).

(** The token joins the list of its range and type, or starts that list
    after the others. *)
Fixpoint insert_token (e : nat) (ttype : TokenType) (token : ICUToken.t)
    (starting : list TokenList.t) : list TokenList.t :=
  match starting with
  | [] => [TokenList.mk e ttype [token]]
  | tl :: rest =>
      if (TokenList.end_ tl =? e) && ttype_eqb (TokenList.ttype tl) ttype
      then set_tokens (TokenList.tokens tl ++ [token]) tl :: rest
      else tl :: insert_token e ttype token rest
  end.

(** Modelled from the spec: [QueryStruct.iter_token_lists] visits the
    token lists node by node; a visit is the index of the node and the
    index of the list among those starting there. *)
Definition iter_token_lists (query : QueryStruct.t) : list (nat * nat) :=
  mjoin (imap (fun i node => map (pair i) (seq 0 (length (QueryNode.starting node))))
              (QueryStruct.nodes query)).

(** Opcodes of [difflib.SequenceMatcher.get_opcodes]. *)
Inductive opcode_tag := op_replace | op_delete | op_insert | op_equal.

Module Opcode.
Record t := mk {
  tag : opcode_tag;
  afrom : Z;
  ato : Z;
  bfrom : Z;
  bto : Z
}.
End Opcode.

Section Analyzer.

(** Modelled from the spec: the phrase type of the node a token starts
    at constrains the roles the token may take; which types a phrase type
    admits is left open. *)
Variable phrase_admits : PhraseType -> TokenType -> bool.

(** [difflib.SequenceMatcher(a=a, b=b).get_opcodes()], a library
    function. *)
Variable get_opcodes : string -> string -> list Opcode.t.

(** Modelled from the spec: [QueryStruct.add_token] inserts the token at
    its range when the phrase type admits the token type; tokens of a
    range and type share a list. *)
Definition add_token (query : QueryStruct.t) (trange : TokenRange.t)
    (ttype : TokenType) (token : ICUToken.t) : option QueryStruct.t :=
  match node_at query (TokenRange.start trange) with
  | None => None
  | Some snode =>
      if phrase_admits (QueryNode.ptype snode) ttype then
        Some (set_nodes
                (<[TokenRange.start trange :=
                     set_starting
                       (insert_token (TokenRange.end_ trange) ttype token
                          (QueryNode.starting snode))
                       snode]> (QueryStruct.nodes query))
                query)
      else Some query
  end.

(** The token [add_extra_tokens] makes up for a term. *)
Definition extra_token (part : QueryPart.t) : ICUToken.t :=
  ICUToken.mk 0.5 0 1 1 (QueryPart.token part) (QueryPart.token part) None.

(** One round of the loop of [add_extra_tokens].  The node of the round
    is read from the query as it is by then: the rounds before changed
    other nodes only. *)
Definition add_extra_tokens_step (query : option QueryStruct.t)
    (item : QueryPart.t * QueryNode.t * nat) : option QueryStruct.t :=
  let '(part, _, i) := item in
  match query with
  | None => None
  | Some query =>
      match node_at query i with
      | None => None
      | Some node =>
          if (len (QueryPart.token part) <=? 4)
             && isdigit (QueryPart.token part)
             && negb (has_tokens node (i + 1) [TOKEN_HOUSENUMBER])
          then add_token query (mkTokenRange i (i + 1)) TOKEN_HOUSENUMBER
                 (extra_token part)
          else Some query
      end
  end.

Definition add_extra_tokens (query : QueryStruct.t) (parts : list QueryPart.t)
  : option QueryStruct.t :=
  fold_left add_extra_tokens_step
            (zip (zip parts (QueryStruct.nodes query)) (range 0 1000))
            (Some query).

(** [ICUToken.rematch]. *)
Definition opcode_distance (lookup_len : Z) (op : Opcode.t) : Z :=
  match Opcode.tag op with
  | op_delete | op_insert =>
      if (Opcode.afrom op =? 0)%Z || (Opcode.ato op =? lookup_len)%Z then 1%Z
      else Z.abs ((Opcode.ato op - Opcode.afrom op)
                  - (Opcode.bto op - Opcode.bfrom op))
  | op_replace =>
      Z.max (Opcode.ato op - Opcode.afrom op) (Opcode.bto op - Opcode.bfrom op)
  | op_equal => 0%Z
  end.

Definition rematch (token : ICUToken.t) (norm : string) : ICUToken.t :=
  if len (ICUToken.lookup_word token) =? 0 then token
  else
    let lookup_len := Z.of_nat (len (ICUToken.lookup_word token)) in
    let distance :=
      fold_left (fun d op => (d + opcode_distance lookup_len op)%Z)
                (get_opcodes (ICUToken.lookup_word token) norm) 0%Z in
    add_token_penalty (inject_Z distance / inject_Z lookup_len)%Q token.

(** The branch of [rerank_tokens] for a POSTCODE list [tlist]: what
    becomes of a list [repl] of the same node. *)
Definition rerank_postcode_repl (tlist repl : TokenList.t) : option TokenList.t :=
  if (TokenList.end_ repl =? TokenList.end_ tlist)
     && negb (ttype_eqb (TokenList.ttype repl) TOKEN_POSTCODE)
  then
    if negb (ttype_eqb (TokenList.ttype repl) TOKEN_HOUSENUMBER)
    then Some (add_penalty 0.39 repl)
    else
      match head (TokenList.tokens tlist) with
      | None => None
      | Some token0 =>
          if 4 <? len (ICUToken.lookup_word token0)
          then Some (add_penalty 0.39 repl)
          else Some repl
      end
  else Some repl.

(** The branch for a short HOUSENUMBER list whose first token is
    [token0]. *)
Definition rerank_housenumber_repl (tlist : TokenList.t) (token0 : ICUToken.t)
    (repl : TokenList.t) : TokenList.t :=
  if (TokenList.end_ repl =? TokenList.end_ tlist)
     && negb (ttype_eqb (TokenList.ttype repl) TOKEN_HOUSENUMBER)
  then add_penalty (0.5 - ICUToken.penalty token0)%Q repl
  else repl.

(** The normalized text [norm] the last branch builds for the range
    [[i, e)]. *)
Definition rematch_norm (parts : list QueryPart.t) (node : QueryNode.t)
    (i e : nat) : option string :=
  match parts !! i with
  | None => None
  | Some parti =>
      fold_left (fun norm j =>
                   match norm with
                   | None => None
                   | Some norm =>
                       if negb (btype_eqb (QueryNode.btype node) BREAK_TOKEN) then
                         match parts !! j with
                         | Some partj =>
                             Some (norm +:+ "  " +:+ QueryPart.normalized partj)
                         | None => None
                         end
                       else Some norm
                   end)
                (range (i + 1) e) (Some (QueryPart.normalized parti))
  end.

(** The last branch: every list but COUNTRY and PARTIAL ones has its
    tokens matched against the normalized text of its range. *)
Definition rerank_rematch (parts : list QueryPart.t) (i k : nat)
    (node : QueryNode.t) (tlist : TokenList.t) : option (list TokenList.t) :=
  if negb (ttype_in (TokenList.ttype tlist) [TOKEN_COUNTRY; TOKEN_PARTIAL]) then
    match rematch_norm parts node i (TokenList.end_ tlist) with
    | None => None
    | Some norm =>
        Some (<[k := set_tokens (map (fun t => rematch t norm)
                                     (TokenList.tokens tlist)) tlist]>
                (QueryNode.starting node))
    end
  else Some (QueryNode.starting node).

(** The lists starting at the node after the round of [rerank_tokens]
    that visits the list [tlist], the [k]-th of the node [i]. *)
Definition rerank_starting (parts : list QueryPart.t) (i k : nat)
    (node : QueryNode.t) (tlist : TokenList.t) : option (list TokenList.t) :=
  let starting := QueryNode.starting node in
  if ttype_eqb (TokenList.ttype tlist) TOKEN_POSTCODE then
    mapM (rerank_postcode_repl tlist) starting
  else if ttype_eqb (TokenList.ttype tlist) TOKEN_HOUSENUMBER then
    match head (TokenList.tokens tlist) with
    | None => None
    | Some token0 =>
        if len (ICUToken.lookup_word token0) <=? 3 then
          if existsb char_isdigit (chars (ICUToken.lookup_word token0))
          then Some (map (rerank_housenumber_repl tlist token0) starting)
          else Some starting
        else rerank_rematch parts i k node tlist
    end
  else rerank_rematch parts i k node tlist.

(** One round of the loop of [rerank_tokens], for the visit [(i, k)]. *)
Definition rerank_step (parts : list QueryPart.t) (query : option QueryStruct.t)
    (visit : nat * nat) : option QueryStruct.t :=
  let '(i, k) := visit in
  match query with
  | None => None
  | Some query =>
      match node_at query i with
      | None => None
      | Some node =>
          match QueryNode.starting node !! k with
          | None => None
          | Some tlist =>
              match rerank_starting parts i k node tlist with
              | None => None
              | Some starting =>
                  Some (set_nodes (<[i := set_starting starting node]>
                                     (QueryStruct.nodes query)) query)
              end
          end
      end
  end.

Definition rerank_tokens (query : QueryStruct.t) (parts : list QueryPart.t)
  : option QueryStruct.t :=
  fold_left (rerank_step parts) (iter_token_lists query) (Some query).

(** *** The rows of the lookup, in [analyze_query] *)

(** The dictionary [DB_TO_TOKEN_TYPE]; [None] is the [KeyError] of a type
    that is not a key. *)
Definition DB_TO_TOKEN_TYPE (type : string) : option TokenType :=
  if String.eqb type "W" then Some TOKEN_WORD
  else if String.eqb type "w" then Some TOKEN_PARTIAL
  else if String.eqb type "H" then Some TOKEN_HOUSENUMBER
  else if String.eqb type "P" then Some TOKEN_POSTCODE
  else if String.eqb type "C" then Some TOKEN_COUNTRY
  else None.

(** [row.info['op'] in ('in', 'near')]; [None] when the row has no
    [info] or [info] has no key [op]. *)
Definition row_op_near (row : SaRow.t) : option bool :=
  match SaRow.info row with
  | None => None
  | Some info =>
      match info !! "op" with
      | None => None
      | Some (JStr op) => Some (String.eqb op "in" || String.eqb op "near")
      | Some _ => Some false
      end
  end.

(** The type under which [analyze_query] adds the token of a row at the
    range [trange] of a query of [slots] slots: [Some None] when it adds
    no token, [None] when it raises. *)
Definition row_token_type (slots : nat) (row : SaRow.t) (trange : TokenRange.t)
  : option (option TokenType) :=
  if String.eqb (SaRow.type row) "S" then
    match row_op_near row with
    | None => None
    | Some true =>
        if TokenRange.start trange =? 0 then Some (Some TOKEN_NEAR_ITEM)
        else Some None
    | Some false =>
        if (TokenRange.start trange =? 0) && (TokenRange.end_ trange =? slots)
        then Some (Some TOKEN_NEAR_ITEM)
        else Some (Some TOKEN_QUALIFIER)
    end
  else
    match DB_TO_TOKEN_TYPE (SaRow.type row) with
    | None => None
    | Some ttype => Some (Some ttype)
    end.

(** One round of the inner loop of [analyze_query], for a row and a
    range of its word token. *)
Definition insert_row (row : SaRow.t) (query : option QueryStruct.t)
    (trange : TokenRange.t) : option QueryStruct.t :=
  match query with
  | None => None
  | Some query =>
      match from_db_row row (default 0%Q (TokenRange.penalty trange)) with
      | None => None
      | Some token =>
          match row_token_type (num_token_slots query) row trange with
          | None => None
          | Some None => Some query
          | Some (Some ttype) => add_token query trange ttype token
          end
      end
  end.

(** The loop of [analyze_query] over the rows of the lookup; [words] is
    a [defaultdict], which has the empty list for a missing key. *)
Definition insert_rows (query : QueryStruct.t)
    (words : gmap string (list TokenRange.t)) (rows : list SaRow.t)
  : option QueryStruct.t :=
  fold_left (fun query row =>
               fold_left (insert_row row)
                         (default [] (words !! SaRow.word_token row)) query)
            rows (Some query).

(** [analyze_query] from the lookup on: the tokens of the rows, the
    extra tokens, the rerank. *)
Definition analyze_query_tokens (query : QueryStruct.t) (parts : list QueryPart.t)
    (words : gmap string (list TokenRange.t)) (rows : list SaRow.t)
  : option QueryStruct.t :=
  match insert_rows query words rows with
  | None => None
  | Some query =>
      match add_extra_tokens query parts with
      | None => None
      | Some query => rerank_tokens query parts
      end
  end.

End Analyzer.

(** ** Near search ([search/db_searches.py]) *)

(** [nres.SourceTable]. *)
Inductive SourceTable := PLACEX | OSMLINE | POSTCODE | TIGER | COUNTRY.

Definition is_placex (t : SourceTable) : bool :=
  match t with PLACEX => true | _ => false end.

Module Bbox.
(** Modelled from the spec: of a bounding box only its area is used. *)
Record t := mk {
  area : Q
}.
End Bbox.

Module SearchResult.
(** The fields of [nres.SearchResult] that [NearSearch.lookup] reads. *)
Record t := mk {
  source_table : SourceTable;
  accuracy : Double.t;
  rank_search : Z;
  rank_address : Z;
  bbox : option Bbox.t;
  place_id : option Z
}.
End SearchResult.

(** [(r.accuracy, r.rank_search) < (r'.accuracy, r'.rank_search)] on
    tuples: the first components decide unless they are equal. *)
Definition key_lt (r r' : SearchResult.t) : bool :=
  if Qeq_bool (SearchResult.accuracy r) (SearchResult.accuracy r')
  then (SearchResult.rank_search r <? SearchResult.rank_search r')%Z
  else Qlt_bool (SearchResult.accuracy r) (SearchResult.accuracy r').

(** [base.sort(key=...)]: the sort is stable.  An element that is put in
    front of a sorted list goes behind the elements of a smaller key and
    stays in front of those of its own key; [sort_results] puts the
    elements in from the last one on. *)
Fixpoint sort_insert (r : SearchResult.t) (l : list SearchResult.t)
  : list SearchResult.t :=
  match l with
  | [] => [r]
  | r' :: rest =>
      if key_lt r' r then r' :: sort_insert r rest
      else r :: r' :: rest
  end.

Definition sort_results (base : list SearchResult.t) : list SearchResult.t :=
  foldr sort_insert [] base.

(** [min_rank] and [max_rank] for the best result's address rank. *)
Definition rank_window (rank_address : Z) : Z * Z :=
  if (rank_address =? 0)%Z then (0, 0)%Z
  else if (rank_address <? 26)%Z then (1, Z.min 25 (rank_address + 4))%Z
  else (26, 30)%Z.

(** The condition of the filter on the sorted results. *)
Definition retained (max_accuracy : Double.t) (min_rank max_rank : Z)
    (r : SearchResult.t) : bool :=
  is_placex (SearchResult.source_table r)
  && Qle_bool (SearchResult.accuracy r) max_accuracy
  && and_then (SearchResult.bbox r) (fun b => Qlt_bool (Bbox.area b) 20)
  && (min_rank <=? SearchResult.rank_address r)%Z
  && (SearchResult.rank_address r <=? max_rank)%Z.

(** The results [NearSearch.lookup] keeps of those of the inner search:
    none when the inner search found nothing. *)
Definition near_base (base : list SearchResult.t) : list SearchResult.t :=
  match sort_results base with
  | [] => []
  | (r0 :: _) as sorted =>
      let max_accuracy := fadd (SearchResult.accuracy r0) (Double.of_Q 0.5) in
      let '(min_rank, max_rank) := rank_window (SearchResult.rank_address r0) in
      List.filter (retained max_accuracy min_rank max_rank) sorted
  end.

(** [[b.place_id for b in base[:5] if b.place_id]]; a place id of 0 is
    as false as a missing one. *)
Definition baseids (base : list SearchResult.t) : list Z :=
  omap (fun b =>
          match SearchResult.place_id b with
          | Some id => if (id =? 0)%Z then None else Some id
          | None => None
          end)
       (take 5 base).


(** ** The layer filter ([_filter_by_layer]) *)

Module DataLayer.
(** [DataLayer], a set of flags. *)
Record t := mk {
  ADDRESS : bool;
  POI : bool;
  RAILWAY : bool;
  NATURAL : bool;
  MANMADE : bool
}.
End DataLayer.

(** The SQL conditions [_filter_by_layer] builds on the columns
    [rank_address] and [class] and with the function [IsAddressPoint]. *)
#[warnings="-register-all"]
Inductive SaExpression :=
| rank_between (lo hi : Z)
| rank_equals (rank : Z)
| IsAddressPoint
| class_in (classes : list string)
| class_not_in (classes : list string)
| sa_and (a b : SaExpression)
| sa_or (exprs : list SaExpression).

Definition _filter_by_layer (layers : DataLayer.t) : SaExpression :=
  let orexpr :=
    (if DataLayer.ADDRESS layers && DataLayer.POI layers then
       [rank_between 1 30]
     else if DataLayer.ADDRESS layers then
       [rank_between 1 29; IsAddressPoint]
     else if DataLayer.POI layers then
       [sa_and (rank_equals 30) (class_not_in ["place"; "building"])]
     else [])
    ++ (if DataLayer.MANMADE layers then
          let exclude :=
            (if negb (DataLayer.RAILWAY layers) then ["railway"] else [])
            ++ (if negb (DataLayer.NATURAL layers)
                then ["natural"; "water"; "waterway"] else []) in
          [sa_and (class_not_in exclude) (rank_equals 0)]
        else
          let include :=
            (if DataLayer.RAILWAY layers then ["railway"] else [])
            ++ (if DataLayer.NATURAL layers
                then ["natural"; "water"; "waterway"] else []) in
          [sa_and (class_in include) (rank_equals 0)]) in
  match orexpr with
  | [expr] => expr
  | _ => sa_or orexpr
  end.

Module PlacexRow.
(** What the conditions read of a row of [placex]. *)
Record t := mk {
  rank_address : Z;
  class_ : string;
  is_address_point : bool
}.
End PlacexRow.

Definition string_in (s : string) (l : list string) : bool :=
  existsb (String.eqb s) l.

(** Whether the row meets the condition, as SQL evaluates it. *)
Fixpoint holds (row : PlacexRow.t) (expr : SaExpression) : bool :=
  match expr with
  | rank_between lo hi =>
      (lo <=? PlacexRow.rank_address row)%Z && (PlacexRow.rank_address row <=? hi)%Z
  | rank_equals rank => (PlacexRow.rank_address row =? rank)%Z
  | IsAddressPoint => PlacexRow.is_address_point row
  | class_in classes => string_in (PlacexRow.class_ row) classes
  | class_not_in classes => negb (string_in (PlacexRow.class_ row) classes)
  | sa_and a b => holds row a && holds row b
  | sa_or exprs => existsb (holds row) exprs
  end.

(** ** The results of a place search ([PlaceSearch.lookup]) *)

Module PlaceRow.
(** What the loop over the rows of the SQL query reads of a row; the
    three lists of house-number places are arrays that may be NULL. *)
Record t := mk {
  place_id : option Z;
  osm_id : Z;
  category : string * string;
  rank_address : Z;
  accuracy : Double.t;
  housenumber : option string;
  placex_hnr : option (list Z);
  interpol_hnr : option (list Z);
  tiger_hnr : option (list Z)
}.
End PlaceRow.

Module PlaceResult.
(** The fields of [nres.SearchResult] that [PlaceSearch.lookup] reads
    and writes. *)
Record t := mk {
  place_id : option Z;
  category : string * string;
  rank_address : Z;
  accuracy : Double.t;
  housenumber : option string
}.
End PlaceResult.

Definition set_accuracy (accuracy : Double.t) (r : PlaceResult.t) : PlaceResult.t :=
  PlaceResult.mk (PlaceResult.place_id r) (PlaceResult.category r)
                 (PlaceResult.rank_address r) accuracy (PlaceResult.housenumber r).

(** [nres.create_from_placex_row] on these fields. *)
Definition create_from_placex_row (row : PlaceRow.t) : PlaceResult.t :=
  PlaceResult.mk (PlaceRow.place_id row) (PlaceRow.category row)
                 (PlaceRow.rank_address row) (Double.of_Q 0) (PlaceRow.housenumber row).

(** [int(n)] for a string [n] with [n.isdigit()]: [None] is the
    [ValueError] for a digit that is no decimal digit, such as a
    superscript. *)
Definition int_of_digits (n : string) : option Z :=
  if len n =? 0 then None
  else
    fold_left (fun acc c =>
                 match acc, decimal_value c with
                 | Some acc, Some d => Some (10 * acc + d)%Z
                 | _, _ => None
                 end)
              (chars n) (Some 0%Z).

(** [[int(n) for n in values if n.isdigit() and len(n) < 8]]. *)
Definition numerals (values : list string) : option (list Z) :=
  mapM int_of_digits
       (List.filter (fun n => isdigit n && (len n <? 8)) values).

(** [s.split(';')]. *)
Fixpoint split_semicolon (s : string) : list string :=
  match s with
  | EmptyString => [EmptyString]
  | String c r =>
      if Ascii.eqb c ";" then EmptyString :: split_semicolon r
      else match split_semicolon r with
           | w :: ws => String c w :: ws
           | [] => [String c EmptyString]
           end
  end.

(** The truth value of an array column. *)
Definition array_true (a : option (list Z)) : bool :=
  match a with
  | Some (_ :: _) => true
  | _ => false
  end.

Definition pair_eqb (a b : string * string) : bool :=
  String.eqb (fst a) (fst b) && String.eqb (snd a) (snd b).

Section PlaceSearch.

(** [self.housenumbers.values], [self.qualifiers.values],
    [details.excluded] and [details.min_rank]. *)
Variable housenumbers : list string.
Variable qualifiers : list (string * string).
Variable excluded : list Z.
Variable min_rank : Z.

(** The lookups of the house numbers below a street, which read the
    database. *)
Variable _get_placex_housenumbers : list Z -> list PlaceResult.t.
Variable _get_osmline : list Z -> list Z -> list PlaceResult.t.
Variable _get_tiger : list Z -> list Z -> Z -> list PlaceResult.t.

(** One round of the loop over [subs]; the assertion fails on a result
    without house number. *)
Definition sub_result (accuracy : Double.t) (sub : PlaceResult.t)
  : option PlaceResult.t :=
  match PlaceResult.housenumber sub with
  | None => None
  | Some housenumber =>
      if String.length housenumber =? 0 then None
      else if existsb (fun nr => string_in nr housenumbers)
                      (split_semicolon housenumber)
      then Some (set_accuracy accuracy sub)
      else Some (set_accuracy (fadd accuracy (Double.of_Q 0.6)) sub)
  end.

(** Whether the street itself is added as a result. *)
Definition street_kept (result : PlaceResult.t) : bool :=
  (match excluded with
   | [] => true
   | _ => match PlaceResult.place_id result with
          | Some id => negb (existsb (Z.eqb id) excluded)
          | None => true
          end
   end)
  && (match qualifiers with
      | [] => true
      | _ => existsb (pair_eqb (PlaceResult.category result)) qualifiers
      end)
  && (min_rank <=? PlaceResult.rank_address result)%Z.

(** [subs]: the house numbers looked up below the street of the row,
    none when the three arrays are empty. *)
Definition row_subs (numerals : list Z) (row : PlaceRow.t) : list PlaceResult.t :=
  if array_true (PlaceRow.placex_hnr row) then
    _get_placex_housenumbers (default [] (PlaceRow.placex_hnr row))
  else if array_true (PlaceRow.interpol_hnr row) then
    _get_osmline (default [] (PlaceRow.interpol_hnr row)) numerals
  else if array_true (PlaceRow.tiger_hnr row) then
    _get_tiger (default [] (PlaceRow.tiger_hnr row)) numerals (PlaceRow.osm_id row)
  else [].

(** What one round of the loop over the rows appends to the results. *)
Definition row_results (numerals : list Z) (row : PlaceRow.t)
  : option (list PlaceResult.t) :=
  let result := set_accuracy (PlaceRow.accuracy row) (create_from_placex_row row) in
  if negb (length housenumbers =? 0) && (PlaceRow.rank_address row <? 30)%Z then
    match mapM (sub_result (PlaceResult.accuracy result)) (row_subs numerals row) with
    | None => None
    | Some subs =>
        if street_kept result
        then Some (subs ++ [set_accuracy (fadd (PlaceResult.accuracy result)
                                               (Double.of_Q 1.0)) result])
        else Some subs
    end
  else Some [result].

(** The results of the loop for the rows of the query; the numerals are
    made when the query is built, before the loop. *)
Definition place_results (rows : list PlaceRow.t) : option (list PlaceResult.t) :=
  match numerals housenumbers with
  | None => None
  | Some numerals =>
      fold_left (fun results row =>
                   match results, row_results numerals row with
                   | Some results, Some more => Some (results ++ more)
                   | _, _ => None
                   end)
                rows (Some [])
  end.

End PlaceSearch.

(** ** The categories of a near search and the country search *)

Module SearchDetails.
(** The fields of [SearchDetails] these lookups read and write. *)
Record t := mk {
  min_rank : Z;
  max_rank : Z;
  max_results : nat;
  excluded : list Z
}.
End SearchDetails.

Definition set_result_accuracy (accuracy : Double.t) (r : SearchResult.t)
  : SearchResult.t :=
  SearchResult.mk (SearchResult.source_table r) accuracy (SearchResult.rank_search r)
                  (SearchResult.rank_address r) (SearchResult.bbox r)
                  (SearchResult.place_id r).

Section NearSearch.

(** [self.penalty], [self.categories] as the pairs it iterates over,
    and [details.max_results]. *)
Variable penalty : Double.t.
Variable categories : list ((string * string) * Double.t).
Variable max_results : nat.

(** The rows of the SQL query of [lookup_category] for the place ids
    and the category, as results. *)
Variable category_rows : list Z -> string * string -> list SearchResult.t.

(** [lookup_category]: what it adds to the results. *)
Definition lookup_category (ids : list Z) (category : string * string)
    (cat_penalty : Double.t) : list SearchResult.t :=
  map (set_result_accuracy (fadd penalty cat_penalty)) (category_rows ids category).

(** The loop over the categories, which ends when there are
    [max_results] results. *)
Fixpoint lookup_categories (ids : list Z) (cats : list ((string * string) * Double.t))
    (results : list SearchResult.t) : list SearchResult.t :=
  match cats with
  | [] => results
  | (category, cat_penalty) :: cats =>
      let results := results ++ lookup_category ids category cat_penalty in
      if max_results <=? length results then results
      else lookup_categories ids cats results
  end.

(** [NearSearch.lookup], for the results [base] of the inner search. *)
Definition near_lookup (base : list SearchResult.t) : list SearchResult.t :=
  match near_base base with
  | [] => []
  | kept => lookup_categories (baseids kept) categories []
  end.

End NearSearch.

Section CountrySearch.

(** The results of the query on placex and of the query on the country
    tables, which read the database. *)
Variable placex_countries : SearchDetails.t -> list SearchResult.t.
Variable country_tables : SearchDetails.t -> list SearchResult.t.

Definition lookup_in_country_table (details : SearchDetails.t)
  : list SearchResult.t :=
  match SearchDetails.excluded details with
  | [] => country_tables details
  | _ => []
  end.

(** [CountrySearch.lookup]: the results and what becomes of [details]. *)
Definition country_lookup (details : SearchDetails.t)
  : list SearchResult.t * SearchDetails.t :=
  let results := placex_countries details in
  let results :=
    match results with
    | [] => lookup_in_country_table details
    | _ => results
    end in
  match results with
  | [] => (results, details)
  | _ =>
      (results,
       SearchDetails.mk (Z.min 5 (SearchDetails.max_rank details))
                        (Z.min 25 (SearchDetails.max_rank details))
                        (SearchDetails.max_results details)
                        (SearchDetails.excluded details))
  end.

End CountrySearch.

(** ** The regex preprocessor ([query_preprocessing/regex_replace.py]) *)

(** The truth value of [text.strip()]: some character is no space. *)
Definition strip_true (text : string) : bool :=
  existsb (fun c => negb (char_isspace c)) (chars text).

Section RegexReplace.

(** Compiled patterns and [pattern.sub(replace, text)] of [re]. *)
Variable Pattern : Type.
Variable re_sub : Pattern -> string -> string -> string.

(** [self.compiled_patterns]. *)
Variable compiled_patterns : list (Pattern * string).

Definition split_phrase (phrase : Phrase.t) : Phrase.t :=
  Phrase.mk (Phrase.ptype phrase)
            (fold_left (fun text item => re_sub (fst item) (snd item) text)
                       compiled_patterns (Phrase.text phrase)).

(** [_GenericPreprocessing.__call__]. *)
Definition regex_replace (phrases : list Phrase.t) : list Phrase.t :=
  List.filter (fun p => strip_true (Phrase.text p)) (map split_phrase phrases).

End RegexReplace.

(** ** The import command ([nominatim_db/clicmd/setup.py]) *)

(** The choices of [--continue]. *)
Inductive ContinueAt := import_from_file | load_data | indexing | db_postprocess.

(** [o is None]. *)
Definition is_none {A} (o : option A) : bool :=
  match o with
  | None => true
  | Some _ => false
  end.

Module NominatimArgs.
(** The arguments [SetupAll] decides on. *)
Record t := mk {
  osm_file : option (list string);
  continue_at : option ContinueAt;
  prepare_database : bool;
  no_updates : bool
}.
End NominatimArgs.

(** The calls into the tools of the import, in the order of the run. *)
Inductive Step :=
| setup_country_config
| setup_database_skeleton
| check_existing_database_plugins
| setup_country_tables
| import_osm_data
| import_wikipedia_articles
| import_secondary_importance
| create_functions
| create_tables
| load_address_levels_from_config
| create_table_triggers
| create_partition_tables
| truncate_data_tables
| load_data_into_placex
| create_tokenizer
| get_tokenizer_for_db
| update_postcodes
| index_full
| create_search_indices
| create_country_names
| drop_update_tables
| finalize_import
| update_statistics
| set_database_version
| compute_database_date
| set_status.

Definition continue_in (c : option ContinueAt) (l : list (option ContinueAt)) : bool :=
  existsb (fun c' =>
             match c, c' with
             | None, None => true
             | Some import_from_file, Some import_from_file
             | Some load_data, Some load_data
             | Some indexing, Some indexing
             | Some db_postprocess, Some db_postprocess => true
             | _, _ => false
             end) l.

Definition _setup_tables : list Step :=
  [create_functions; create_tables; load_address_levels_from_config;
   create_functions; create_table_triggers; create_partition_tables;
   create_functions].

(** [_base_import]: the steps, or [None] for the [UsageError] of an
    empty list of files. *)
Definition _base_import (files : list string) (args : NominatimArgs.t)
  : option (list Step) :=
  match files with
  | [] => None
  | _ =>
      if continue_in (NominatimArgs.continue_at args) [Some import_from_file; None]
      then Some ([check_existing_database_plugins; setup_country_tables;
                  import_osm_data; import_wikipedia_articles;
                  import_secondary_importance] ++ _setup_tables)
      else Some []
  end.

Definition _get_tokenizer (continue_at : option ContinueAt) : Step :=
  if continue_in continue_at [Some import_from_file; Some load_data; None]
  then create_tokenizer
  else get_tokenizer_for_db.

Definition _finalize_database : list Step :=
  [set_database_version; compute_database_date; set_status].

(** [async_run]: the steps taken and the value returned, [None] for a
    [UsageError]; [files] is what [args.get_osm_file_list()] gives. *)
Definition async_run (files : list string) (args : NominatimArgs.t)
  : list Step * option Z :=
  let continue_at := NominatimArgs.continue_at args in
  let steps := [setup_country_config] in
  let steps :=
    if NominatimArgs.prepare_database args || continue_in continue_at [None]
    then steps ++ [setup_database_skeleton] else steps in
  if (NominatimArgs.prepare_database args || continue_in continue_at [None])
     && NominatimArgs.prepare_database args
  then (steps, Some 0%Z)
  else
    match (if continue_in continue_at [None; Some import_from_file]
           then _base_import files args else Some []) with
    | None => (steps, None)
    | Some imported =>
        let steps := steps ++ imported in
        let steps :=
          if continue_in continue_at [Some import_from_file; Some load_data; None]
          then steps ++ [truncate_data_tables; load_data_into_placex] else steps in
        let steps := steps ++ [_get_tokenizer continue_at] in
        let steps :=
          if continue_in continue_at [Some import_from_file; Some load_data; None]
          then steps ++ [update_postcodes] else steps in
        let steps :=
          if continue_in continue_at
               [Some import_from_file; Some load_data; Some indexing; None]
          then steps ++ [index_full] else steps in
        let steps := steps ++ [create_search_indices; create_country_names] in
        let steps :=
          if NominatimArgs.no_updates args then steps ++ [drop_update_tables]
          else steps in
        let steps := steps ++ [finalize_import; update_statistics] in
        (steps ++ _finalize_database, Some 0%Z)
    end.

(** [SetupAll.run]. *)
Definition run (files : list string) (args : NominatimArgs.t)
  : list Step * option Z :=
  let osm_file := NominatimArgs.osm_file args in
  let continue_at := NominatimArgs.continue_at args in
  if is_none osm_file && is_none continue_at
     && negb (NominatimArgs.prepare_database args)
  then ([], None)
  else if negb (is_none osm_file)
          && negb (continue_in continue_at [Some import_from_file; None])
  then ([], None)
  else if negb (is_none continue_at)
          && NominatimArgs.prepare_database args
  then ([], None)
  else async_run files args.

(** ** Terms the statements use, and concrete inputs *)

(** The characters of a house number that are neither a space nor a
    digit. *)
Definition other_chars (s : string) : nat :=
  length (List.filter (fun c => negb (c =? 32)%N && negb (char_isdigit c))
                      (chars s)).

(** A row whose counts are zero and negative. *)
Definition row_zero_counts : SaRow.t :=
  SaRow.mk 7 "12" "H" (Some "12")
    (Some (<["count" := JInt 0]> (<["addr_count" := JInt (-5)]> ∅))).

(** A house-number row with letters only, and one with a digit. *)
Definition row_letters : SaRow.t := SaRow.mk 8 "a b" "H" (Some "a b") None.
Definition row_mixed : SaRow.t := SaRow.mk 9 "12 a" "H" (Some "12 a") None.

(** A house-number row with a letter that takes two bytes in UTF-8, and
    one with an Arabic-Indic digit. *)
Definition row_accent : SaRow.t := SaRow.mk 10 "12 é" "H" (Some "12 é") None.
Definition row_arabic : SaRow.t := SaRow.mk 11 "١a" "H" (Some "١a") None.

(** The sequences <address>,<postcode> and <postcode>,<address> over a
    query of two slots. *)
Definition seq_address_postcode : TokenSequence.t :=
  TokenSequence.mk
    [TypedRange.mk TOKEN_PARTIAL (mkTokenRange 0 1);
     TypedRange.mk TOKEN_POSTCODE (mkTokenRange 1 2)] 0 0.

(** A query of two slots that holds no tokens. *)
Definition query_two_slots : QueryStruct.t :=
  QueryStruct.mk [] (replicate 3 (QueryNode.mk BREAK_WORD PHRASE_ANY 0.1 [] None)) 0.

Definition seq_postcode_address : TokenSequence.t :=
  TokenSequence.mk
    [TypedRange.mk TOKEN_POSTCODE (mkTokenRange 0 1);
     TypedRange.mk TOKEN_PARTIAL (mkTokenRange 1 2)] 0 0.




(** The rank window of the near search, as the specification gives it,
    for the address rank [rank0] of the best result. *)
Definition in_rank_window (rank0 rank : Z) : Prop :=
  (rank0 = 0 /\ rank = 0)%Z
  \/ (rank0 <> 0 /\ rank0 < 26 /\ 1 <= rank <= Z.min 25 (rank0 + 4))%Z
  \/ (26 <= rank0 /\ 26 <= rank <= 30)%Z.

(** Results of an inner search: a street, a far worse match, a large
    area, a house and a postcode. *)
Definition result_street : SearchResult.t :=
  SearchResult.mk PLACEX (Double.of_Q 0.3) 26 26 (Some (Bbox.mk 0.01)) (Some 101%Z).
Definition result_worse : SearchResult.t :=
  SearchResult.mk PLACEX (Double.of_Q 0.9) 26 26 (Some (Bbox.mk 0.01)) (Some 102%Z).
Definition result_large : SearchResult.t :=
  SearchResult.mk PLACEX (Double.of_Q 0.4) 26 27 (Some (Bbox.mk 25)) (Some 103%Z).
Definition result_house : SearchResult.t :=
  SearchResult.mk PLACEX (Double.of_Q 0.3) 30 30 (Some (Bbox.mk 0.0001)) (Some 104%Z).
Definition result_postcode : SearchResult.t :=
  SearchResult.mk POSTCODE (Double.of_Q 0.3) 27 25 None None.
Definition inner_results : list SearchResult.t :=
  [result_worse; result_house; result_postcode; result_large; result_street].


(** The lookup string and the penalty of the window [[i, j)] of the
    terms: the tokens joined by spaces, and the penalty of a word break
    plus the break penalties of the terms [i .. j - 2]. *)
Definition window_word (terms : list QueryPart.t) (i j : nat) : string :=
  join_space (map QueryPart.token (slice terms i j)).

Definition window_penalty (terms : list QueryPart.t) (i j : nat) : Q :=
  fold_left (fun p k =>
               match terms !! k with
               | Some t => (p + QueryPart.penalty t)%Q
               | None => p
               end)
            (range i (j - 1)) (PENALTY_IN_TOKEN_BREAK BREAK_WORD).

(** The range [r] is listed under [key] in the dictionary. *)
Definition entry (words : gmap string (list TokenRange.t)) (key : string)
    (r : TokenRange.t) : Prop :=
  r ∈ default [] (words !! key).

(** Twenty terms. *)
Definition twenty_terms : list QueryPart.t :=
  replicate 20 (QueryPart.mk "a" "a" 0.1).

(** Whether round [i] of [add_extra_tokens] adds a token for [part] at
    the node. *)
Definition extra_token_due (phrase_admits : PhraseType -> TokenType -> bool)
    (part : QueryPart.t) (node : QueryNode.t) (i : nat) : bool :=
  (len (QueryPart.token part) <=? 4)
  && isdigit (QueryPart.token part)
  && negb (has_tokens node (i + 1) [TOKEN_HOUSENUMBER])
  && phrase_admits (QueryNode.ptype node) TOKEN_HOUSENUMBER.

(** The node [i] after [add_extra_tokens], when the loop runs over the
    indexes below [bound]. *)
Definition extra_node (phrase_admits : PhraseType -> TokenType -> bool)
    (parts : list QueryPart.t) (bound i : nat) (node : QueryNode.t) : QueryNode.t :=
  match parts !! i with
  | Some part =>
      if (i <? bound) && extra_token_due phrase_admits part node i
      then set_starting
             (QueryNode.starting node
                ++ [TokenList.mk (i + 1) TOKEN_HOUSENUMBER [extra_token part]])
             node
      else node
  | None => node
  end.

(** Phrase types that admit every token type, and phrase types of which
    POSTCODE admits postcode tokens only. *)
Definition admits_all (_ : PhraseType) (_ : TokenType) : bool := true.
Definition admits_postcode_only (ptype : PhraseType) (ttype : TokenType) : bool :=
  match ptype with
  | PHRASE_POSTCODE => ttype_eqb ttype TOKEN_POSTCODE
  | _ => true
  end.

(** A query of 1001 terms [7] that holds no tokens, and a query that is
    the postcode phrase [7]. *)
Definition many_parts : list QueryPart.t := replicate 1001 (QueryPart.mk "7" "7" 0.1).
Definition many_query : QueryStruct.t :=
  QueryStruct.mk [Phrase.mk PHRASE_ANY ""]
    (replicate 1002 (QueryNode.mk BREAK_WORD PHRASE_ANY 0.1 [] None)) 0.
Definition postcode_phrase_query : QueryStruct.t :=
  QueryStruct.mk [Phrase.mk PHRASE_POSTCODE "7"]
    [QueryNode.mk BREAK_START PHRASE_POSTCODE 0.5 [] None;
     QueryNode.mk BREAK_END PHRASE_POSTCODE 0.5 [] None] 0.

(** What the rerank phase leaves as it is: the end, the type and the
    lookup words of every token list. *)
Definition tlist_shape (tlist : TokenList.t) : nat * TokenType * list string :=
  (TokenList.end_ tlist, TokenList.ttype tlist,
   map ICUToken.lookup_word (TokenList.tokens tlist)).

Definition node_shape (node : QueryNode.t) : list (nat * TokenType * list string) :=
  map tlist_shape (QueryNode.starting node).

Definition query_shape (query : QueryStruct.t)
  : list (list (nat * TokenType * list string)) :=
  map node_shape (QueryStruct.nodes query).

(** Whether the list [repl] is penalized for a POSTCODE list that ends
    at [tlist_end] and whose first token has the lookup word
    [lookup_word]: it ends at the same slot, is not a POSTCODE list, and
    if it is a HOUSENUMBER list the lookup word of the postcode has more
    than four characters. *)
Definition postcode_penalized (lookup_word : string) (tlist_end : nat)
    (repl : TokenList.t) : bool :=
  (TokenList.end_ repl =? tlist_end)
  && negb (ttype_eqb (TokenList.ttype repl) TOKEN_POSTCODE)
  && (negb (ttype_eqb (TokenList.ttype repl) TOKEN_HOUSENUMBER)
      || (4 <? len lookup_word)).

(** The opcodes of [difflib] for two equal strings: one block, equal. *)
Definition opcodes_of_equal (a b : string) : list Opcode.t :=
  [Opcode.mk op_equal 0 (Z.of_nat (len a)) 0 (Z.of_nat (len b))].

(** A query of one term that has a postcode token and a house-number
    token, both with the lookup word [word]; the house number comes with
    penalty 0.2. *)
Definition postcode_housenumber_query (word : string) : QueryStruct.t :=
  QueryStruct.mk [Phrase.mk PHRASE_ANY word]
    [QueryNode.mk BREAK_START PHRASE_ANY 0.5
       [TokenList.mk 1 TOKEN_POSTCODE [ICUToken.mk 0.1 11 1 1 word word None];
        TokenList.mk 1 TOKEN_HOUSENUMBER [ICUToken.mk 0.2 12 1 1 word word None]]
       None;
     QueryNode.mk BREAK_END PHRASE_ANY 0.5 [] None] 0.

(** The penalties of the tokens of the [k]-th list at node [i]. *)
Definition token_penalties (query : QueryStruct.t) (i k : nat) : list Q :=
  match node_at query i with
  | Some node =>
      match QueryNode.starting node !! k with
      | Some tlist => map ICUToken.penalty (TokenList.tokens tlist)
      | None => []
      end
  | None => []
  end.

(** *** Invariants of the enumerator *)

(** The ranges follow one another from slot [p] on, none of them
    empty. *)
Fixpoint tiles (p : nat) (l : list TokenRange.t) : Prop :=
  match l with
  | [] => True
  | r :: l => TokenRange.start r = p /\ p < TokenRange.end_ r
              /\ tiles (TokenRange.end_ r) l
  end.

(** Where the ranges that follow one another from [p] on end. *)
Definition chain_end (p : nat) (l : list TokenRange.t) : nat :=
  match last l with
  | Some r => TokenRange.end_ r
  | None => p
  end.

(** The types that may occur once in a sequence. *)
Definition single_types : list TokenType :=
  [TOKEN_HOUSENUMBER; TOKEN_POSTCODE; TOKEN_COUNTRY; TOKEN_NEAR_ITEM; TOKEN_QUALIFIER].

(** No range of the sequence is of type WORD, and each of the single
    types occurs at most once. *)
Definition types_ok (s : list TypedRange.t) : Prop :=
  count_type TOKEN_WORD s = 0
  /\ forall ttype, ttype ∈ single_types -> count_type ttype s <= 1.

(** The ranges of the sequence tile the slots from 0 on. *)
Definition seq_ok (s : list TypedRange.t) : Prop :=
  tiles 0 (map TypedRange.trange s) /\ types_ok s.

(** The ranges of a type in a sequence. *)
Definition ranges_of_type (ttype : TokenType) (s : list TypedRange.t)
  : list TokenRange.t :=
  map TypedRange.trange
      (List.filter (fun r => ttype_eqb (TypedRange.ttype r) ttype) s).

(** The role a single type fills in an assignment. *)
Definition role (ttype : TokenType) (a : TokenAssignment.t) : option TokenRange.t :=
  match ttype with
  | TOKEN_HOUSENUMBER => TokenAssignment.housenumber a
  | TOKEN_POSTCODE => TokenAssignment.postcode a
  | TOKEN_COUNTRY => TokenAssignment.country a
  | TOKEN_NEAR_ITEM => TokenAssignment.near_item a
  | TOKEN_QUALIFIER => TokenAssignment.qualifier a
  | _ => None
  end.

(** How an assignment that is yielded differs from the base assignment
    of its sequence: not at all, or by taking the first or the last
    address range, or a part of it at its outer end, as the name. *)
Inductive name_choice (base a : TokenAssignment.t) : Prop :=
| choice_none :
    TokenAssignment.name a = TokenAssignment.name base ->
    TokenAssignment.address a = TokenAssignment.address base ->
    name_choice base a
| choice_first first rest :
    TokenAssignment.address base = first :: rest ->
    TokenAssignment.name a = Some first ->
    TokenAssignment.address a = rest ->
    name_choice base a
| choice_first_split first rest i :
    TokenAssignment.address base = first :: rest ->
    TokenRange.start first < i < TokenRange.end_ first ->
    TokenAssignment.name a = Some (mkTokenRange (TokenRange.start first) i) ->
    TokenAssignment.address a = mkTokenRange i (TokenRange.end_ first) :: rest ->
    name_choice base a
| choice_last init last :
    TokenAssignment.address base = init ++ [last] ->
    TokenAssignment.name a = Some last ->
    TokenAssignment.address a = init ->
    name_choice base a
| choice_last_split init last i :
    TokenAssignment.address base = init ++ [last] ->
    TokenRange.start last < i < TokenRange.end_ last ->
    TokenAssignment.name a = Some (mkTokenRange i (TokenRange.end_ last)) ->
    TokenAssignment.address a = init ++ [mkTokenRange (TokenRange.start last) i] ->
    name_choice base a.

Definition variant (base a : TokenAssignment.t) : Prop :=
  name_choice base a
  /\ forall ttype, ttype ∈ single_types -> role ttype a = role ttype base.

(** A range that is not empty and lies within the [n] slots. *)
Definition range_ok (n : nat) (r : TokenRange.t) : Prop :=
  TokenRange.start r < TokenRange.end_ r <= n.

(** The assignment comes from a sequence over the whole query that
    satisfies the invariant [Inv]. *)
Definition from_complete (query : QueryStruct.t) (Inv : list TypedRange.t -> Prop)
    (a : TokenAssignment.t) : Prop :=
  exists s, Inv (TokenSequence.seq s)
            /\ end_pos s = num_token_slots query
            /\ a ∈ Gen.yields (get_assignments s query).

(** Every sequence of the work list satisfies the invariant. *)
Definition todo_ok (Inv : list TypedRange.t -> Prop) (todo : list TokenSequence.t)
  : Prop :=
  Forall (fun s => Inv (TokenSequence.seq s)) todo.

(** A query of two terms: a house number or a word, then a word. *)
Definition word_token_example : ICUToken.t := ICUToken.mk 0.3 5 1 1 "w" "w" None.

Definition street_query : QueryStruct.t :=
  QueryStruct.mk [Phrase.mk PHRASE_ANY "12 main"]
    [QueryNode.mk BREAK_START PHRASE_ANY 0.5
       [TokenList.mk 1 TOKEN_HOUSENUMBER [ICUToken.mk 0.1 12 1 1 "12" "12" None]]
       (Some word_token_example);
     QueryNode.mk BREAK_WORD PHRASE_ANY 0.1 [] (Some word_token_example);
     QueryNode.mk BREAK_END PHRASE_ANY 0.5 [] None] 0.

(** A query of sixty terms that are partial words only. *)
Definition sixty_partials_query : QueryStruct.t :=
  QueryStruct.mk [Phrase.mk PHRASE_ANY ""]
    (replicate 60 (QueryNode.mk BREAK_WORD PHRASE_ANY 0.1 [] (Some word_token_example))
     ++ [QueryNode.mk BREAK_END PHRASE_ANY 0.5 [] None]) 0.

(** The sequence that is one PARTIAL range over sixty slots. *)
Definition sixty_partials_seq : TokenSequence.t :=
  TokenSequence.mk [TypedRange.mk TOKEN_PARTIAL (mkTokenRange 0 60)] 0 0.

(** *** Termination measure of the enumerator *)

(** An upper bound on the sequences one round of the loop pushes: the
    token lists at a node, and the partial token. *)
Definition branching (query : QueryStruct.t) : nat :=
  S (list_max (map (fun node => length (QueryNode.starting node))
                   (QueryStruct.nodes query))).

(** The rounds the loop needs at most for a sequence that is [d] slots
    short of the end of the query. *)
Fixpoint weight (b d : nat) : nat :=
  match d with
  | 0 => 1
  | S d => 1 + b * weight b d
  end.

Definition potential (query : QueryStruct.t) (todo : list TokenSequence.t) : nat :=
  list_sum (map (fun s => weight (branching query)
                            (num_token_slots query - end_pos s)) todo).

(** A sequence on the work list: it tiles the slots up to its end, which
    lies behind [p] and before the end of the query. *)
Definition pending_ok (query : QueryStruct.t) (p : nat) (s : TokenSequence.t) : Prop :=
  seq_ok (TokenSequence.seq s) /\ p <= end_pos s < num_token_slots query.

(** ** Further terms of the statements

    *** States of the enumerator *)

(** The assignment comes from a sequence over the whole query, as it is
    after [recheck_sequence], that satisfies [Done]. *)
Definition from_done (query : QueryStruct.t) (Done : TokenSequence.t -> Prop)
    (a : TokenAssignment.t) : Prop :=
  exists s, Done s
            /\ end_pos s = num_token_slots query
            /\ a ∈ Gen.yields (get_assignments s query).

(** The types that end a sequence of more than one range. *)
Definition boundary_type (ttype : TokenType) : bool :=
  ttype_in ttype [TOKEN_COUNTRY; TOKEN_NEAR_ITEM].

(** The ranges of a sequence but the first and the last. *)
Definition interior (s : list TypedRange.t) : list TypedRange.t :=
  drop 1 (removelast s).

(** No range between the first and the last is a country or a near
    item. *)
Definition interior_ok (s : list TypedRange.t) : Prop :=
  Forall (fun r => boundary_type (TypedRange.ttype r) = false) (interior s).

(** No break of the query has a negative penalty. *)
Definition penalties_nonneg (query : QueryStruct.t) : Prop :=
  forall i node, node_at query i = Some node ->
                 (0 <= QueryNode.word_break_penalty node)%Q.

(** The range [r] lies within the range [p]. *)
Definition within (r p : TokenRange.t) : Prop :=
  TokenRange.start p <= TokenRange.start r /\ TokenRange.end_ r <= TokenRange.end_ p.

(** A sequence with two postcode ranges and a word. *)
Definition seq_two_postcodes : list TypedRange.t :=
  [TypedRange.mk TOKEN_POSTCODE (mkTokenRange 0 1);
   TypedRange.mk TOKEN_WORD (mkTokenRange 1 2);
   TypedRange.mk TOKEN_PARTIAL (mkTokenRange 2 3);
   TypedRange.mk TOKEN_POSTCODE (mkTokenRange 3 4)].

(** A query of three terms: a word, a country or a word, and a word. *)
Definition country_query : QueryStruct.t :=
  QueryStruct.mk [Phrase.mk PHRASE_ANY "a de b"]
    [QueryNode.mk BREAK_START PHRASE_ANY 0.5 [] (Some word_token_example);
     QueryNode.mk BREAK_WORD PHRASE_ANY 0.1
       [TokenList.mk 2 TOKEN_COUNTRY [ICUToken.mk 0.0 3 1 1 "de" "de" None]]
       (Some word_token_example);
     QueryNode.mk BREAK_WORD PHRASE_ANY 0.1
       [TokenList.mk 3 TOKEN_COUNTRY [ICUToken.mk 0.0 4 1 1 "b" "b" None]]
       (Some word_token_example);
     QueryNode.mk BREAK_END PHRASE_ANY 0.5 [] None] 0.

(** A house number behind three words, read from the left. *)
Definition seq_late_housenumber : TokenSequence.t :=
  TokenSequence.mk
    [TypedRange.mk TOKEN_PARTIAL (mkTokenRange 0 1);
     TypedRange.mk TOKEN_QUALIFIER (mkTokenRange 1 2);
     TypedRange.mk TOKEN_PARTIAL (mkTokenRange 2 3);
     TypedRange.mk TOKEN_POSTCODE (mkTokenRange 3 4);
     TypedRange.mk TOKEN_PARTIAL (mkTokenRange 4 5);
     TypedRange.mk TOKEN_HOUSENUMBER (mkTokenRange 5 6)] 1 0.

(** *** Token graphs *)

(** What a node is apart from the token lists that start at it. *)
Definition node_frame (node : QueryNode.t)
  : BreakType * PhraseType * Q * option ICUToken.t :=
  (QueryNode.btype node, QueryNode.ptype node,
   QueryNode.word_break_penalty node, QueryNode.partial node).

(** Every token list of the query holds a token. *)
Definition lists_nonempty (query : QueryStruct.t) : Prop :=
  forall i node tlist,
    node_at query i = Some node -> tlist ∈ QueryNode.starting node ->
    TokenList.tokens tlist <> [].

(** The opcodes of [difflib] for two strings without a common
    character: one block, replace. *)
Definition opcodes_of_distinct (a b : string) : list Opcode.t :=
  [Opcode.mk op_replace 0 (Z.of_nat (len a)) 0 (Z.of_nat (len b))].

(** *** The rows of the lookup *)

(** Reading the row for the range raises nothing. *)
Definition row_reads (slots : nat) (row : SaRow.t) (trange : TokenRange.t) : bool :=
  match from_db_row row (default 0%Q (TokenRange.penalty trange)),
        row_token_type slots row trange with
  | Some _, Some _ => true
  | _, _ => false
  end.

(** Every range listed under the word token of one of the rows lies
    inside the query and the row reads for it. *)
Definition rows_ok (slots : nat) (words : gmap string (list TokenRange.t))
    (rows : list SaRow.t) : bool :=
  forallb (fun row =>
             forallb (fun trange =>
                        (TokenRange.start trange <? TokenRange.end_ trange)
                        && (TokenRange.end_ trange <=? slots)
                        && row_reads slots row trange)
                     (default [] (words !! SaRow.word_token row)))
          rows.

(** A well-formed query of [slots] slots whose token lists hold
    tokens. *)
Definition graph_ok (slots : nat) (query : QueryStruct.t) : Prop :=
  wf_query query = true /\ num_token_slots query = slots /\ lists_nonempty query.

(** Two terms, the windows over them, and rows for them: a house
    number, a partial word and a special term with the operator
    [near]. *)
Definition two_parts : list QueryPart.t :=
  [QueryPart.mk "12" "12" 0.1; QueryPart.mk "main" "main" 0.5].
Definition two_words : gmap string (list TokenRange.t) :=
  default ∅ (extract_words two_parts 0 ∅).
Definition two_rows : list SaRow.t :=
  [SaRow.mk 1 "12" "H" (Some "12") None;
   SaRow.mk 2 "main" "w" (Some "main") None;
   SaRow.mk 3 "main" "S" (Some "main") (Some (<["op" := JStr "near"]> ∅))].

(** *** Layers *)

(** Every layer of [layers] is one of [layers']. *)
Definition layers_le (layers layers' : DataLayer.t) : bool :=
  implb (DataLayer.ADDRESS layers) (DataLayer.ADDRESS layers')
  && implb (DataLayer.POI layers) (DataLayer.POI layers')
  && implb (DataLayer.RAILWAY layers) (DataLayer.RAILWAY layers')
  && implb (DataLayer.NATURAL layers) (DataLayer.NATURAL layers')
  && implb (DataLayer.MANMADE layers) (DataLayer.MANMADE layers').

(** The two ways for a row to pass the layer filter: by its address
    rank, and as an object without address rank by its class. *)
Definition passes_by_rank (layers : DataLayer.t) (row : PlacexRow.t) : bool :=
  if DataLayer.ADDRESS layers && DataLayer.POI layers then
    (1 <=? PlacexRow.rank_address row)%Z && (PlacexRow.rank_address row <=? 30)%Z
  else if DataLayer.ADDRESS layers then
    (1 <=? PlacexRow.rank_address row)%Z && (PlacexRow.rank_address row <=? 29)%Z
    || PlacexRow.is_address_point row
  else if DataLayer.POI layers then
    (PlacexRow.rank_address row =? 30)%Z
    && negb (string_in (PlacexRow.class_ row) ["place"; "building"])
  else false.

Definition passes_by_class (layers : DataLayer.t) (row : PlacexRow.t) : bool :=
  (PlacexRow.rank_address row =? 0)%Z
  && (if DataLayer.MANMADE layers then
        negb (string_in (PlacexRow.class_ row)
                ((if negb (DataLayer.RAILWAY layers) then ["railway"] else [])
                 ++ (if negb (DataLayer.NATURAL layers)
                     then ["natural"; "water"; "waterway"] else [])))
      else
        string_in (PlacexRow.class_ row)
          ((if DataLayer.RAILWAY layers then ["railway"] else [])
           ++ (if DataLayer.NATURAL layers
               then ["natural"; "water"; "waterway"] else []))).

(** *** A street and the houses below it *)

(** [nr] is one of the parts of [s] between its semicolons: it holds
    no semicolon, and stands in [s] between the start or a semicolon and
    a semicolon or the end. *)
Definition no_semicolon (s : string) : Prop :=
  forall before after, s <> before +:+ ";" +:+ after.

Definition semicolon_part (nr s : string) : Prop :=
  no_semicolon nr
  /\ exists before after,
       s = before +:+ nr +:+ after
       /\ (before = EmptyString \/ exists b, before = b +:+ ";")
       /\ (after = EmptyString \/ exists a, after = ";" +:+ a).

(** One of the house numbers of the result is among those searched
    for. *)
Definition housenumber_found (housenumbers : list string) (housenumber : string)
  : Prop :=
  exists nr, nr ∈ housenumbers /\ semicolon_part nr housenumber.

(** A house-number result [found] is passed on as [sub]: with the
    accuracy of the row, or with 0.6 more when none of its house numbers
    is searched for, and otherwise as it is. *)
Definition passed_on (housenumbers : list string) (accuracy : Double.t)
    (found sub : PlaceResult.t) : Prop :=
  sub = set_accuracy (PlaceResult.accuracy sub) found
  /\ exists housenumber,
       PlaceResult.housenumber found = Some housenumber
       /\ housenumber <> EmptyString
       /\ (housenumber_found housenumbers housenumber ->
           PlaceResult.accuracy sub = accuracy)
       /\ (~ housenumber_found housenumbers housenumber ->
           PlaceResult.accuracy sub = fadd accuracy (Double.of_Q 0.6)).

(** A street found for the house number 12, the houses [8], [9] and
    [10] below it, of which the first has that number and the last has it
    among others, and the results of the loop for the street. *)
Definition street_row : PlaceRow.t :=
  PlaceRow.mk (Some 7%Z) 70 ("highway", "residential") 26 (Double.of_Q 0.3) None
    (Some [8%Z; 9%Z; 10%Z]) None None.
Definition house_below (id : Z) : PlaceResult.t :=
  PlaceResult.mk (Some id) ("place", "house") 30 (Double.of_Q 0)
    (Some (if (id =? 8)%Z then "12" else if (id =? 9)%Z then "14;16" else "10;12")).
Definition houses_below (ids : list Z) : list PlaceResult.t := map house_below ids.
Definition street_row_results : list PlaceResult.t :=
  [set_accuracy (Double.of_Q 0.3) (house_below 8);
   set_accuracy (fadd (Double.of_Q 0.3) (Double.of_Q 0.6)) (house_below 9);
   set_accuracy (Double.of_Q 0.3) (house_below 10);
   set_accuracy (fadd (Double.of_Q 0.3) (Double.of_Q 1.0))
                (create_from_placex_row street_row)].

(** *** The steps of an import *)

(** The steps of a run but for the set-up of the tokenizer. *)
Definition without_tokenizer (steps : list Step) : list Step :=
  List.filter (fun step =>
                 match step with
                 | create_tokenizer | get_tokenizer_for_db => false
                 | _ => true
                 end) steps.

Definition step_eqb (a b : Step) : bool :=
  match a, b with
  | setup_country_config, setup_country_config
  | setup_database_skeleton, setup_database_skeleton
  | check_existing_database_plugins, check_existing_database_plugins
  | setup_country_tables, setup_country_tables
  | import_osm_data, import_osm_data
  | import_wikipedia_articles, import_wikipedia_articles
  | import_secondary_importance, import_secondary_importance
  | create_functions, create_functions
  | create_tables, create_tables
  | load_address_levels_from_config, load_address_levels_from_config
  | create_table_triggers, create_table_triggers
  | create_partition_tables, create_partition_tables
  | truncate_data_tables, truncate_data_tables
  | load_data_into_placex, load_data_into_placex
  | create_tokenizer, create_tokenizer
  | get_tokenizer_for_db, get_tokenizer_for_db
  | update_postcodes, update_postcodes
  | index_full, index_full
  | create_search_indices, create_search_indices
  | create_country_names, create_country_names
  | drop_update_tables, drop_update_tables
  | finalize_import, finalize_import
  | update_statistics, update_statistics
  | set_database_version, set_database_version
  | compute_database_date, compute_database_date
  | set_status, set_status => true
  | _, _ => false
  end.

(** Whether the run takes the step. *)
Definition takes (step : Step) (steps : list Step) : bool :=
  existsb (step_eqb step) steps.

(** * Properties *)

(** ** Strings *)

Lemma decode_cur_nonempty (bytes : list ascii) :
  forall c, decode (Some c) bytes <> [].
Proof.
  induction bytes as [|a bytes IH]; intros c; cbn [decode].
  - discriminate.
  - destruct (is_continuation (N_of_ascii a)); [apply IH|]. discriminate.
Qed.

(** Only the empty string has no character. *)
Lemma len_zero (s : string) : len s = 0 <-> s = EmptyString.
Proof.
  unfold len, chars. destruct s as [|a s]; [split; reflexivity|].
  split; [|discriminate]. cbn [list_ascii_of_string decode].
  destruct (is_continuation (N_of_ascii a)); cbn [option_list app];
    intros H; apply length_zero_iff_nil in H;
    exfalso; exact (decode_cur_nonempty _ _ H).
Qed.

Lemma len_eqb_zero (s : string) : (len s =? 0) = (String.length s =? 0).
Proof.
  destruct (Nat.eqb_spec (len s) 0) as [H|H].
  - apply len_zero in H. subst. reflexivity.
  - destruct s; [exfalso; apply H; reflexivity|reflexivity].
Qed.

(** ** Floats *)

Section FloatLemmas.
Local Open Scope Q_scope.

Lemma two_neq_0 : ~ 2 == 0.
Proof. discriminate. Qed.

Lemma pow2_pos (k : Z) : 0 < 2 ^ k.
Proof. apply Qpower_0_lt. reflexivity. Qed.

Lemma pow2_add (a b : Z) : 2 ^ (a + b) == 2 ^ a * 2 ^ b.
Proof. apply Qpower_plus, two_neq_0. Qed.

Lemma pow2_le (a b : Z) : (a <= b)%Z -> 2 ^ a <= 2 ^ b.
Proof. intros H. apply Qpower_le_compat_l; [exact H|discriminate]. Qed.

Lemma pow2_Z (k : Z) : (0 <= k)%Z -> inject_Z (2 ^ k) == 2 ^ k.
Proof. intros H. rewrite Zpower_Qpower by exact H. reflexivity. Qed.

Lemma round_half_even_bounds (z : Q) :
  (Qfloor z <= round_half_even z <= Qfloor z + 1)%Z.
Proof.
  unfold round_half_even. destruct (Qcompare _ _); [destruct (Z.even _)| |]; lia.
Qed.

Lemma round_half_even_ge (K : Z) (z : Q) :
  inject_Z K <= z -> (K <= round_half_even z)%Z.
Proof.
  intros H. apply Qfloor_resp_le in H. rewrite Qfloor_Z in H.
  pose proof (round_half_even_bounds z). lia.
Qed.

Lemma round_half_even_le (K : Z) (z : Q) :
  z <= inject_Z K -> (round_half_even z <= K)%Z.
Proof.
  intros H. unfold round_half_even.
  pose proof (Qfloor_le z) as Hf.
  assert (Qfloor z <= K)%Z as HfK.
  { apply Qfloor_resp_le in H. rewrite Qfloor_Z in H. exact H. }
  assert (inject_Z (Qfloor z) < z -> (Qfloor z + 1 <= K)%Z) as Hnext.
  { intros Hlt. assert (inject_Z (Qfloor z) < inject_Z K) as HK by lra.
    rewrite <- Zlt_Qlt in HK. lia. }
  destruct (Qcompare _ _) eqn:Hc.
  - apply (proj2 (Qeq_alt _ _)) in Hc. destruct (Z.even _); [exact HfK|].
    apply Hnext. lra.
  - exact HfK.
  - apply (proj2 (Qgt_alt _ _)) in Hc. apply Hnext. lra.
Qed.

Lemma Q_as_fraction (a : Q) : a == inject_Z (Qnum a) / inject_Z (Z.pos (Qden a)).
Proof. destruct a as [n d]. unfold Qeq, Qdiv, Qmult, Qinv, inject_Z. simpl. lia. Qed.

Section FloorLog2.
Variable a : Q.
Hypothesis a_pos : 0 < a.

Let n := Qnum a.
Let d := Z.pos (Qden a).

Lemma num_pos : (0 < n)%Z.
Proof. unfold n. destruct a as [nn dd]. unfold Qlt in a_pos. simpl in *. lia. Qed.

Lemma floor_log2_cand_lt : a < 2 ^ (Z.log2 n - Z.log2 d + 1).
Proof.
  pose proof num_pos as Hn.
  pose proof (Z.log2_spec n Hn) as [_ Hn2].
  pose proof (Z.log2_spec d ltac:(unfold d; lia)) as [Hd1 _].
  pose proof (Z.log2_nonneg n). pose proof (Z.log2_nonneg d).
  replace (Z.log2 n - Z.log2 d + 1)%Z with (Z.succ (Z.log2 n) + - Z.log2 d)%Z by lia.
  rewrite pow2_add, Qpower_opp, <- !pow2_Z by lia.
  rewrite (Q_as_fraction a). fold n d.
  assert (0 < inject_Z d) by (change 0 with (inject_Z 0); rewrite <- Zlt_Qlt; unfold d; lia).
  assert (0 < inject_Z (2 ^ Z.log2 d))
    by (change 0 with (inject_Z 0); rewrite <- Zlt_Qlt; apply Z.pow_pos_nonneg; lia).
  apply Qlt_shift_div_r; [assumption|].
  unfold Qdiv. rewrite <- Qmult_assoc. rewrite (Qmult_comm (/ _)).
  change (inject_Z (2 ^ Z.succ (Z.log2 n)) * (inject_Z d / inject_Z (2 ^ Z.log2 d)))
    with (inject_Z (2 ^ Z.succ (Z.log2 n)) * (inject_Z d / inject_Z (2 ^ Z.log2 d))).
  assert (1 <= inject_Z d / inject_Z (2 ^ Z.log2 d)).
  { apply Qle_shift_div_l; [assumption|]. rewrite Qmult_1_l. rewrite <- Zle_Qle. lia. }
  assert (inject_Z n < inject_Z (2 ^ Z.succ (Z.log2 n))) by (rewrite <- Zlt_Qlt; lia).
  assert (0 < inject_Z n) by (change 0 with (inject_Z 0); rewrite <- Zlt_Qlt; lia).
  unfold Qdiv in *. nra.
Qed.

Lemma floor_log2_cand_ge : 2 ^ (Z.log2 n - Z.log2 d - 1) <= a.
Proof.
  pose proof num_pos as Hn.
  pose proof (Z.log2_spec n Hn) as [Hn1 _].
  pose proof (Z.log2_spec d ltac:(unfold d; lia)) as [_ Hd2].
  pose proof (Z.log2_nonneg n). pose proof (Z.log2_nonneg d).
  replace (Z.log2 n - Z.log2 d - 1)%Z with (Z.log2 n + - Z.succ (Z.log2 d))%Z by lia.
  rewrite pow2_add, Qpower_opp, <- !pow2_Z by lia.
  rewrite (Q_as_fraction a). fold n d.
  assert (0 < inject_Z d) by (change 0 with (inject_Z 0); rewrite <- Zlt_Qlt; unfold d; lia).
  assert (0 < inject_Z (2 ^ Z.succ (Z.log2 d)))
    by (change 0 with (inject_Z 0); rewrite <- Zlt_Qlt; apply Z.pow_pos_nonneg; lia).
  apply Qle_shift_div_l; [assumption|].
  assert (inject_Z d / inject_Z (2 ^ Z.succ (Z.log2 d)) <= 1).
  { apply Qle_shift_div_r; [assumption|]. rewrite Qmult_1_l. rewrite <- Zle_Qle. lia. }
  assert (inject_Z (2 ^ Z.log2 n) <= inject_Z n) by (rewrite <- Zle_Qle; lia).
  assert (0 < inject_Z (2 ^ Z.log2 n))
    by (change 0 with (inject_Z 0); rewrite <- Zlt_Qlt; apply Z.pow_pos_nonneg; lia).
  unfold Qdiv in *. nra.
Qed.

Lemma floor_log2_le : 2 ^ floor_log2 a <= a.
Proof.
  unfold floor_log2. fold n d.
  destruct (Qle_bool _ _) eqn:Ht.
  - apply Qle_bool_iff, Ht.
  - apply floor_log2_cand_ge.
Qed.

Lemma floor_log2_lt : a < 2 ^ (floor_log2 a + 1).
Proof.
  unfold floor_log2. fold n d.
  destruct (Qle_bool _ _) eqn:Ht.
  - apply floor_log2_cand_lt.
  - replace (Z.log2 n - Z.log2 d - 1 + 1)%Z with (Z.log2 n - Z.log2 d)%Z by lia.
    apply Qnot_le_lt. intros Hle. apply Qle_bool_iff in Hle. congruence.
Qed.

End FloorLog2.

Lemma double_exponent_ge (a : Q) : (-1074 <= double_exponent a)%Z.
Proof. unfold double_exponent. lia. Qed.

Lemma round_half_even_mantissa (a : Q) :
  0 < a ->
  (0 <= round_half_even (a / 2 ^ double_exponent a) <= 2 ^ 53)%Z.
Proof.
  intros Ha. pose proof (pow2_pos (double_exponent a)) as HE. split.
  - apply round_half_even_ge. change (inject_Z 0) with 0.
    apply Qle_shift_div_l; [exact HE|]. lra.
  - apply round_half_even_le. rewrite pow2_Z by lia.
    apply Qle_shift_div_r; [exact HE|].
    rewrite <- pow2_add.
    apply Qlt_le_weak. eapply Qlt_le_trans; [apply floor_log2_lt, Ha|].
    apply pow2_le. unfold double_exponent. lia.
Qed.

(** A double, [m * 2^e], that is not above [y] is not above the double
    nearest to [y]. *)
Lemma round_double_ge (x : Q) (m e : Z) (y : Q) :
  x == inject_Z m * 2 ^ e ->
  (Z.abs m <= 2 ^ 53)%Z ->
  (-1074 <= e)%Z ->
  x <= y ->
  x <= round_double y.
Proof.
  intros Hx Hm He Hxy. unfold round_double.
  pose proof (pow2_pos e) as Hpe.
  destruct (Qcompare y 0) eqn:Hy.
  - apply (proj2 (Qeq_alt y 0)) in Hy. lra.
  - apply (proj2 (Qlt_alt y 0)) in Hy.
    assert (0 < - y) as Ha by lra.
    set (E := double_exponent (- y)). pose proof (pow2_pos E) as HpE.
    pose proof (round_half_even_mantissa (- y) Ha) as [Hr0 _]. fold E in Hr0.
    assert (- y <= inject_Z (- m) * 2 ^ e) as HX.
    { rewrite inject_Z_opp. lra. }
    destruct (Z_le_gt_dec E e) as [HEe|HEe].
    + assert (inject_Z (- m) * 2 ^ e == inject_Z (- m * 2 ^ (e - E)) * 2 ^ E) as Hgrid.
      { rewrite inject_Z_mult, pow2_Z by lia.
        rewrite <- Qmult_assoc, <- pow2_add.
        replace (e - E + E)%Z with e by lia. reflexivity. }
      assert (- y / 2 ^ E <= inject_Z (- m * 2 ^ (e - E))) as Hle.
      { apply Qle_shift_div_r; [exact HpE|]. rewrite <- Hgrid. exact HX. }
      apply round_half_even_le in Hle. rewrite Zle_Qle in Hle.
      rewrite inject_Z_opp in Hgrid.
      assert (x == - (inject_Z (- m * 2 ^ (e - E)) * 2 ^ E)) as Hx'.
      { rewrite <- Hgrid, Hx. ring. }
      rewrite Hx'. nra.
    + assert (E = (floor_log2 (- y) - 52)%Z) as HE
        by (unfold E, double_exponent in *; lia).
      assert (inject_Z (- m) <= 2 ^ 53) as Hmb.
      { rewrite <- pow2_Z by lia. rewrite <- Zle_Qle. lia. }
      assert (2 ^ 53 * 2 ^ e <= 2 ^ 52 * 2 ^ E) as Hpow.
      { rewrite <- !pow2_add. apply pow2_le. lia. }
      assert (- y / 2 ^ E <= inject_Z (2 ^ 52)) as Hle.
      { apply Qle_shift_div_r; [exact HpE|]. rewrite pow2_Z by lia. nra. }
      apply round_half_even_le in Hle. rewrite Zle_Qle in Hle.
      rewrite pow2_Z in Hle by lia.
      assert (2 ^ 52 * 2 ^ E <= - y) as Hlow.
      { rewrite <- pow2_add. eapply Qle_trans; [|apply floor_log2_le, Ha].
        apply pow2_le. lia. }
      rewrite inject_Z_opp in HX. nra.
  - apply (proj2 (Qgt_alt y 0)) in Hy.
    set (E := double_exponent y). pose proof (pow2_pos E) as HpE.
    pose proof (round_half_even_mantissa y Hy) as [Hr0 _]. fold E in Hr0.
    assert (0 <= inject_Z (round_half_even (y / 2 ^ E)))
      by (change 0 with (inject_Z 0); rewrite <- Zle_Qle; exact Hr0).
    destruct (Z_le_gt_dec m 0) as [Hm0|Hm0].
    { assert (inject_Z m <= 0) by (change 0 with (inject_Z 0); rewrite <- Zle_Qle; exact Hm0).
      rewrite Hx. nra. }
    destruct (Z_le_gt_dec E e) as [HEe|HEe].
    + (* the exponent of [y] is not above: [x] is on its grid *)
      assert (x == inject_Z (m * 2 ^ (e - E)) * 2 ^ E) as Hgrid.
      { rewrite Hx, inject_Z_mult, pow2_Z by lia.
        rewrite <- Qmult_assoc, <- pow2_add.
        replace (e - E + E)%Z with e by lia. reflexivity. }
      assert (inject_Z (m * 2 ^ (e - E)) <= y / 2 ^ E) as Hle.
      { apply Qle_shift_div_l; [exact HpE|]. rewrite <- Hgrid. exact Hxy. }
      apply round_half_even_ge in Hle. rewrite Zle_Qle in Hle.
      rewrite Hgrid. nra.
    + (* [y] lies in a higher binade than [x] can reach *)
      assert (E = (floor_log2 y - 52)%Z) as HE
        by (unfold E, double_exponent in *; lia).
      assert (inject_Z (2 ^ 52) <= y / 2 ^ E) as Hle.
      { apply Qle_shift_div_l; [exact HpE|].
        rewrite pow2_Z, <- pow2_add by lia.
        eapply Qle_trans; [|apply floor_log2_le, Hy].
        apply pow2_le. lia. }
      apply round_half_even_ge in Hle. rewrite Zle_Qle in Hle.
      rewrite pow2_Z in Hle by lia.
      assert (x <= 2 ^ 53 * 2 ^ e) as Hxb.
      { rewrite Hx. assert (inject_Z m <= 2 ^ 53).
        { rewrite <- pow2_Z by lia. rewrite <- Zle_Qle. lia. }
        nra. }
      assert (2 ^ 53 * 2 ^ e <= 2 ^ 52 * 2 ^ E) as Hpow.
      { rewrite <- !pow2_add. apply pow2_le. lia. }
      assert (0 < 2 ^ 52) by apply pow2_pos.
      nra.
Qed.

(** What rounding gives is a double: a mantissa of at most 53 bits at an
    exponent of at least -1074. *)
Lemma round_double_form (q : Q) :
  exists m e,
    round_double q == inject_Z m * 2 ^ e
    /\ (Z.abs m <= 2 ^ 53)%Z /\ (-1074 <= e)%Z.
Proof.
  unfold round_double. destruct (Qcompare q 0) eqn:Hq.
  - exists 0%Z, 0%Z. split; [reflexivity|]. split; lia.
  - apply (proj2 (Qlt_alt q 0)) in Hq.
    assert (0 < - q) as Ha by lra.
    pose proof (round_half_even_mantissa (- q) Ha) as Hm.
    exists (- round_half_even (- q / 2 ^ double_exponent (- q)))%Z,
      (double_exponent (- q)).
    split; [rewrite inject_Z_opp; ring|].
    split; [lia|apply double_exponent_ge].
  - apply (proj2 (Qgt_alt q 0)) in Hq.
    pose proof (round_half_even_mantissa q Hq) as Hm.
    exists (round_half_even (q / 2 ^ double_exponent q)), (double_exponent q).
    split; [reflexivity|]. split; [lia|apply double_exponent_ge].
Qed.

(** Adding to a double and rounding never gives less than the double. *)
Lemma round_double_add_ge (q p : Q) :
  0 <= p -> round_double q <= round_double (round_double q + p).
Proof.
  intros Hp. destruct (round_double_form q) as (m & e & Hx & Hm & He).
  apply (round_double_ge _ m e); try assumption. lra.
Qed.

End FloatLemmas.

Lemma fadd_ge (a b : Double.t) :
  (0 <= Double.value b)%Q -> (Double.value a <= Double.value (fadd a b))%Q.
Proof. intros H. apply round_double_add_ge. exact H. Qed.

(** ** Tokens from rows of the word table *)

Lemma max_1_ge count c : max_1 count = Some c -> (1 <= c)%Z.
Proof. destruct count; simpl; intros H; inversion H; lia. Qed.

(** C10: a token made from a row of the word table has [count >= 1] and
    [addr_count >= 1], whatever the [info] field of the row holds. *)
Theorem from_db_row_counts_positive (row : SaRow.t) (base_penalty : Q)
    (token : ICUToken.t) :
  from_db_row row base_penalty = Some token ->
  (1 <= ICUToken.count token)%Z /\ (1 <= ICUToken.addr_count token)%Z.
Proof.
  unfold from_db_row.
  destruct (row_lookup_word row) as [lw|]; [|discriminate].
  destruct (max_1 _) as [c|] eqn:Hc; [|discriminate].
  destruct (max_1 (match SaRow.info row with
                   | Some info => info_get info "addr_count" (JInt 1)
                   | None => JInt 1 end)) as [ac|] eqn:Hac; [|discriminate].
  intros H; inversion H; subst; simpl.
  split; eapply max_1_ge; eassumption.
Qed.

Lemma from_db_row_counts_positive_witness :
  exists token, from_db_row row_zero_counts 0.1 = Some token
    /\ (1 <= ICUToken.count token)%Z /\ (1 <= ICUToken.addr_count token)%Z.
Proof.
  eexists. split; [vm_compute; reflexivity|].
  apply (from_db_row_counts_positive row_zero_counts 0.1). vm_compute. reflexivity.
Defined.

(** X1: [from_db_row] raises nothing when the counts of the row, if
    present, are integers and the lookup word, if present, is a
    string. *)
Lemma from_db_row_total (row : SaRow.t) (base_penalty : Q) :
  (forall info key, SaRow.info row = Some info ->
     key ∈ ["count"; "addr_count"] ->
     info !! key = None \/ exists c, info !! key = Some (JInt c)) ->
  (forall info, SaRow.info row = Some info ->
     info !! "lookup" = None \/ exists s, info !! "lookup" = Some (JStr s)) ->
  exists token, from_db_row row base_penalty = Some token.
Proof.
  intros Hc Hl. unfold from_db_row, row_lookup_word, info_get.
  destruct (SaRow.info row) as [info|] eqn:Hinfo.
  - destruct (Hl info eq_refl) as [Hn|[s Hs]];
      [rewrite Hn|rewrite Hs]; simpl.
    all: destruct (Hc info "count" eq_refl ltac:(set_solver)) as [H1|[c1 H1]];
      rewrite H1; simpl.
    all: destruct (Hc info "addr_count" eq_refl ltac:(set_solver)) as [H2|[c2 H2]];
      rewrite H2; simpl.
    all: try (destruct (SaRow.word row) as [w|]; simpl;
              [destruct (String.length w =? 0)|]; simpl; eauto).
    all: destruct (String.length s =? 0); simpl; eauto.
  - simpl. destruct (SaRow.word row) as [w|]; simpl;
      [destruct (String.length w =? 0)|]; simpl; eauto.
Qed.

Lemma from_db_row_total_witness :
  exists token, from_db_row row_zero_counts 0.1 = Some token.
Proof.
  apply (from_db_row_total row_zero_counts 0.1).
  - intros info key Hinfo Hkey. inversion Hinfo; subst info. right.
    rewrite !elem_of_cons, elem_of_nil in Hkey.
    destruct Hkey as [->|[->|[]]]; eexists; reflexivity.
  - intros info Hinfo. inversion Hinfo; subst info. left. reflexivity.
Defined.

Lemma housenumber_char_penalty_acc (l : list N) (acc : Q) :
  (fold_left (fun acc c =>
                if negb (c =? 32)%N && negb (char_isdigit c)
                then acc + 0.1 else acc) l acc
   == acc + 0.1 * inject_Z (Z.of_nat
        (length (List.filter
                   (fun c => negb (c =? 32)%N && negb (char_isdigit c)) l))))%Q.
Proof.
  revert acc. induction l as [|c l IH]; intros acc; cbn [fold_left List.filter].
  - simpl. ring.
  - destruct (negb (c =? 32)%N && negb (char_isdigit c)); cbn [length].
    + rewrite IH. rewrite Nat2Z.inj_succ, <- Z.add_1_r, inject_Z_plus.
      simpl. ring.
    + apply IH.
Qed.

Lemma housenumber_char_penalty_count (s : string) :
  (housenumber_char_penalty s == 0.1 * inject_Z (Z.of_nat (other_chars s)))%Q.
Proof.
  unfold housenumber_char_penalty, other_chars.
  rewrite housenumber_char_penalty_acc. ring.
Qed.

(** C9: the token of a row of type H has the base penalty, plus 0.1 for
    each character of the word token that is neither a space nor a digit,
    plus [0.2 * (len - 1)] when no character of the word token is a
    digit. *)
Theorem housenumber_row_penalty (row : SaRow.t) (base_penalty : Q)
    (token : ICUToken.t) :
  SaRow.type row = "H" ->
  from_db_row row base_penalty = Some token ->
  (ICUToken.penalty token
   == base_penalty
      + 0.1 * inject_Z (Z.of_nat (other_chars (SaRow.word_token row)))
      + (if forallb (fun c => negb (char_isdigit c)) (chars (SaRow.word_token row))
         then 0.2 * inject_Z (Z.of_nat (len (SaRow.word_token row)) - 1)
         else 0))%Q.
Proof.
  intros Htype. unfold from_db_row.
  destruct (row_lookup_word row); [|discriminate].
  destruct (max_1 _); [|discriminate].
  destruct (max_1 _); [|discriminate].
  intros H; inversion H; subst; clear H. simpl.
  unfold row_penalty. rewrite Htype. simpl.
  destruct (forallb _ _); rewrite housenumber_char_penalty_count; ring.
Qed.

Lemma housenumber_row_penalty_witness :
  (exists token, from_db_row row_letters 0.1 = Some token
     /\ (ICUToken.penalty token == 0.1 + 0.1 * 2 + 0.2 * 2)%Q)
  /\ (exists token, from_db_row row_mixed 0.1 = Some token
     /\ (ICUToken.penalty token == 0.1 + 0.1 * 1 + 0)%Q)
  /\ (exists token, from_db_row row_accent 0.1 = Some token
     /\ (ICUToken.penalty token == 0.1 + 0.1 * 1 + 0)%Q)
  /\ (exists token, from_db_row row_arabic 0.1 = Some token
     /\ (ICUToken.penalty token == 0.1 + 0.1 * 1 + 0)%Q).
Proof.
  split; [|split; [|split]]; eexists; (split; [vm_compute; reflexivity|]).
  - apply (housenumber_row_penalty row_letters 0.1); vm_compute; reflexivity.
  - apply (housenumber_row_penalty row_mixed 0.1); vm_compute; reflexivity.
  - apply (housenumber_row_penalty row_accent 0.1); vm_compute; reflexivity.
  - apply (housenumber_row_penalty row_arabic 0.1); vm_compute; reflexivity.
Defined.

(** ** The postcode variant of an assignment *)

(** C2, as the code has it: the postcode variant is the base assignment
    with the penalty of the sequence when the postcode starts the query
    (<postcode>,<address>) and with that penalty plus 0.1 otherwise
    (<address>,<postcode>); in both cases
    [0.1 * max(0, len(address) - 1)] is added.  The variant is yielded
    when the postcode adjoins a boundary of the query that the direction
    allows. *)
Theorem postcode_variant_penalty (self : TokenSequence.t)
    (base : TokenAssignment.t) (query_len : nat) (postcode : TokenRange.t) :
  TokenAssignment.postcode base = Some postcode ->
  let penalty :=
    ((if TokenRange.start postcode =? 0
      then TokenSequence.penalty self
      else TokenSequence.penalty self + 0.1)
     + 0.1 * inject_Z (Z.max 0 (Z.of_nat (length (TokenAssignment.address base)) - 1)))%Q in
  (forall a, a ∈ Gen.yields (_get_assignments_postcode self base query_len) ->
     a = TokenAssignment.set_penalty penalty base)
  /\ ((TokenRange.start postcode = 0 /\ TokenSequence.direction self <> (-1)%Z)
      \/ (TokenRange.end_ postcode = query_len /\ TokenSequence.direction self <> 1%Z)
      -> Gen.yields (_get_assignments_postcode self base query_len)
         = [TokenAssignment.set_penalty penalty base]).
Proof.
  intros Hpc penalty. unfold _get_assignments_postcode. rewrite Hpc. simpl.
  split.
  - intros a. destruct (_ || _); simpl; [|intros H; inversion H].
    intros H. apply list_elem_of_singleton in H. exact H.
  - intros Hcond.
    assert ((TokenRange.start postcode =? 0)
              && negb (TokenSequence.direction self =? -1)%Z
            || (TokenRange.end_ postcode =? query_len)
               && negb (TokenSequence.direction self =? 1)%Z = true) as ->; [|reflexivity].
    destruct Hcond as [[H1 H2]|[H1 H2]].
    + apply Z.eqb_neq in H2. apply Nat.eqb_eq in H1. rewrite H1, H2. reflexivity.
    + apply Z.eqb_neq in H2. apply Nat.eqb_eq in H1. rewrite H1, H2.
      apply orb_true_r.
Qed.

Lemma postcode_variant_penalty_witness :
  Gen.yields (_get_assignments_postcode seq_address_postcode
                (from_ranges (TokenSequence.seq seq_address_postcode)) 2)
  = [TokenAssignment.set_penalty (0 + 0.1 + 0.1 * inject_Z (Z.max 0 (1 - 1)))%Q
       (from_ranges (TokenSequence.seq seq_address_postcode))].
Proof.
  apply (postcode_variant_penalty seq_address_postcode
           (from_ranges (TokenSequence.seq seq_address_postcode)) 2
           (mkTokenRange 1 2) eq_refl).
  right. split; [reflexivity|discriminate].
Defined.

(** C2 fails as stated: for <address>,<postcode> the variant costs 0.1
    more than the sequence, and for <postcode>,<address> it costs what the
    sequence costs. *)
Lemma postcode_variant_penalty_counterexample :
  (exists a,
     Gen.yields (get_assignments seq_address_postcode
                   query_two_slots)
       !! 0 = Some a
     /\ TokenAssignment.name a = None
     /\ ~ (TokenAssignment.penalty a == TokenSequence.penalty seq_address_postcode)%Q
     /\ (TokenAssignment.penalty a == TokenSequence.penalty seq_address_postcode + 0.1)%Q)
  /\ (exists a,
     Gen.yields (get_assignments seq_postcode_address
                   query_two_slots)
       !! 0 = Some a
     /\ TokenAssignment.name a = None
     /\ ~ (TokenAssignment.penalty a == TokenSequence.penalty seq_postcode_address + 0.1)%Q
     /\ (TokenAssignment.penalty a == TokenSequence.penalty seq_postcode_address)%Q).
Proof.
  split; eexists; (split; [vm_compute; reflexivity|]); simpl;
    (split; [reflexivity|]); split; try (intros H; vm_compute in H; discriminate);
    vm_compute; reflexivity.
Qed.

(** ** The anchors of the near search *)










Lemma rank_window_spec (rank0 rank : Z) :
  (let '(min_rank, max_rank) := rank_window rank0 in
   (min_rank <=? rank)%Z && (rank <=? max_rank)%Z) = true
  <-> in_rank_window rank0 rank.
Proof.
  unfold rank_window, in_rank_window.
  destruct (rank0 =? 0)%Z eqn:H0; [|destruct (rank0 <? 26)%Z eqn:H26];
    rewrite andb_true_iff, !Z.leb_le; lia.
Qed.









Lemma retained_spec (max_accuracy : Double.t) (rank0 : Z) (r : SearchResult.t) :
  (let '(min_rank, max_rank) := rank_window rank0 in
   retained max_accuracy min_rank max_rank r) = true
  <-> SearchResult.source_table r = PLACEX
      /\ (SearchResult.accuracy r <= max_accuracy)%Q
      /\ (exists b, SearchResult.bbox r = Some b /\ (Bbox.area b < 20)%Q)
      /\ in_rank_window rank0 (SearchResult.rank_address r).
Proof.
  pose proof (rank_window_spec rank0 (SearchResult.rank_address r)) as Hw.
  destruct (rank_window rank0) as [min_rank max_rank].
  unfold retained. rewrite <- Hw, !andb_true_iff, Qle_bool_iff.
  assert (is_placex (SearchResult.source_table r) = true
          <-> SearchResult.source_table r = PLACEX) as ->.
  { destruct (SearchResult.source_table r); simpl; split; congruence. }
  assert (and_then (SearchResult.bbox r) (fun b => Qlt_bool (Bbox.area b) 20) = true
          <-> exists b, SearchResult.bbox r = Some b /\ (Bbox.area b < 20)%Q) as ->.
  { destruct (SearchResult.bbox r) as [b|]; simpl.
    - unfold Qlt_bool. rewrite negb_true_iff, <- not_true_iff_false, Qle_bool_iff.
      split.
      + intros H. exists b. split; [reflexivity|lra].
      + intros (b' & Hb & Hlt). inversion Hb; subst. lra.
    - split; [discriminate|]. intros (b & Hb & _). discriminate. }
  tauto.
Qed.

Lemma near_base_filter (base : list SearchResult.t) (r0 : SearchResult.t) :
  head (sort_results base) = Some r0 ->
  near_base base
  = List.filter
      (fun r => let '(min_rank, max_rank) :=
                  rank_window (SearchResult.rank_address r0) in
                retained (fadd (SearchResult.accuracy r0) (Double.of_Q 0.5))
                         min_rank max_rank r)
      (sort_results base).
Proof.
  intros Hhead. unfold near_base.
  destruct (sort_results base) as [|r0' sorted]; [discriminate|].
  simpl in Hhead. inversion Hhead; subst r0'.
  destruct (rank_window (SearchResult.rank_address r0)) as [min_rank max_rank].
  reflexivity.
Qed.



(** ** The word windows of the tokenizer *)

Lemma string_append_assoc (a b c : string) : (a +:+ b) +:+ c = a +:+ b +:+ c.
Proof.
  induction a as [|x a IH]; [reflexivity|]. exact (f_equal (String x) IH).
Qed.

Lemma join_space_snoc (l : list string) (x : string) :
  l <> [] -> join_space (l ++ [x]) = join_space l +:+ " " +:+ x.
Proof.
  induction l as [|y l IH]; [congruence|]. intros _.
  destruct l as [|z l]; [reflexivity|].
  change (join_space ((y :: z :: l) ++ [x]))
    with (y +:+ " " +:+ join_space ((z :: l) ++ [x])).
  rewrite IH by congruence.
  change (join_space (y :: z :: l)) with (y +:+ " " +:+ join_space (z :: l)).
  rewrite !string_append_assoc. reflexivity.
Qed.

Lemma slice_snoc {A} (l : list A) (i j : nat) (x : A) :
  i <= j -> l !! j = Some x -> slice l i (S j) = slice l i j ++ [x].
Proof.
  intros Hij Hx. unfold slice.
  replace (S j - i) with (S (j - i)) by lia.
  apply take_S_r. rewrite lookup_drop. replace (i + (j - i)) with j by lia.
  exact Hx.
Qed.

Lemma slice_length {A} (l : list A) (i j : nat) :
  j <= length l -> length (slice l i j) = j - i.
Proof. intros H. unfold slice. rewrite length_take, length_drop. lia. Qed.

Lemma window_word_snoc (terms : list QueryPart.t) (i j : nat) (t : QueryPart.t) :
  i < j -> terms !! j = Some t ->
  window_word terms i (S j) = window_word terms i j +:+ " " +:+ QueryPart.token t.
Proof.
  intros Hij Ht. unfold window_word.
  rewrite (slice_snoc terms i j t) by (lia || assumption).
  rewrite map_app. simpl. apply join_space_snoc.
  intros Hnil. apply (f_equal length) in Hnil.
  rewrite length_map, slice_length in Hnil; simpl in Hnil.
  - lia.
  - apply lookup_lt_Some in Ht. lia.
Qed.

Lemma window_word_single (terms : list QueryPart.t) (i : nat) (t : QueryPart.t) :
  terms !! i = Some t -> window_word terms i (S i) = QueryPart.token t.
Proof.
  intros Ht. unfold window_word, slice. replace (S i - i) with 1 by lia.
  rewrite (take_S_r _ 0 t); [reflexivity|].
  rewrite lookup_drop, Nat.add_0_r. exact Ht.
Qed.

Lemma window_penalty_single (terms : list QueryPart.t) (i : nat) :
  window_penalty terms i (S i) = PENALTY_IN_TOKEN_BREAK BREAK_WORD.
Proof.
  unfold window_penalty, range. replace (S i - 1 - i) with 0 by lia. reflexivity.
Qed.

Lemma window_penalty_snoc (terms : list QueryPart.t) (i j : nat) (t : QueryPart.t) :
  i < j -> terms !! (j - 1) = Some t ->
  window_penalty terms i (S j) = (window_penalty terms i j + QueryPart.penalty t)%Q.
Proof.
  intros Hij Ht. unfold window_penalty, range.
  replace (S j - 1 - i) with (S (j - 1 - i)) by lia.
  rewrite seq_S, fold_left_app. simpl.
  replace (i + (j - 1 - i)) with (j - 1) by lia. rewrite Ht. reflexivity.
Qed.

Lemma entry_words_append (words : gmap string (list TokenRange.t))
    (word key : string) (r r' : TokenRange.t) :
  entry (words_append word r words) key r'
  <-> entry words key r' \/ (key = word /\ r' = r).
Proof.
  unfold entry, words_append.
  destruct (decide (word = key)) as [->|Hne].
  - rewrite lookup_insert_eq. simpl. rewrite elem_of_app, list_elem_of_singleton.
    intuition.
  - rewrite lookup_insert_ne by exact Hne. intuition congruence.
Qed.

(** The inner loop adds the windows that start at [first] and end at
    [a + 1 .. a + len]. *)
Lemma extract_words_inner_spec (terms : list QueryPart.t) (first len : nat) :
  forall (a : nat) (words : gmap string (list TokenRange.t)),
    first < a -> a + len <= length terms ->
    exists words',
      extract_words_inner terms first (seq a len) (window_word terms first a)
        (window_penalty terms first a) words = Some words'
      /\ forall key r,
           entry words' key r <->
           entry words key r
           \/ exists j, a < j <= a + len
                        /\ key = window_word terms first j
                        /\ r = TokenRange.mk first j
                                 (Some (window_penalty terms first j)).
Proof.
  induction len as [|len IH]; intros a words Hfa Hlen; simpl.
  - exists words. split; [reflexivity|]. intros key r. split; [tauto|].
    intros [H|(j & Hj & _)]; [exact H|lia].
  - destruct (lookup_lt_is_Some_2 terms a ltac:(lia)) as [tlast Hlast].
    destruct (lookup_lt_is_Some_2 terms (a - 1) ltac:(lia)) as [tprev Hprev].
    rewrite Hlast, Hprev.
    rewrite <- (window_word_snoc terms first a tlast Hfa Hlast).
    rewrite <- (window_penalty_snoc terms first a tprev Hfa Hprev).
    rewrite Nat.add_1_r.
    destruct (IH (S a)
                (words_append (window_word terms first (S a))
                   (TokenRange.mk first (S a)
                      (Some (window_penalty terms first (S a)))) words)
                ltac:(lia) ltac:(lia)) as (words' & Hrun & Hspec).
    exists words'. split; [exact Hrun|].
    intros key r. rewrite Hspec, entry_words_append. split.
    + intros [[H|[Hk Hr]]|(j & Hj & Hk & Hr)].
      * left; exact H.
      * right. exists (S a). split; [lia|]. split; assumption.
      * right. exists j. split; [lia|]. split; assumption.
    + intros [H|(j & Hj & Hk & Hr)]; [left; left; exact H|].
      destruct (decide (j = S a)) as [->|Hne].
      * left. right. split; assumption.
      * right. exists j. split; [lia|]. split; assumption.
Qed.

(** The outer loop adds, for each [first] in [s .. s + len - 1], the
    windows of at most twenty terms that start there. *)
Lemma extract_words_outer_spec (terms : list QueryPart.t) (len : nat) :
  forall (s : nat) (words : gmap string (list TokenRange.t)),
    s + len <= length terms ->
    exists words',
      extract_words_outer terms (length terms) (seq s len) words = Some words'
      /\ forall key r,
           entry words' key r <->
           entry words key r
           \/ exists i j, s <= i < s + len /\ i < j <= length terms /\ j - i <= 20
                          /\ key = window_word terms i j
                          /\ r = TokenRange.mk i j
                                   (Some (window_penalty terms i j)).
Proof.
  induction len as [|len IH]; intros s words Hlen.
  - exists words. split; [reflexivity|]. intros key r. split; [tauto|].
    intros [H|(i & j & Hi & _)]; [exact H|lia].
  - destruct (lookup_lt_is_Some_2 terms s ltac:(lia)) as [tfirst Hfirst].
    cbn [seq extract_words_outer]. rewrite Hfirst.
    rewrite <- (window_word_single terms s tfirst Hfirst).
    rewrite <- (window_penalty_single terms s).
    rewrite Nat.add_1_r. unfold range.
    destruct (extract_words_inner_spec terms s
                (Nat.min (s + 20) (length terms) - S s) (S s)
                (words_append (window_word terms s (S s))
                   (TokenRange.mk s (S s) (Some (window_penalty terms s (S s))))
                   words)
                ltac:(lia) ltac:(lia)) as (words1 & Hinner & Hspec1).
    rewrite Hinner.
    destruct (IH (S s) words1 ltac:(lia)) as (words' & Hrun & Hspec).
    exists words'. split; [exact Hrun|].
    intros key r. rewrite Hspec, Hspec1, entry_words_append. split.
    + intros [[[H|[Hk Hr]]|(j & Hj & Hk & Hr)]|(i & j & Hi & Hj & H20 & Hk & Hr)].
      * left; exact H.
      * right. exists s, (S s). repeat split; try lia; assumption.
      * right. exists s, j. repeat split; try lia; assumption.
      * right. exists i, j. repeat split; try lia; assumption.
    + intros [H|(i & j & Hi & Hj & H20 & Hk & Hr)]; [left; left; left; exact H|].
      destruct (decide (i = s)) as [->|Hne].
      * left. destruct (decide (j = S s)) as [->|Hne'].
        -- left. right. split; assumption.
        -- right. exists j. repeat split; try lia; assumption.
      * right. exists i, j. repeat split; try lia; assumption.
Qed.

(** What [extract_words] adds to the dictionary. *)
Lemma extract_words_spec (terms : list QueryPart.t) (start : nat)
    (words : gmap string (list TokenRange.t)) :
  exists words',
    extract_words terms start words = Some words'
    /\ forall key r,
         entry words' key r <->
         entry words key r
         \/ exists i j, start <= i /\ i < j <= length terms /\ j - i <= 20
                        /\ key = window_word terms i j
                        /\ r = TokenRange.mk i j (Some (window_penalty terms i j)).
Proof.
  unfold extract_words, range.
  destruct (le_lt_dec start (length terms)) as [Hle|Hgt].
  - destruct (extract_words_outer_spec terms (length terms - start) start words
                ltac:(lia)) as (words' & Hrun & Hspec).
    exists words'. split; [exact Hrun|].
    intros key r. rewrite Hspec. split.
    + intros [H|(i & j & Hi & Hj & H20 & Hk & Hr)]; [left; exact H|].
      right. exists i, j. repeat split; try lia; assumption.
    + intros [H|(i & j & Hi & Hj & H20 & Hk & Hr)]; [left; exact H|].
      right. exists i, j. repeat split; try lia; assumption.
  - replace (length terms - start) with 0 by lia. simpl.
    exists words. split; [reflexivity|]. intros key r. split; [tauto|].
    intros [H|(i & j & Hi & Hj & _)]; [exact H|lia].
Qed.

(** C3, as the code has it: [extract_words] adds exactly the windows
    [[i, j)] of the terms from [start] on that hold at most twenty terms,
    each under its space-joined lookup string and with its accumulated
    penalty; the ranges listed before stay. *)
Theorem extract_words_windows (terms : list QueryPart.t) (start : nat)
    (words : gmap string (list TokenRange.t)) :
  exists words',
    extract_words terms start words = Some words'
    /\ forall key r,
         entry words' key r <->
         entry words key r
         \/ exists i j, start <= i /\ i < j <= length terms /\ j - i <= 20
                        /\ key = window_word terms i j
                        /\ r = TokenRange.mk i j (Some (window_penalty terms i j)).
Proof. apply extract_words_spec. Qed.

(** C3 fails as stated: over twenty terms the window of all twenty is
    added, a range of length 20. *)
Lemma extract_words_windows_counterexample :
  exists words' r,
    extract_words twenty_terms 0 ∅ = Some words'
    /\ entry words' (window_word twenty_terms 0 20) r
    /\ TokenRange.start r = 0 /\ TokenRange.end_ r = 20
    /\ ~ (TokenRange.end_ r - TokenRange.start r <= 19).
Proof.
  destruct (extract_words_spec twenty_terms 0 ∅) as (words' & Hrun & Hspec).
  exists words', (TokenRange.mk 0 20 (Some (window_penalty twenty_terms 0 20))).
  split; [exact Hrun|]. split.
  - apply Hspec. right. exists 0, 20. simpl. repeat split; lia.
  - simpl. repeat split; lia.
Qed.

(** ** Synthetic house-number tokens *)

Lemma insert_token_new (e : nat) (ttype : TokenType) (token : ICUToken.t)
    (starting : list TokenList.t) :
  existsb (fun tl => (TokenList.end_ tl =? e) && ttype_in (TokenList.ttype tl) [ttype])
          starting = false ->
  insert_token e ttype token starting = starting ++ [TokenList.mk e ttype [token]].
Proof.
  induction starting as [|tl rest IH]; simpl; [reflexivity|].
  rewrite orb_false_r.
  destruct ((TokenList.end_ tl =? e) && ttype_eqb (TokenList.ttype tl) ttype);
    simpl; [discriminate|].
  intros H. rewrite (IH H). reflexivity.
Qed.

Lemma imap_fixes {A} (f : nat -> A -> A) (l : list A) :
  (forall j x, f j x = x) -> imap f l = l.
Proof.
  intros Hf. apply list_eq. intros i. rewrite list_lookup_imap.
  destruct (l !! i); simpl; [rewrite Hf|]; reflexivity.
Qed.

Lemma add_extra_tokens_step_spec (phrase_admits : PhraseType -> TokenType -> bool)
    (query : QueryStruct.t) (parts : list QueryPart.t) (bound : nat)
    (done rest : list QueryNode.t) (part : QueryPart.t) (node node0 : QueryNode.t) :
  parts !! length done = Some part ->
  length done < bound ->
  add_extra_tokens_step phrase_admits
    (Some (set_nodes (done ++ node :: rest) query)) (part, node0, length done)
  = Some (set_nodes
            ((done ++ [extra_node phrase_admits parts bound (length done) node]) ++ rest)
            query).
Proof.
  intros Hpart Hbound. unfold add_extra_tokens_step, node_at, extra_node,
    extra_token_due. simpl.
  rewrite list_lookup_middle by reflexivity. rewrite Hpart.
  apply Nat.ltb_lt in Hbound. rewrite Hbound. simpl.
  destruct ((len (QueryPart.token part) <=? 4)
            && isdigit (QueryPart.token part)
            && negb (has_tokens node (length done + 1) [TOKEN_HOUSENUMBER])) eqn:Hc;
    simpl.
  - unfold add_token, node_at. simpl. rewrite list_lookup_middle by reflexivity.
    destruct (phrase_admits (QueryNode.ptype node) TOKEN_HOUSENUMBER).
    + unfold set_nodes. simpl. f_equal. f_equal.
      rewrite insert_app_r_alt by lia. rewrite Nat.sub_diag. simpl.
      rewrite <- app_assoc. simpl. f_equal. f_equal. f_equal.
      apply insert_token_new.
      apply andb_true_iff in Hc as [_ Hc]. apply negb_true_iff in Hc. exact Hc.
    + rewrite <- app_assoc. reflexivity.
  - rewrite <- app_assoc. reflexivity.
Qed.

Lemma add_extra_tokens_fold (phrase_admits : PhraseType -> TokenType -> bool)
    (query : QueryStruct.t) (parts : list QueryPart.t) (bound : nat)
    (rest : list QueryNode.t) :
  forall (done nodes0 : list QueryNode.t) (cnt : nat),
    length done + cnt = bound ->
    length nodes0 = length rest ->
    fold_left (add_extra_tokens_step phrase_admits)
      (zip (zip (drop (length done) parts) nodes0) (seq (length done) cnt))
      (Some (set_nodes (done ++ rest) query))
    = Some (set_nodes
              (done ++ imap (fun j => extra_node phrase_admits parts bound
                                        (length done + j)) rest)
              query).
Proof.
  induction rest as [|node rest IH]; intros done nodes0 cnt Hb Hlen.
  - destruct nodes0; [|discriminate]. rewrite zip_with_nil_r. reflexivity.
  - destruct nodes0 as [|node0 nodes0]; [discriminate|].
    rewrite imap_cons. rewrite Nat.add_0_r.
    destruct (drop (length done) parts) as [|part ps] eqn:Hdrop.
    + simpl.
      assert (forall j x, extra_node phrase_admits parts bound (length done + j) x = x)
        as Hid.
      { intros j x. unfold extra_node.
        rewrite <- lookup_drop, Hdrop. reflexivity. }
      pose proof (Hid 0 node) as H0. rewrite Nat.add_0_r in H0. rewrite H0.
      rewrite imap_fixes; [reflexivity|]. intros j x. simpl. apply Hid.
    + assert (parts !! length done = Some part) as Hpart.
      { rewrite <- (Nat.add_0_r (length done)), <- lookup_drop, Hdrop. reflexivity. }
      destruct cnt as [|cnt].
      * simpl.
        assert (forall j x, extra_node phrase_admits parts bound (length done + j) x = x)
          as Hid.
        { intros j x. unfold extra_node.
          destruct (parts !! (length done + j)); [|reflexivity].
          replace (length done + j <? bound) with false; [reflexivity|].
          symmetry. apply Nat.ltb_ge. lia. }
        pose proof (Hid 0 node) as H0. rewrite Nat.add_0_r in H0. rewrite H0.
        rewrite imap_fixes; [reflexivity|]. intros j x. simpl. apply Hid.
      * cbn [seq zip zip_with fold_left].
        rewrite (add_extra_tokens_step_spec phrase_admits query parts bound
                   done rest part node node0 Hpart ltac:(lia)).
        assert (ps = drop (length (done ++ [extra_node phrase_admits parts bound
                                              (length done) node])) parts) as Hps.
        { rewrite length_app. simpl. rewrite Nat.add_1_r.
          rewrite <- (drop_drop parts (length done) 1) || idtac.
          replace (S (length done)) with (length done + 1) by lia.
          rewrite <- drop_drop, Hdrop. reflexivity. }
        specialize (IH (done ++ [extra_node phrase_admits parts bound (length done) node])
                       nodes0 cnt).
        rewrite length_app in IH. simpl in IH.
        rewrite length_app in Hps. simpl in Hps.
        rewrite Nat.add_1_r in IH, Hps. rewrite <- Hps in IH.
        rewrite IH by (simpl in Hlen; lia).
        rewrite <- app_assoc. simpl. f_equal. f_equal. f_equal. f_equal.
        apply imap_ext. intros j x _. simpl. f_equal. lia.
Qed.

(** [add_extra_tokens] in closed form. *)
Lemma add_extra_tokens_spec (phrase_admits : PhraseType -> TokenType -> bool)
    (query : QueryStruct.t) (parts : list QueryPart.t) :
  add_extra_tokens phrase_admits query parts
  = Some (set_nodes (imap (extra_node phrase_admits parts 1000)
                          (QueryStruct.nodes query)) query).
Proof.
  unfold add_extra_tokens, range.
  pose proof (add_extra_tokens_fold phrase_admits query parts 1000
                (QueryStruct.nodes query) [] (QueryStruct.nodes query) 1000
                eq_refl eq_refl) as H.
  simpl in H. replace (1000 - 0) with 1000 by lia.
  destruct query as [source nodes dir]. unfold set_nodes in *. simpl in *.
  exact H.
Qed.

(** C6, as the code has it: a term at an index below 1000 whose token is
    a string of at most four digits, whose slot carries no HOUSENUMBER
    token and whose phrase type admits house numbers, gets a HOUSENUMBER
    token of penalty 0.5 over its single slot. *)
Theorem extra_housenumber_tokens (phrase_admits : PhraseType -> TokenType -> bool)
    (query : QueryStruct.t) (parts : list QueryPart.t) (i : nat)
    (part : QueryPart.t) (node : QueryNode.t) :
  i < 1000 ->
  parts !! i = Some part ->
  node_at query i = Some node ->
  len (QueryPart.token part) <= 4 ->
  isdigit (QueryPart.token part) = true ->
  has_tokens node (i + 1) [TOKEN_HOUSENUMBER] = false ->
  phrase_admits (QueryNode.ptype node) TOKEN_HOUSENUMBER = true ->
  exists query',
    add_extra_tokens phrase_admits query parts = Some query'
    /\ node_at query' i
       = Some (set_starting
                 (QueryNode.starting node
                    ++ [TokenList.mk (i + 1) TOKEN_HOUSENUMBER
                          [ICUToken.mk 0.5 0 1 1 (QueryPart.token part)
                             (QueryPart.token part) None]])
                 node).
Proof.
  intros Hi Hpart Hnode Hlen Hdigit Hnone Hadmits.
  eexists. split; [apply add_extra_tokens_spec|].
  unfold node_at in *. simpl. rewrite list_lookup_imap, Hnode. simpl.
  unfold extra_node, extra_token_due. rewrite Hpart.
  apply Nat.ltb_lt in Hi. apply Nat.leb_le in Hlen.
  rewrite Hi, Hlen, Hdigit, Hnone, Hadmits. reflexivity.
Qed.

Lemma extra_housenumber_tokens_witness :
  exists query',
    add_extra_tokens admits_all query_two_slots
      [QueryPart.mk "12" "12" 0.1; QueryPart.mk "main" "main" 0.5] = Some query'
    /\ node_at query' 0
       = Some (QueryNode.mk BREAK_WORD PHRASE_ANY 0.1
                 [TokenList.mk 1 TOKEN_HOUSENUMBER
                    [ICUToken.mk 0.5 0 1 1 "12" "12" None]] None).
Proof.
  apply (extra_housenumber_tokens admits_all query_two_slots
           [QueryPart.mk "12" "12" 0.1; QueryPart.mk "main" "main" 0.5] 0
           (QueryPart.mk "12" "12" 0.1)
           (QueryNode.mk BREAK_WORD PHRASE_ANY 0.1 [] None));
    solve [reflexivity | lia | simpl; lia | vm_compute; lia].
Defined.

(** C6 fails as stated: the term at index 1000 gets no token, and a term
    gets none where its phrase type does not admit house numbers. *)
Lemma extra_housenumber_tokens_counterexample :
  (exists query' part node,
     add_extra_tokens admits_all many_query many_parts = Some query'
     /\ many_parts !! 1000 = Some part
     /\ isdigit (QueryPart.token part) = true
     /\ len (QueryPart.token part) <= 4
     /\ node_at many_query 1000 = Some node
     /\ has_tokens node 1001 [TOKEN_HOUSENUMBER] = false
     /\ node_at query' 1000 = Some node
     /\ QueryNode.starting node = [])
  /\ (exists node,
     add_extra_tokens admits_postcode_only postcode_phrase_query
       [QueryPart.mk "7" "7" 0.5] = Some postcode_phrase_query
     /\ node_at postcode_phrase_query 0 = Some node
     /\ has_tokens node 1 [TOKEN_HOUSENUMBER] = false
     /\ QueryNode.starting node = []).
Proof.
  split.
  - exists (set_nodes (imap (extra_node admits_all many_parts 1000)
                            (QueryStruct.nodes many_query)) many_query),
      (QueryPart.mk "7" "7" 0.1),
      (QueryNode.mk BREAK_WORD PHRASE_ANY 0.1 [] None).
    split; [apply add_extra_tokens_spec|].
    split; [reflexivity|]. split; [reflexivity|]. split; [vm_compute; lia|].
    split; [reflexivity|]. split; [reflexivity|].
    split; [|reflexivity].
    vm_compute. reflexivity.
  - exists (QueryNode.mk BREAK_START PHRASE_POSTCODE 0.5 [] None).
    split; [|repeat split; reflexivity].
    rewrite add_extra_tokens_spec. reflexivity.
Qed.

(** ** The rerank phase *)

Section Rerank.

Variable get_opcodes : string -> string -> list Opcode.t.

Lemma add_penalty_shape (p : Q) (tlist : TokenList.t) :
  tlist_shape (add_penalty p tlist) = tlist_shape tlist.
Proof.
  unfold tlist_shape, add_penalty. simpl. f_equal.
  rewrite map_map. reflexivity.
Qed.

Lemma rematch_lookup_word (token : ICUToken.t) (norm : string) :
  ICUToken.lookup_word (rematch get_opcodes token norm) = ICUToken.lookup_word token.
Proof. unfold rematch. destruct (_ =? 0); reflexivity. Qed.

Lemma rerank_postcode_repl_shape (tlist repl repl' : TokenList.t) :
  rerank_postcode_repl tlist repl = Some repl' -> tlist_shape repl' = tlist_shape repl.
Proof.
  unfold rerank_postcode_repl.
  destruct (_ && _); [|intros H; inversion H; reflexivity].
  destruct (negb _); [intros H; inversion H; apply add_penalty_shape|].
  destruct (head _); [|discriminate].
  destruct (4 <? _); intros H; inversion H; [apply add_penalty_shape|reflexivity].
Qed.

Lemma rerank_rematch_shape (parts : list QueryPart.t) (i k : nat)
    (node : QueryNode.t) (tlist : TokenList.t) (starting : list TokenList.t) :
  QueryNode.starting node !! k = Some tlist ->
  rerank_rematch get_opcodes parts i k node tlist = Some starting ->
  map tlist_shape starting = node_shape node.
Proof.
  intros Hk. unfold rerank_rematch, node_shape.
  destruct (negb _); [|intros H; inversion H; reflexivity].
  destruct (rematch_norm _ _ _ _) as [norm|]; [|discriminate].
  intros H; inversion H; subst; clear H.
  change (map tlist_shape) with (fmap (M:=list) tlist_shape).
  rewrite list_fmap_insert. apply list_insert_id.
  rewrite list_lookup_fmap, Hk. simpl. f_equal.
  unfold tlist_shape. simpl. f_equal. rewrite map_map.
  apply map_ext. intros t. symmetry. apply rematch_lookup_word.
Qed.

Lemma rerank_starting_shape (parts : list QueryPart.t) (i k : nat)
    (node : QueryNode.t) (tlist : TokenList.t) (starting : list TokenList.t) :
  QueryNode.starting node !! k = Some tlist ->
  rerank_starting get_opcodes parts i k node tlist = Some starting ->
  map tlist_shape starting = node_shape node.
Proof.
  intros Hk. unfold rerank_starting.
  destruct (ttype_eqb (TokenList.ttype tlist) TOKEN_POSTCODE).
  - intros H. clear Hk. apply mapM_Some_1 in H. unfold node_shape.
    induction H as [|repl repl' l l' Hr _ IH]; [reflexivity|]. simpl.
    rewrite IH. f_equal. eapply rerank_postcode_repl_shape, Hr.
  - destruct (ttype_eqb (TokenList.ttype tlist) TOKEN_HOUSENUMBER);
      [|apply rerank_rematch_shape, Hk].
    destruct (head _) as [token0|]; [|discriminate].
    destruct (_ <=? 3); [|apply rerank_rematch_shape, Hk].
    destruct (existsb _ _); intros H; inversion H; [|reflexivity].
    unfold node_shape. rewrite map_map. apply map_ext. intros repl.
    unfold rerank_housenumber_repl. destruct (_ && _); [|reflexivity].
    apply add_penalty_shape.
Qed.

Lemma rerank_step_shape (parts : list QueryPart.t) (query query' : QueryStruct.t)
    (visit : nat * nat) :
  rerank_step get_opcodes parts (Some query) visit = Some query' ->
  query_shape query' = query_shape query.
Proof.
  destruct visit as [i k]. unfold rerank_step.
  destruct (node_at query i) as [node|] eqn:Hnode; [|discriminate].
  destruct (QueryNode.starting node !! k) as [tlist|] eqn:Hk; [|discriminate].
  destruct (rerank_starting _ _ _ _ _ _) as [starting|] eqn:Hs; [|discriminate].
  intros H; inversion H; subst; clear H.
  unfold query_shape. simpl.
  change (map node_shape) with (fmap (M:=list) node_shape).
  rewrite list_fmap_insert. apply list_insert_id.
  rewrite list_lookup_fmap. unfold node_at in Hnode. rewrite Hnode. simpl. f_equal.
  symmetry. unfold node_shape at 1. simpl.
  eapply rerank_starting_shape; eassumption.
Qed.

Lemma rerank_fold_none (parts : list QueryPart.t) (visits : list (nat * nat)) :
  fold_left (rerank_step get_opcodes parts) visits None = None.
Proof.
  induction visits as [|[i k] visits IH]; [reflexivity|]. simpl. exact IH.
Qed.

Lemma rerank_fold_shape (parts : list QueryPart.t) (visits : list (nat * nat)) :
  forall query query',
    fold_left (rerank_step get_opcodes parts) visits (Some query) = Some query' ->
    query_shape query' = query_shape query.
Proof.
  induction visits as [|visit visits IH]; intros query query' H.
  - inversion H. reflexivity.
  - cbn [fold_left] in H.
    destruct (rerank_step get_opcodes parts (Some query) visit) as [query1|] eqn:Hstep.
    + rewrite (IH _ _ H). eapply rerank_step_shape, Hstep.
    + rewrite rerank_fold_none in H. discriminate.
Qed.

Lemma rerank_postcode_repl_long (tlist : TokenList.t) (token0 : ICUToken.t)
    (repl : TokenList.t) :
  head (TokenList.tokens tlist) = Some token0 ->
  rerank_postcode_repl tlist repl
  = Some (if postcode_penalized (ICUToken.lookup_word token0) (TokenList.end_ tlist) repl
          then add_penalty 0.39 repl else repl).
Proof.
  intros H0. unfold rerank_postcode_repl, postcode_penalized. rewrite H0.
  destruct (_ && _); [|reflexivity].
  destruct (negb (ttype_eqb (TokenList.ttype repl) TOKEN_HOUSENUMBER)); [reflexivity|].
  simpl. destruct (4 <? _); reflexivity.
Qed.

Lemma mapM_total {A B} (f : A -> option B) (g : A -> B) (l : list A) :
  (forall x, f x = Some (g x)) -> mapM f l = Some (map g l).
Proof.
  intros Hf. apply mapM_Some_2.
  induction l as [|x l IH]; simpl; constructor; [apply Hf|exact IH].
Qed.

(** The round of the rerank phase that visits a POSTCODE list. *)
Lemma rerank_postcode_round (parts : list QueryPart.t) (query q1 : QueryStruct.t)
    (visits : list (nat * nat)) (i k : nat) (node0 : QueryNode.t)
    (tlist0 : TokenList.t) (token0 : ICUToken.t) :
  fold_left (rerank_step get_opcodes parts) visits (Some query) = Some q1 ->
  node_at query i = Some node0 ->
  QueryNode.starting node0 !! k = Some tlist0 ->
  TokenList.ttype tlist0 = TOKEN_POSTCODE ->
  head (TokenList.tokens tlist0) = Some token0 ->
  exists q2 node1 node2,
    rerank_step get_opcodes parts (Some q1) (i, k) = Some q2
    /\ node_at q1 i = Some node1
    /\ node_shape node1 = node_shape node0
    /\ node_at q2 i = Some node2
    /\ (forall j, j <> i -> node_at q2 j = node_at q1 j)
    /\ QueryNode.starting node2
       = map (fun repl =>
                if postcode_penalized (ICUToken.lookup_word token0)
                     (TokenList.end_ tlist0) repl
                then add_penalty 0.39 repl else repl)
             (QueryNode.starting node1).
Proof.
  intros Hfold Hnode0 Hk0 Htype Htok0.
  apply rerank_fold_shape in Hfold.
  assert (exists node1, node_at q1 i = Some node1 /\ node_shape node1 = node_shape node0)
    as (node1 & Hnode1 & Hshape).
  { unfold query_shape, node_at in *.
    apply (f_equal (fun l => l !! i)) in Hfold.
    change (map node_shape) with (fmap (M:=list) node_shape) in Hfold.
    rewrite !list_lookup_fmap, Hnode0 in Hfold.
    destruct (QueryStruct.nodes q1 !! i) as [node1|]; [|discriminate].
    exists node1. split; [reflexivity|]. simpl in Hfold. congruence. }
  assert (exists tlist1 token1,
             QueryNode.starting node1 !! k = Some tlist1
             /\ TokenList.ttype tlist1 = TOKEN_POSTCODE
             /\ TokenList.end_ tlist1 = TokenList.end_ tlist0
             /\ head (TokenList.tokens tlist1) = Some token1
             /\ ICUToken.lookup_word token1 = ICUToken.lookup_word token0)
    as (tlist1 & token1 & Hk1 & Htype1 & Hend1 & Htok1 & Hlw).
  { unfold node_shape in Hshape.
    apply (f_equal (fun l => l !! k)) in Hshape.
    change (map tlist_shape) with (fmap (M:=list) tlist_shape) in Hshape.
    rewrite !list_lookup_fmap, Hk0 in Hshape.
    destruct (QueryNode.starting node1 !! k) as [tlist1|]; [|discriminate].
    simpl in Hshape. inversion Hshape as [[He Ht Hl]].
    destruct (TokenList.tokens tlist0) as [|t0 ts0]; [discriminate|].
    destruct (TokenList.tokens tlist1) as [|t1 ts1] eqn:Htk1; [discriminate|].
    simpl in Htok0, Hl. inversion Htok0; subst t0. inversion Hl.
    exists tlist1, t1. rewrite Htk1. repeat split; simpl; congruence. }
  unfold rerank_step. rewrite Hnode1, Hk1.
  unfold rerank_starting. rewrite Htype1. simpl.
  rewrite (mapM_total _ _ _
             (fun repl => rerank_postcode_repl_long tlist1 token1 repl Htok1)).
  eexists _, node1, _. split; [reflexivity|]. split; [reflexivity|].
  split; [exact Hshape|]. unfold node_at in *. simpl.
  split; [apply list_lookup_insert_eq; eapply lookup_lt_Some, Hnode1|].
  split; [intros j Hj; apply list_lookup_insert_ne; congruence|].
  simpl. rewrite Hlw, Hend1. reflexivity.
Qed.

End Rerank.

(** C4, as the code has it: in the round of the rerank phase that visits
    a POSTCODE list, every list that starts at the same node and ends at
    the same slot gets 0.39 added to the penalty of its tokens, except
    POSTCODE lists, and except HOUSENUMBER lists when the lookup word of
    the first postcode token has at most four characters; nothing else
    changes in that round. *)
Theorem rerank_postcode_penalty (get_opcodes : string -> string -> list Opcode.t)
    (parts : list QueryPart.t) (query q1 : QueryStruct.t)
    (visits rest : list (nat * nat)) (i k : nat) (node0 : QueryNode.t)
    (tlist0 : TokenList.t) (token0 : ICUToken.t) :
  iter_token_lists query = visits ++ (i, k) :: rest ->
  fold_left (rerank_step get_opcodes parts) visits (Some query) = Some q1 ->
  node_at query i = Some node0 ->
  QueryNode.starting node0 !! k = Some tlist0 ->
  TokenList.ttype tlist0 = TOKEN_POSTCODE ->
  head (TokenList.tokens tlist0) = Some token0 ->
  exists q2 node1 node2,
    rerank_step get_opcodes parts (Some q1) (i, k) = Some q2
    /\ node_at q1 i = Some node1
    /\ node_shape node1 = node_shape node0
    /\ node_at q2 i = Some node2
    /\ (forall j, j <> i -> node_at q2 j = node_at q1 j)
    /\ QueryNode.starting node2
       = map (fun repl =>
                if postcode_penalized (ICUToken.lookup_word token0)
                     (TokenList.end_ tlist0) repl
                then add_penalty 0.39 repl else repl)
             (QueryNode.starting node1).
Proof.
  intros _. apply rerank_postcode_round.
Qed.

Lemma rerank_postcode_penalty_witness :
  exists q2 node1 node2,
    rerank_step opcodes_of_equal [QueryPart.mk "12345" "12345" 0.5]
      (Some (postcode_housenumber_query "12345")) (0, 0) = Some q2
    /\ node_at (postcode_housenumber_query "12345") 0 = Some node1
    /\ node_shape node1 = node_shape node1
    /\ node_at q2 0 = Some node2
    /\ (forall j, j <> 0 -> node_at q2 j = node_at (postcode_housenumber_query "12345") j)
    /\ QueryNode.starting node2
       = map (fun repl =>
                if postcode_penalized "12345" 1 repl
                then add_penalty 0.39 repl else repl)
             (QueryNode.starting node1).
Proof.
  destruct (rerank_postcode_penalty opcodes_of_equal
              [QueryPart.mk "12345" "12345" 0.5]
              (postcode_housenumber_query "12345")
              (postcode_housenumber_query "12345") [] [(0, 1)] 0 0
              (QueryNode.mk BREAK_START PHRASE_ANY 0.5
                 [TokenList.mk 1 TOKEN_POSTCODE
                    [ICUToken.mk 0.1 11 1 1 "12345" "12345" None];
                  TokenList.mk 1 TOKEN_HOUSENUMBER
                    [ICUToken.mk 0.2 12 1 1 "12345" "12345" None]] None)
              (TokenList.mk 1 TOKEN_POSTCODE
                 [ICUToken.mk 0.1 11 1 1 "12345" "12345" None])
              (ICUToken.mk 0.1 11 1 1 "12345" "12345" None)
              eq_refl eq_refl eq_refl eq_refl eq_refl eq_refl)
    as (q2 & node1 & node2 & H1 & H2 & H3 & H4 & H5 & H6).
  exists q2, node1, node2. inversion H2; subst node1. repeat split; assumption.
Defined.

(** C4 fails as stated.  A house number next to a postcode of five
    characters has a lookup word longer than four characters and still
    gets the 0.39; next to a postcode of four characters it gets
    nothing. *)
Lemma rerank_postcode_penalty_counterexample :
  (exists q' p,
     rerank_tokens opcodes_of_equal (postcode_housenumber_query "12345")
       [QueryPart.mk "12345" "12345" 0.5] = Some q'
     /\ token_penalties q' 0 1 = [p]
     /\ (p == 0.2 + 0.39)%Q /\ ~ (p == 0.2)%Q)
  /\ (exists q' p,
     rerank_tokens opcodes_of_equal (postcode_housenumber_query "1234")
       [QueryPart.mk "1234" "1234" 0.5] = Some q'
     /\ token_penalties q' 0 1 = [p]
     /\ (p == 0.2)%Q /\ ~ (p == 0.2 + 0.39)%Q).
Proof.
  split; eexists; eexists; (split; [vm_compute; reflexivity|]);
    (split; [vm_compute; reflexivity|]);
    (split; [vm_compute; reflexivity|]);
    intros H; vm_compute in H; discriminate.
Qed.

(** Lengths are counted in characters: next to the postcode 123é, of
    four characters and five bytes, the house number keeps its
    penalty. *)
Example rerank_postcode_characters :
  exists q' p,
    rerank_tokens opcodes_of_equal (postcode_housenumber_query "123é")
      [QueryPart.mk "123é" "123é" 0.5] = Some q'
    /\ token_penalties q' 0 1 = [p]
    /\ (p == 0.2)%Q.
Proof.
  eexists; eexists; (split; [vm_compute; reflexivity|]);
    (split; [vm_compute; reflexivity|]); vm_compute; reflexivity.
Qed.

(** ** The token assignment enumerator *)

(** *** Sequences of typed ranges *)

Lemma chain_end_snoc (p : nat) (l : list TokenRange.t) (r : TokenRange.t) :
  chain_end p (l ++ [r]) = TokenRange.end_ r.
Proof. unfold chain_end. rewrite last_snoc. reflexivity. Qed.

Lemma tiles_snoc (l : list TokenRange.t) (r : TokenRange.t) :
  forall p,
    tiles p (l ++ [r])
    <-> tiles p l /\ TokenRange.start r = chain_end p l
        /\ chain_end p l < TokenRange.end_ r.
Proof.
  induction l as [|x l IH]; intros p; simpl.
  - unfold chain_end. simpl. tauto.
  - rewrite IH.
    assert (chain_end p (x :: l) = chain_end (TokenRange.end_ x) l) as ->.
    { unfold chain_end. destruct l as [|y l]; [reflexivity|].
      rewrite last_cons_cons.
      destruct (last (y :: l)) eqn:E; [reflexivity|].
      apply last_None in E. discriminate. }
    tauto.
Qed.

Lemma end_pos_chain_end (self : TokenSequence.t) :
  end_pos self = chain_end 0 (map TypedRange.trange (TokenSequence.seq self)).
Proof.
  unfold end_pos, chain_end.
  change (map TypedRange.trange) with (fmap (M:=list) TypedRange.trange).
  rewrite fmap_last. destruct (last _); reflexivity.
Qed.

Lemma count_type_app (ttype : TokenType) (s s' : list TypedRange.t) :
  count_type ttype (s ++ s') = count_type ttype s + count_type ttype s'.
Proof. unfold count_type. rewrite List.filter_app, length_app. reflexivity. Qed.

Lemma ttype_eqb_eq (a b : TokenType) : ttype_eqb a b = true <-> a = b.
Proof. destruct a, b; simpl; split; congruence. Qed.

Lemma ttype_eqb_refl (a : TokenType) : ttype_eqb a a = true.
Proof. destruct a; reflexivity. Qed.

Lemma ttype_eqb_neq (a b : TokenType) : ttype_eqb a b = false <-> a <> b.
Proof. destruct a, b; simpl; split; congruence. Qed.

Lemma count_type_single (ttype ttype' : TokenType) (r : TokenRange.t) :
  count_type ttype [TypedRange.mk ttype' r] = if ttype_eqb ttype' ttype then 1 else 0.
Proof. unfold count_type. simpl. destruct (ttype_eqb _ _); reflexivity. Qed.

Lemma has_types_count (self : TokenSequence.t) (ttype : TokenType) :
  has_types self [ttype] = false -> count_type ttype (TokenSequence.seq self) = 0.
Proof.
  unfold has_types, count_type, ttype_in.
  induction (TokenSequence.seq self) as [|r s IH]; simpl; [reflexivity|].
  rewrite orb_false_r. destruct (ttype_eqb _ _); simpl; [discriminate|]. exact IH.
Qed.

Lemma count_has_types (self : TokenSequence.t) (ttype : TokenType) :
  0 < count_type ttype (TokenSequence.seq self) -> has_types self [ttype] = true.
Proof.
  intros H. destruct (has_types self [ttype]) eqn:E; [reflexivity|].
  apply has_types_count in E. lia.
Qed.

(** What [appendable] lets through: never a WORD, and one of the other
    types only if the sequence has none of it, unless it is a PARTIAL. *)
Lemma appendable_fresh (self : TokenSequence.t) (ttype : TokenType) (d : Z) :
  appendable self ttype = Some d ->
  ttype <> TOKEN_WORD
  /\ (TokenSequence.seq self <> [] -> ttype <> TOKEN_PARTIAL ->
      has_types self [ttype] = false).
Proof.
  unfold appendable.
  destruct (ttype_eqb ttype TOKEN_WORD) eqn:Hw; [discriminate|].
  apply ttype_eqb_neq in Hw. intros H. split; [exact Hw|].
  intros Hne Hp.
  destruct (TokenSequence.seq self) as [|r s] eqn:Hs; [congruence|].
  cbn [length Nat.eqb] in H.
  apply ttype_eqb_neq in Hp. rewrite Hp in H.
  destruct (has_types self [ttype]); [discriminate|reflexivity].
Qed.

Lemma types_ok_nil : types_ok [].
Proof. split; [reflexivity|]. intros; unfold count_type; simpl; lia. Qed.

(** [advance] keeps the invariant on the types. *)
Lemma advance_types_ok (self s' : TokenSequence.t) (ttype : TokenType)
    (e : nat) (force_break : bool) (break_penalty : Q) :
  types_ok (TokenSequence.seq self) ->
  advance self ttype e force_break break_penalty = Some s' ->
  types_ok (TokenSequence.seq s').
Proof.
  intros [Hword Hsingle]. unfold advance.
  destruct (appendable self ttype) as [newdir|] eqn:Happ; [|discriminate].
  apply appendable_fresh in Happ as [Hnw Hfresh].
  destruct (last (TokenSequence.seq self)) as [lastr|] eqn:Hlast.
  - apply last_Some in Hlast as [init Hinit].
    destruct (negb force_break && ttype_eqb (TypedRange.ttype lastr) ttype) eqn:Hext;
      intros H; inversion H; subst; clear H; simpl.
    + apply andb_true_iff in Hext as [_ Hext]. apply ttype_eqb_eq in Hext.
      rewrite Hinit in *. rewrite removelast_last.
      destruct lastr as [ltype lrange]. simpl in Hext. subst ltype.
      split.
      * rewrite count_type_app in *. rewrite count_type_single in *.
        exact Hword.
      * intros t Ht. specialize (Hsingle t Ht).
        rewrite count_type_app in *. rewrite count_type_single in *.
        exact Hsingle.
    + split.
      * rewrite count_type_app, Hword, count_type_single.
        apply ttype_eqb_neq in Hnw. rewrite Hnw. reflexivity.
      * intros t Ht. rewrite count_type_app, count_type_single.
        destruct (ttype_eqb ttype t) eqn:Heq; [|specialize (Hsingle t Ht); lia].
        apply ttype_eqb_eq in Heq. subst t.
        rewrite has_types_count; [lia|]. apply Hfresh.
        -- rewrite Hinit. intros Hnil. apply app_eq_nil in Hnil as [_ Hnil].
           discriminate.
        -- intros ->. unfold single_types in Ht.
           rewrite !elem_of_cons, elem_of_nil in Ht. intuition discriminate.
  - intros H; inversion H; subst; clear H; simpl. split.
    + rewrite count_type_single. apply ttype_eqb_neq in Hnw. rewrite Hnw. reflexivity.
    + intros t _. rewrite count_type_single. destruct (ttype_eqb _ _); lia.
Qed.

(** [advance] to a slot behind the end keeps the ranges tiling, and the
    new sequence ends at that slot. *)
Lemma advance_tiles (self s' : TokenSequence.t) (ttype : TokenType)
    (e : nat) (force_break : bool) (break_penalty : Q) :
  tiles 0 (map TypedRange.trange (TokenSequence.seq self)) ->
  end_pos self < e ->
  advance self ttype e force_break break_penalty = Some s' ->
  tiles 0 (map TypedRange.trange (TokenSequence.seq s')) /\ end_pos s' = e.
Proof.
  intros Htiles Hlt. unfold advance.
  destruct (appendable self ttype) as [newdir|]; [|discriminate].
  rewrite end_pos_chain_end in Hlt.
  destruct (last (TokenSequence.seq self)) as [lastr|] eqn:Hlast.
  - apply last_Some in Hlast as [init Hinit]. rewrite Hinit in *.
    rewrite map_app in Htiles, Hlt. simpl in Htiles, Hlt.
    rewrite chain_end_snoc in Hlt. apply tiles_snoc in Htiles as (Hi & Hs & He).
    destruct (negb force_break && ttype_eqb (TypedRange.ttype lastr) ttype);
      intros H; inversion H; subst; clear H;
      rewrite end_pos_chain_end; simpl.
    + rewrite removelast_last, map_app. simpl. rewrite chain_end_snoc.
      split; [|reflexivity]. apply tiles_snoc. simpl. split; [exact Hi|]. lia.
    + rewrite !map_app. simpl. rewrite chain_end_snoc.
      split; [|reflexivity]. apply tiles_snoc. rewrite chain_end_snoc. simpl.
      split; [|lia]. apply tiles_snoc. auto.
  - intros H; inversion H; subst; clear H. rewrite end_pos_chain_end. simpl.
    apply last_None in Hlast. rewrite Hlast in Hlt. unfold chain_end in *.
    simpl in *. auto.
Qed.

Lemma adapt_penalty_seq (self : TokenSequence.t) (priors : nat) (new_dir : Z) :
  TokenSequence.seq (snd (_adapt_penalty_from_priors self priors new_dir))
  = TokenSequence.seq self.
Proof.
  unfold _adapt_penalty_from_priors.
  destruct (2 <=? priors); [|reflexivity].
  destruct (_ =? 0)%Z; [reflexivity|]. destruct (priors =? 2); reflexivity.
Qed.

(** [recheck_sequence] changes the direction and the penalty only. *)
Lemma recheck_sequence_seq (self : TokenSequence.t) :
  TokenSequence.seq (snd (recheck_sequence self)) = TokenSequence.seq self.
Proof.
  unfold recheck_sequence.
  destruct (index_of_type _ _) as [hnrpos|]; [|reflexivity].
  set (r1 := if negb (TokenSequence.direction self =? -1)%Z
             then _adapt_penalty_from_priors self _ (-1) else (true, self)).
  assert (TokenSequence.seq (snd r1) = TokenSequence.seq self) as H1.
  { subst r1. destruct (negb _); [apply adapt_penalty_seq|reflexivity]. }
  destruct r1 as [ok1 self1]. simpl in H1.
  destruct ok1; simpl; [|exact H1].
  set (r2 := if negb (TokenSequence.direction self1 =? 1)%Z
             then _adapt_penalty_from_priors self1 _ 1 else (true, self1)).
  assert (TokenSequence.seq (snd r2) = TokenSequence.seq self) as H2.
  { subst r2. destruct (negb _); [rewrite adapt_penalty_seq|]; exact H1. }
  destruct r2 as [ok2 self2]. simpl in H2.
  destruct ok2; simpl; [|exact H2].
  destruct (existsb _ _); simpl; exact H2.
Qed.

(** *** The base assignment of a sequence *)

Lemma from_ranges_snoc (s : list TypedRange.t) (r : TypedRange.t) :
  from_ranges (s ++ [r]) = from_ranges_step (from_ranges s) r.
Proof. unfold from_ranges. rewrite fold_left_app. reflexivity. Qed.

Lemma ranges_of_type_snoc (ttype : TokenType) (s : list TypedRange.t)
    (r : TypedRange.t) :
  ranges_of_type ttype (s ++ [r])
  = ranges_of_type ttype s
    ++ (if ttype_eqb (TypedRange.ttype r) ttype then [TypedRange.trange r] else []).
Proof.
  unfold ranges_of_type. rewrite List.filter_app, map_app. simpl.
  destruct (ttype_eqb _ _); reflexivity.
Qed.

Lemma last_app_if {A} (l : list A) (b : bool) (x : A) :
  last (l ++ (if b then [x] else [])) = if b then Some x else last l.
Proof. destruct b; [apply last_snoc|rewrite app_nil_r; reflexivity]. Qed.

(** The fields of the base assignment: no name, the PARTIAL ranges as
    the address, and for every single type the last range of the type. *)
Lemma from_ranges_fields (s : list TypedRange.t) :
  TokenAssignment.name (from_ranges s) = None
  /\ TokenAssignment.address (from_ranges s) = ranges_of_type TOKEN_PARTIAL s
  /\ forall ttype, ttype ∈ single_types ->
       role ttype (from_ranges s) = last (ranges_of_type ttype s).
Proof.
  induction s as [|r s (Hname & Haddr & Hrole)] using rev_ind.
  - split; [reflexivity|]. split; [reflexivity|].
    intros ttype Ht. unfold single_types in Ht.
    rewrite !elem_of_cons, elem_of_nil in Ht.
    destruct Ht as [->|[->|[->|[->|[->|[]]]]]]; reflexivity.
  - rewrite from_ranges_snoc. split; [|split].
    + unfold from_ranges_step. destruct (TypedRange.ttype r); exact Hname.
    + rewrite ranges_of_type_snoc. unfold from_ranges_step.
      destruct (TypedRange.ttype r); simpl; rewrite ?app_nil_r; try exact Haddr.
      rewrite Haddr. reflexivity.
    + intros ttype Ht. specialize (Hrole ttype Ht).
      rewrite ranges_of_type_snoc, last_app_if, <- Hrole.
      unfold single_types in Ht. rewrite !elem_of_cons, elem_of_nil in Ht.
      unfold from_ranges_step.
      destruct Ht as [->|[->|[->|[->|[->|[]]]]]];
        destruct (TypedRange.ttype r); reflexivity.
Qed.

Lemma ranges_of_type_length (ttype : TokenType) (s : list TypedRange.t) :
  length (ranges_of_type ttype s) = count_type ttype s.
Proof. unfold ranges_of_type, count_type. apply length_map. Qed.

Lemma option_list_last_short {A} (l : list A) :
  length l <= 1 -> option_list (last l) = l.
Proof.
  destruct l as [|x [|y l]]; simpl; intros H; [reflexivity|reflexivity|lia].
Qed.

(** Under the invariant on the types, each role holds the one range of
    its type, if there is one. *)
Lemma from_ranges_role (s : list TypedRange.t) (ttype : TokenType) :
  types_ok s -> ttype ∈ single_types ->
  option_list (role ttype (from_ranges s)) = ranges_of_type ttype s.
Proof.
  intros [_ Hsingle] Ht.
  destruct (from_ranges_fields s) as (_ & _ & Hrole).
  rewrite (Hrole ttype Ht). apply option_list_last_short.
  rewrite ranges_of_type_length. apply Hsingle, Ht.
Qed.

Lemma cover_count_app (k : nat) (l l' : list TokenRange.t) :
  cover_count k (l ++ l') = cover_count k l + cover_count k l'.
Proof. unfold cover_count. rewrite List.filter_app, length_app. reflexivity. Qed.

(** The ranges of a sequence, type by type. *)
Lemma cover_count_by_type (k : nat) (s : list TypedRange.t) :
  cover_count k (map TypedRange.trange s)
  = cover_count k (ranges_of_type TOKEN_WORD s)
    + cover_count k (ranges_of_type TOKEN_PARTIAL s)
    + cover_count k (ranges_of_type TOKEN_HOUSENUMBER s)
    + cover_count k (ranges_of_type TOKEN_POSTCODE s)
    + cover_count k (ranges_of_type TOKEN_COUNTRY s)
    + cover_count k (ranges_of_type TOKEN_NEAR_ITEM s)
    + cover_count k (ranges_of_type TOKEN_QUALIFIER s).
Proof.
  induction s as [|r s IH]; [reflexivity|].
  unfold ranges_of_type in *. simpl.
  change (cover_count k (TypedRange.trange r :: map TypedRange.trange s))
    with (cover_count k ([TypedRange.trange r] ++ map TypedRange.trange s)).
  rewrite cover_count_app, IH.
  destruct (TypedRange.ttype r); simpl;
    repeat match goal with
    | |- context [cover_count k (?x :: ?l)] =>
        lazymatch l with
        | [] => fail
        | _ => change (cover_count k (x :: l)) with (cover_count k ([x] ++ l));
               rewrite (cover_count_app k [x] l)
        end
    end; lia.
Qed.

Lemma single_types_all (P : TokenType -> Prop) :
  (forall ttype, ttype ∈ single_types -> P ttype) ->
  P TOKEN_HOUSENUMBER /\ P TOKEN_POSTCODE /\ P TOKEN_COUNTRY
  /\ P TOKEN_NEAR_ITEM /\ P TOKEN_QUALIFIER.
Proof.
  intros H. unfold single_types in H.
  repeat split; apply H; rewrite !elem_of_cons; tauto.
Qed.

(** The cover of an assignment, role by role. *)
Lemma cover_count_assignment (k : nat) (a : TokenAssignment.t) :
  cover_count k (assignment_ranges a)
  = cover_count k (option_list (TokenAssignment.name a))
    + cover_count k (TokenAssignment.address a)
    + cover_count k (option_list (TokenAssignment.housenumber a))
    + cover_count k (option_list (TokenAssignment.postcode a))
    + cover_count k (option_list (TokenAssignment.country a))
    + cover_count k (option_list (TokenAssignment.near_item a))
    + cover_count k (option_list (TokenAssignment.qualifier a)).
Proof. unfold assignment_ranges. rewrite !cover_count_app. lia. Qed.

(** The base assignment covers what its sequence covers. *)
Lemma from_ranges_cover (k : nat) (s : list TypedRange.t) :
  types_ok s ->
  cover_count k (assignment_ranges (from_ranges s))
  = cover_count k (map TypedRange.trange s).
Proof.
  intros Hok.
  destruct (single_types_all _ (fun t => from_ranges_role s t Hok))
    as (Hh & Hp & Hc & Hn & Hq).
  simpl in Hh, Hp, Hc, Hn, Hq.
  destruct (from_ranges_fields s) as (Hname & Haddr & _).
  rewrite cover_count_assignment, cover_count_by_type.
  rewrite Hname, Haddr, Hh, Hp, Hc, Hn, Hq.
  assert (ranges_of_type TOKEN_WORD s = []) as ->.
  { apply length_zero_iff_nil. rewrite ranges_of_type_length. apply Hok. }
  reflexivity.
Qed.

Lemma ranges_of_type_subset (ttype : TokenType) (s : list TypedRange.t)
    (r : TokenRange.t) :
  r ∈ ranges_of_type ttype s -> r ∈ map TypedRange.trange s.
Proof.
  unfold ranges_of_type. rewrite !list_elem_of_In, !in_map_iff.
  intros (x & Hx & Hin). apply filter_In in Hin as [Hin _]. eauto.
Qed.

(** Every range of the base assignment is a range of the sequence. *)
Lemma from_ranges_subset (s : list TypedRange.t) (r : TokenRange.t) :
  r ∈ assignment_ranges (from_ranges s) -> r ∈ map TypedRange.trange s.
Proof.
  destruct (from_ranges_fields s) as (Hname & Haddr & Hrole).
  destruct (single_types_all _ Hrole) as (Hh & Hp & Hc & Hn & Hq).
  simpl in Hh, Hp, Hc, Hn, Hq.
  unfold assignment_ranges. rewrite Hname, Haddr, Hh, Hp, Hc, Hn, Hq.
  rewrite !elem_of_app.
  assert (forall l : list TokenRange.t, r ∈ option_list (last l) -> r ∈ l) as Hlast.
  { intros l H. destruct (last l) eqn:E; simpl in H; [|inversion H].
    apply list_elem_of_singleton in H. subst. apply last_Some_elem_of, E. }
  intros [H|[H|[H|[H|[H|[H|H]]]]]]; try (inversion H; fail);
    try (apply Hlast in H); eapply ranges_of_type_subset; exact H.
Qed.

(** *** What generators yield *)

Lemma elem_gen_then {A} (g k : Gen.t A) (a : A) :
  a ∈ Gen.yields (g ;;; k) -> a ∈ Gen.yields g \/ a ∈ Gen.yields k.
Proof.
  unfold gen_then. destruct (Gen.completed g); simpl; [|tauto].
  apply elem_of_app.
Qed.

Lemma elem_gen_try {A B} (o : option B) (k : B -> Gen.t A) (a : A) :
  a ∈ Gen.yields (gen_try o k) -> exists b, o = Some b /\ a ∈ Gen.yields (k b).
Proof. destruct o as [b|]; simpl; [eauto|]. intros H. inversion H. Qed.

Lemma elem_gen_for {A B} (l : list B) (body : B -> Gen.t A) (a : A) :
  a ∈ Gen.yields (gen_for l body) -> exists x, x ∈ l /\ a ∈ Gen.yields (body x).
Proof.
  induction l as [|x l IH]; simpl; [intros H; inversion H|].
  intros H. apply elem_gen_then in H as [H|H].
  - exists x. split; [constructor|exact H].
  - destruct (IH H) as (y & Hy & Ha). exists y. split; [constructor|]; assumption.
Qed.

Lemma elem_gen_yield {A} (a b : A) : a ∈ Gen.yields (gen_yield b) -> a = b.
Proof. simpl. apply list_elem_of_singleton. Qed.

Lemma elem_gen_return {A} (a : A) : a ∈ Gen.yields (@gen_return A) -> False.
Proof. simpl. intros H. inversion H. Qed.

Lemma elem_of_range (a b i : nat) : i ∈ range a b <-> a <= i < b.
Proof. unfold range. rewrite elem_of_seq. lia. Qed.

(** *** The assignments of a sequence *)

(** Changing the penalty, the name and the address leaves the single
    roles as they are. *)
Ltac same_roles := intros [] _; reflexivity.

Lemma postcode_variant (self : TokenSequence.t) (base a : TokenAssignment.t)
    (query_len : nat) :
  a ∈ Gen.yields (_get_assignments_postcode self base query_len) ->
  variant base a.
Proof.
  unfold _get_assignments_postcode. intros H.
  apply elem_gen_try in H as (postcode & _ & H).
  destruct (_ || _); [|destruct (elem_gen_return _ H)].
  apply elem_gen_yield in H. subst a.
  split; [apply choice_none; reflexivity|same_roles].
Qed.

Lemma forward_variant (self : TokenSequence.t) (base a : TokenAssignment.t)
    (query : QueryStruct.t) :
  a ∈ Gen.yields (_get_assignments_address_forward self base query) ->
  variant base a.
Proof.
  unfold _get_assignments_address_forward. intros H.
  apply elem_gen_try in H as (first & Hfirst & H).
  assert (TokenAssignment.address base = first :: drop 1 (TokenAssignment.address base))
    as Haddr.
  { destruct (TokenAssignment.address base); inversion Hfirst; reflexivity. }
  destruct (and_then (TokenAssignment.postcode base) _);
    [destruct (elem_gen_return _ H)|].
  apply elem_gen_then in H as [H|H].
  - apply elem_gen_yield in H. subst a.
    split; [eapply choice_first; [exact Haddr|reflexivity..]|same_roles].
  - destruct (_ || _); [destruct (elem_gen_return _ H)|].
    apply elem_gen_try in H as (node & _ & H).
    destruct (negb _); [destruct (elem_gen_return _ H)|].
    apply elem_gen_for in H as (i & Hi & H). apply elem_of_range in Hi.
    simpl in H. apply elem_gen_try in H as (nodei & _ & H).
    apply elem_gen_yield in H. subst a.
    split; [eapply (choice_first_split _ _ _ _ i);
            [exact Haddr|lia|reflexivity..]|same_roles].
Qed.

Lemma backward_variant (self : TokenSequence.t) (base a : TokenAssignment.t)
    (query : QueryStruct.t) :
  a ∈ Gen.yields (_get_assignments_address_backward self base query) ->
  variant base a.
Proof.
  unfold _get_assignments_address_backward. intros H.
  apply elem_gen_try in H as (lastr & Hlast & H).
  apply last_Some in Hlast as [init Haddr].
  assert (removelast (TokenAssignment.address base) = init) as Hinit.
  { rewrite Haddr. apply removelast_last. }
  destruct (and_then (TokenAssignment.postcode base) _);
    [destruct (elem_gen_return _ H)|].
  apply elem_gen_then in H as [H|H].
  - destruct (_ || _); [|destruct (elem_gen_return _ H)].
    apply elem_gen_yield in H. subst a.
    split; [eapply choice_last; [exact Haddr|reflexivity|exact Hinit]|same_roles].
  - destruct (_ || _); [destruct (elem_gen_return _ H)|].
    apply elem_gen_try in H as (node & _ & H).
    destruct (negb _); [destruct (elem_gen_return _ H)|].
    apply elem_gen_for in H as (i & Hi & H). apply elem_of_range in Hi.
    simpl in H. apply elem_gen_try in H as (nodei & _ & H).
    apply elem_gen_yield in H. subst a.
    split; [eapply (choice_last_split _ _ _ _ i);
            [exact Haddr|lia|reflexivity|simpl; rewrite Hinit; reflexivity]
           |same_roles].
Qed.

(** Every assignment [get_assignments] yields is a variant of the base
    assignment, and there is none when the address ranges of the base
    hold more than 50 slots. *)
Lemma get_assignments_variant (self : TokenSequence.t) (query : QueryStruct.t)
    (a : TokenAssignment.t) :
  a ∈ Gen.yields (get_assignments self query) ->
  variant (from_ranges (TokenSequence.seq self)) a
  /\ (num_addr_tokens (TokenAssignment.address (from_ranges (TokenSequence.seq self)))
      <= 50)%Z.
Proof.
  unfold get_assignments. intros H.
  destruct (50 <? _)%Z eqn:H50; [destruct (elem_gen_return _ H)|].
  apply Z.ltb_ge in H50. split; [|exact H50]. clear H50.
  apply elem_gen_then in H as [H|H].
  { destruct (_ && _); [|destruct (elem_gen_return _ H)].
    eapply postcode_variant, H. }
  destruct (length _ =? 0).
  { destruct (_ && _); [|destruct (elem_gen_return _ H)].
    apply elem_gen_yield in H. subst a.
    split; [apply choice_none; reflexivity|same_roles]. }
  apply elem_gen_then in H as [H|H].
  { destruct (negb _); [|destruct (elem_gen_return _ H)].
    eapply forward_variant, H. }
  apply elem_gen_then in H as [H|H].
  { destruct (negb _); [|destruct (elem_gen_return _ H)].
    eapply backward_variant, H. }
  destruct (_ && _); [|destruct (elem_gen_return _ H)].
  apply elem_gen_yield in H. subst a.
  split; [apply choice_none; reflexivity|same_roles].
Qed.

(** *** Variants cover what the base covers *)

Lemma cover_count_cons (k : nat) (r : TokenRange.t) (l : list TokenRange.t) :
  cover_count k (r :: l) = (if covers k r then 1 else 0) + cover_count k l.
Proof. unfold cover_count. simpl. destruct (covers k r); reflexivity. Qed.

Lemma cover_count_nil (k : nat) : cover_count k [] = 0.
Proof. reflexivity. Qed.

Lemma covers_split (k i : nat) (r : TokenRange.t) :
  TokenRange.start r < i < TokenRange.end_ r ->
  (if covers k (mkTokenRange (TokenRange.start r) i) then 1 else 0)
  + (if covers k (mkTokenRange i (TokenRange.end_ r)) then 1 else 0)
  = if covers k r then 1 else 0.
Proof.
  intros Hi. unfold covers. simpl.
  destruct (Nat.leb_spec (TokenRange.start r) k), (Nat.ltb_spec k i),
    (Nat.leb_spec i k), (Nat.ltb_spec k (TokenRange.end_ r)); simpl; lia.
Qed.

Lemma variant_cover (base a : TokenAssignment.t) (k : nat) :
  TokenAssignment.name base = None -> variant base a ->
  cover_count k (assignment_ranges a) = cover_count k (assignment_ranges base).
Proof.
  intros Hname [Hchoice Hroles].
  destruct (single_types_all _ Hroles) as (Hh & Hp & Hc & Hn & Hq).
  simpl in Hh, Hp, Hc, Hn, Hq.
  rewrite !cover_count_assignment, Hh, Hp, Hc, Hn, Hq, Hname.
  destruct Hchoice as [Hn' Ha|first rest Hb Hn' Ha|first rest i Hb Hi Hn' Ha
                       |init lastr Hb Hn' Ha|init lastr i Hb Hi Hn' Ha];
    rewrite Hn', Ha, ?Hb, ?Hname; simpl;
    rewrite ?cover_count_app, ?cover_count_cons, ?cover_count_nil; try lia.
  - pose proof (covers_split k i first Hi). lia.
  - pose proof (covers_split k i lastr Hi). lia.
Qed.

Lemma elem_of_assignment_ranges (a : TokenAssignment.t) (r : TokenRange.t) :
  r ∈ assignment_ranges a <->
  TokenAssignment.name a = Some r \/ r ∈ TokenAssignment.address a
  \/ exists ttype, ttype ∈ single_types /\ role ttype a = Some r.
Proof.
  unfold assignment_ranges. rewrite !elem_of_app.
  assert (forall o : option TokenRange.t, r ∈ option_list o <-> o = Some r) as Hopt.
  { intros [x|]; simpl.
    - rewrite list_elem_of_singleton. split; congruence.
    - rewrite elem_of_nil. split; [tauto|discriminate]. }
  rewrite !Hopt. unfold single_types. split.
  - intros [H|[H|[H|[H|[H|[H|H]]]]]]; [tauto|tauto|right; right..].
    + exists TOKEN_HOUSENUMBER. rewrite !elem_of_cons. tauto.
    + exists TOKEN_POSTCODE. rewrite !elem_of_cons. tauto.
    + exists TOKEN_COUNTRY. rewrite !elem_of_cons. tauto.
    + exists TOKEN_NEAR_ITEM. rewrite !elem_of_cons. tauto.
    + exists TOKEN_QUALIFIER. rewrite !elem_of_cons. tauto.
  - intros [H|[H|(t & Ht & H)]]; [tauto|tauto|].
    rewrite !elem_of_cons, elem_of_nil in Ht.
    destruct Ht as [->|[->|[->|[->|[->|[]]]]]]; simpl in H; tauto.
Qed.

Lemma variant_range_ok (n : nat) (base a : TokenAssignment.t) :
  TokenAssignment.name base = None -> variant base a ->
  (forall r, r ∈ assignment_ranges base -> range_ok n r) ->
  forall r, r ∈ assignment_ranges a -> range_ok n r.
Proof.
  intros Hname [Hchoice Hroles] Hbase r Hr.
  apply elem_of_assignment_ranges in Hr as [Hr|[Hr|(t & Ht & Hr)]].
  - destruct Hchoice as [Hn' Ha|first rest Hb Hn' Ha|first rest i Hb Hi Hn' Ha
                         |init lastr Hb Hn' Ha|init lastr i Hb Hi Hn' Ha];
      rewrite Hn' in Hr; [congruence|inversion Hr; subst..].
    + apply Hbase, elem_of_assignment_ranges. right; left. rewrite Hb. constructor.
    + assert (range_ok n first) as Hf.
      { apply Hbase, elem_of_assignment_ranges. right; left. rewrite Hb. constructor. }
      unfold range_ok in *. simpl. lia.
    + apply Hbase, elem_of_assignment_ranges. right; left. rewrite Hb.
      apply elem_of_app. right. constructor.
    + assert (range_ok n lastr) as Hf.
      { apply Hbase, elem_of_assignment_ranges. right; left. rewrite Hb.
        apply elem_of_app. right. constructor. }
      unfold range_ok in *. simpl. lia.
  - destruct Hchoice as [Hn' Ha|first rest Hb Hn' Ha|first rest i Hb Hi Hn' Ha
                         |init lastr Hb Hn' Ha|init lastr i Hb Hi Hn' Ha];
      rewrite Ha in Hr.
    + apply Hbase, elem_of_assignment_ranges. tauto.
    + apply Hbase, elem_of_assignment_ranges. right; left. rewrite Hb.
      constructor. exact Hr.
    + apply elem_of_cons in Hr as [->|Hr].
      * assert (range_ok n first) as Hf.
        { apply Hbase, elem_of_assignment_ranges. right; left. rewrite Hb.
          constructor. }
        unfold range_ok in *. simpl. lia.
      * apply Hbase, elem_of_assignment_ranges. right; left. rewrite Hb.
        constructor. exact Hr.
    + apply Hbase, elem_of_assignment_ranges. right; left. rewrite Hb.
      apply elem_of_app. left. exact Hr.
    + apply elem_of_app in Hr as [Hr|Hr].
      * apply Hbase, elem_of_assignment_ranges. right; left. rewrite Hb.
        apply elem_of_app. left. exact Hr.
      * apply list_elem_of_singleton in Hr. subst r.
        assert (range_ok n lastr) as Hf.
        { apply Hbase, elem_of_assignment_ranges. right; left. rewrite Hb.
          apply elem_of_app. right. constructor. }
        unfold range_ok in *. simpl. lia.
  - apply Hbase, elem_of_assignment_ranges. right; right.
    exists t. split; [exact Ht|]. rewrite <- (Hroles t Ht). exact Hr.
Qed.

Lemma num_addr_tokens_acc (l : list TokenRange.t) (acc : Z) :
  fold_left (fun acc t =>
               (acc + (Z.of_nat (TokenRange.end_ t) - Z.of_nat (TokenRange.start t)))%Z)
            l acc
  = (acc + num_addr_tokens l)%Z.
Proof.
  unfold num_addr_tokens. revert acc.
  induction l as [|r l IH]; intros acc; simpl; [lia|].
  rewrite IH, (IH (0 + _)%Z). lia.
Qed.

Lemma num_addr_tokens_cons (r : TokenRange.t) (l : list TokenRange.t) :
  num_addr_tokens (r :: l)
  = (Z.of_nat (TokenRange.end_ r) - Z.of_nat (TokenRange.start r)
     + num_addr_tokens l)%Z.
Proof. unfold num_addr_tokens at 1. simpl. rewrite num_addr_tokens_acc. lia. Qed.

Lemma num_addr_tokens_app (l l' : list TokenRange.t) :
  num_addr_tokens (l ++ l') = (num_addr_tokens l + num_addr_tokens l')%Z.
Proof.
  induction l as [|r l IH]; simpl; [reflexivity|].
  rewrite !num_addr_tokens_cons, IH. lia.
Qed.

(** A variant assigns no more slots to the address than the base, when
    no address range of the base ends before it starts. *)
Lemma variant_addr_tokens (base a : TokenAssignment.t) :
  variant base a ->
  (forall r, r ∈ TokenAssignment.address base ->
     TokenRange.start r <= TokenRange.end_ r) ->
  (num_addr_tokens (TokenAssignment.address a)
   <= num_addr_tokens (TokenAssignment.address base))%Z.
Proof.
  intros [Hchoice _] Hpos.
  destruct Hchoice as [Hn' Ha|first rest Hb Hn' Ha|first rest i Hb Hi Hn' Ha
                       |init lastr Hb Hn' Ha|init lastr i Hb Hi Hn' Ha];
    rewrite Ha, ?Hb; rewrite ?num_addr_tokens_app, ?num_addr_tokens_cons;
    change (num_addr_tokens []) with 0%Z; simpl.
  - lia.
  - assert (TokenRange.start first <= TokenRange.end_ first)
      by (apply Hpos; rewrite Hb; constructor). lia.
  - lia.
  - assert (TokenRange.start lastr <= TokenRange.end_ lastr)
      by (apply Hpos; rewrite Hb; apply elem_of_app; right; constructor).
    lia.
  - lia.
Qed.

(** *** The loop of the enumerator keeps an invariant of its states *)

Section Enumerator.

Variable query : QueryStruct.t.

(** An invariant of the sequences that [advance] keeps for the tokens
    of the query. *)
Variable Inv : list TypedRange.t -> Prop.

Hypothesis Inv_tlist :
  forall self node tlist s',
    Inv (TokenSequence.seq self) ->
    node_at query (end_pos self) = Some node ->
    tlist ∈ QueryNode.starting node ->
    advance self (TokenList.ttype tlist) (TokenList.end_ tlist) true
            (QueryNode.word_break_penalty node) = Some s' ->
    Inv (TokenSequence.seq s').

Hypothesis Inv_partial :
  forall self node force_break s',
    Inv (TokenSequence.seq self) ->
    node_at query (end_pos self) = Some node ->
    advance self TOKEN_PARTIAL (end_pos self + 1) force_break
            (QueryNode.word_break_penalty node) = Some s' ->
    Inv (TokenSequence.seq s').

Lemma end_pos_seq (s s' : TokenSequence.t) :
  TokenSequence.seq s = TokenSequence.seq s' -> end_pos s = end_pos s'.
Proof. unfold end_pos. intros ->. reflexivity. Qed.

Lemma append_state_inv (todo : list TokenSequence.t)
    (newstate : option TokenSequence.t) :
  (forall s', newstate = Some s' -> Inv (TokenSequence.seq s')) ->
  todo_ok Inv todo ->
  (forall a, a ∈ Gen.yields (fst (_append_state_to_todo query todo newstate)) ->
             from_complete query Inv a)
  /\ todo_ok Inv (snd (_append_state_to_todo query todo newstate)).
Proof.
  intros Hnew Htodo. unfold _append_state_to_todo.
  destruct newstate as [s'|]; [|split; [intros a H; inversion H|exact Htodo]].
  specialize (Hnew s' eq_refl).
  destruct (end_pos s' =? num_token_slots query) eqn:Hend.
  - apply Nat.eqb_eq in Hend.
    pose proof (recheck_sequence_seq s') as Hseq.
    destruct (recheck_sequence s') as [ok s'']. simpl in Hseq.
    destruct ok; simpl; (split; [|exact Htodo]); [|intros a H; inversion H].
    intros a Ha. exists s''. rewrite Hseq.
    split; [exact Hnew|]. split; [|exact Ha].
    rewrite (end_pos_seq s'' s' Hseq). exact Hend.
  - destruct (negb (is_final s')); simpl;
      (split; [intros a H; inversion H|]); [|exact Htodo].
    constructor; assumption.
Qed.

Lemma for_starting_inv (state : TokenSequence.t) (node : QueryNode.t)
    (tlists : list TokenList.t) :
  Inv (TokenSequence.seq state) ->
  node_at query (end_pos state) = Some node ->
  (forall tlist, tlist ∈ tlists -> tlist ∈ QueryNode.starting node) ->
  forall todo,
    todo_ok Inv todo ->
    (forall a, a ∈ Gen.yields (fst (for_starting query state node tlists todo)) ->
               from_complete query Inv a)
    /\ todo_ok Inv (snd (for_starting query state node tlists todo)).
Proof.
  intros Hstate Hnode. induction tlists as [|tlist tlists IH]; intros Hin todo Htodo.
  - simpl. split; [intros a H; inversion H|exact Htodo].
  - simpl.
    destruct (append_state_inv todo
                (advance state (TokenList.ttype tlist) (TokenList.end_ tlist) true
                         (QueryNode.word_break_penalty node))) as [Hy Ht];
      [|exact Htodo|].
    { intros s' Hs'. eapply Inv_tlist; [exact Hstate|exact Hnode| |exact Hs'].
      apply Hin. constructor. }
    destruct (_append_state_to_todo _ _ _) as [g todo1]. simpl in Hy, Ht.
    destruct (Gen.completed g) eqn:Hg; [|split; assumption].
    destruct (IH (fun t Ht' => Hin t (list_elem_of_further _ _ _ Ht')) todo1 Ht)
      as [Hy' Ht'].
    destruct (for_starting query state node tlists todo1) as [g' todo2].
    simpl in *. split; [|exact Ht'].
    intros a Ha. apply elem_gen_then in Ha as [Ha|Ha]; auto.
Qed.

Lemma loop_body_inv (state : TokenSequence.t) (todo : list TokenSequence.t) :
  Inv (TokenSequence.seq state) -> todo_ok Inv todo ->
  (forall a, a ∈ Gen.yields (fst (loop_body query state todo)) -> from_complete query Inv a)
  /\ todo_ok Inv (snd (loop_body query state todo)).
Proof.
  intros Hstate Htodo. unfold loop_body.
  destruct (node_at query (end_pos state)) as [node|] eqn:Hnode;
    [|split; [intros a H; inversion H|exact Htodo]].
  destruct (for_starting_inv state node (QueryNode.starting node) Hstate Hnode
              (fun t H => H) todo Htodo) as [Hy Ht].
  destruct (for_starting query state node _ todo) as [g todo1]. simpl in Hy, Ht.
  destruct (Gen.completed g); [|split; assumption].
  destruct (QueryNode.partial node); [|split; assumption].
  destruct (append_state_inv todo1
              (advance state TOKEN_PARTIAL (end_pos state + 1)
                       (btype_eqb (QueryNode.btype node) BREAK_PHRASE)
                       (QueryNode.word_break_penalty node))) as [Hy' Ht'];
    [|exact Ht|].
  { intros s' Hs'. eapply Inv_partial; [exact Hstate|exact Hnode|exact Hs']. }
  destruct (_append_state_to_todo _ _ _) as [g' todo2]. simpl in *.
  split; [|exact Ht'].
  intros a Ha. apply elem_gen_then in Ha as [Ha|Ha]; auto.
Qed.

Lemma run_todo_inv (fuel : nat) :
  forall todo,
    todo_ok Inv todo ->
    (forall a, a ∈ Gen.yields (Run.out (run_todo fuel query todo)) -> from_complete query Inv a)
    /\ todo_ok Inv (Run.todo (run_todo fuel query todo)).
Proof.
  induction fuel as [|fuel IH]; intros todo Htodo.
  - destruct todo; simpl; (split; [intros a H; inversion H|]);
      [constructor|exact Htodo].
  - destruct todo as [|state todo]; simpl.
    { split; [intros a H; inversion H|constructor]. }
    inversion Htodo as [|? ? Hstate Hrest]; subst.
    destruct (loop_body_inv state todo Hstate Hrest) as [Hy Ht].
    destruct (loop_body query state todo) as [g todo1]. simpl in Hy, Ht.
    destruct (Gen.completed g); simpl; [|split; assumption].
    destruct (IH todo1 Ht) as [Hy' Ht']. split; [|exact Ht'].
    intros a Ha. apply elem_gen_then in Ha as [Ha|Ha]; auto.
Qed.

(** Whatever the enumerator yields comes from a sequence over the whole
    query that satisfies the invariant. *)
Lemma yield_token_assignments_inv (fuel : nat) (a : TokenAssignment.t) :
  Inv [] ->
  a ∈ Gen.yields (Run.out (yield_token_assignments fuel query)) ->
  from_complete query Inv a.
Proof.
  intros Hnil. unfold yield_token_assignments.
  destruct (head (QueryStruct.source query)); [|intros H; inversion H].
  apply run_todo_inv. constructor; [exact Hnil|constructor].
Qed.

End Enumerator.

(** *** Well-formed queries and tilings *)

Lemma wf_query_tlist (query : QueryStruct.t) (i : nat) (node : QueryNode.t)
    (tlist : TokenList.t) :
  wf_query query = true ->
  node_at query i = Some node ->
  tlist ∈ QueryNode.starting node ->
  i < TokenList.end_ tlist <= num_token_slots query.
Proof.
  unfold wf_query, node_at. intros Hwf Hnode Hin.
  apply andb_true_iff in Hwf as [_ Hwf].
  rewrite forallb_forall in Hwf.
  specialize (Hwf (i, node)). simpl in Hwf.
  rewrite forallb_forall in Hwf.
  assert (tlist_ok (num_token_slots query) i tlist = true) as Hok.
  { apply Hwf.
    - apply list_elem_of_In. apply (elem_of_lookup_imap_2 pair _ _ i). exact Hnode.
    - apply list_elem_of_In. exact Hin. }
  unfold tlist_ok in Hok. apply andb_true_iff in Hok as [H1 H2].
  apply Nat.ltb_lt in H1. apply Nat.leb_le in H2. lia.
Qed.

Lemma chain_end_cons (p : nat) (r : TokenRange.t) (l : list TokenRange.t) :
  chain_end p (r :: l) = chain_end (TokenRange.end_ r) l.
Proof.
  unfold chain_end. destruct l as [|y l]; [reflexivity|].
  rewrite last_cons_cons.
  destruct (last (y :: l)) eqn:E; [reflexivity|].
  apply last_None in E. discriminate.
Qed.

Lemma tiles_chain_end (l : list TokenRange.t) :
  forall p, tiles p l -> p <= chain_end p l.
Proof.
  induction l as [|r l IH]; intros p; simpl.
  - intros _. unfold chain_end. simpl. lia.
  - intros (Hs & He & Hl). rewrite chain_end_cons. specialize (IH _ Hl). lia.
Qed.

(** Ranges that tile the slots from [p] on lie between [p] and their
    end, and every slot between is in exactly one of them. *)
Lemma tiles_range_ok (l : list TokenRange.t) :
  forall p r, tiles p l -> r ∈ l ->
    p <= TokenRange.start r /\ TokenRange.start r < TokenRange.end_ r
    /\ TokenRange.end_ r <= chain_end p l.
Proof.
  induction l as [|x l IH]; intros p r Ht Hr; [inversion Hr|].
  simpl in Ht. destruct Ht as (Hs & He & Hl). rewrite chain_end_cons.
  pose proof (tiles_chain_end l _ Hl) as Hle.
  apply elem_of_cons in Hr as [->|Hr]; [lia|].
  specialize (IH _ r Hl Hr). lia.
Qed.

Lemma tiles_cover (k : nat) (l : list TokenRange.t) :
  forall p, tiles p l ->
    cover_count k l = if (p <=? k) && (k <? chain_end p l) then 1 else 0.
Proof.
  induction l as [|r l IH]; intros p; simpl.
  - intros _. unfold chain_end. simpl.
    destruct (Nat.leb_spec p k), (Nat.ltb_spec k p); simpl; try reflexivity; lia.
  - intros (Hs & He & Hl). rewrite cover_count_cons, chain_end_cons, (IH _ Hl).
    pose proof (tiles_chain_end l _ Hl) as Hle.
    unfold covers. rewrite Hs.
    destruct (Nat.leb_spec p k), (Nat.ltb_spec k (TokenRange.end_ r)),
      (Nat.leb_spec (TokenRange.end_ r) k),
      (Nat.ltb_spec k (chain_end (TokenRange.end_ r) l)); simpl; lia.
Qed.

Lemma filter_two {A} (f : A -> bool) (l : list A) (i j : nat) (x y : A) :
  i < j -> l !! i = Some x -> l !! j = Some y -> f x = true -> f y = true ->
  2 <= length (List.filter f l).
Proof.
  intros Hij Hi Hj Hx Hy.
  rewrite <- (take_drop_middle l i x Hi), List.filter_app, length_app. simpl.
  rewrite Hx. simpl.
  assert (y ∈ drop (S i) l) as Hin.
  { apply list_elem_of_lookup. exists (j - S i). rewrite lookup_drop.
    replace (S i + (j - S i)) with j by lia. exact Hj. }
  assert (In y (List.filter f (drop (S i) l))) as Hin'.
  { apply filter_In. split; [apply list_elem_of_In, Hin|exact Hy]. }
  destruct (List.filter f (drop (S i) l)); [destruct Hin'|]. simpl. lia.
Qed.

(** Ranges of which no slot is in two, and none of which is empty, are
    pairwise apart. *)
Lemma cover_disjoint (l : list TokenRange.t) :
  (forall k, cover_count k l <= 1) ->
  (forall r, r ∈ l -> TokenRange.start r < TokenRange.end_ r) ->
  forall i j r1 r2,
    i <> j -> l !! i = Some r1 -> l !! j = Some r2 ->
    TokenRange.end_ r1 <= TokenRange.start r2
    \/ TokenRange.end_ r2 <= TokenRange.start r1.
Proof.
  intros Hcount Hne i j r1 r2 Hij Hi Hj.
  assert (TokenRange.start r1 < TokenRange.end_ r1) as H1
    by (apply Hne, list_elem_of_lookup; eauto).
  assert (TokenRange.start r2 < TokenRange.end_ r2) as H2
    by (apply Hne, list_elem_of_lookup; eauto).
  destruct (le_lt_dec (TokenRange.end_ r1) (TokenRange.start r2)) as [|Ha];
    [left; assumption|].
  destruct (le_lt_dec (TokenRange.end_ r2) (TokenRange.start r1)) as [|Hb];
    [right; assumption|].
  exfalso.
  set (k := Nat.max (TokenRange.start r1) (TokenRange.start r2)).
  assert (covers k r1 = true) as Hc1.
  { unfold covers. apply andb_true_iff.
    rewrite Nat.leb_le, Nat.ltb_lt. subst k. lia. }
  assert (covers k r2 = true) as Hc2.
  { unfold covers. apply andb_true_iff.
    rewrite Nat.leb_le, Nat.ltb_lt. subst k. lia. }
  specialize (Hcount k). unfold cover_count in Hcount.
  destruct (lt_dec i j) as [Hlt|Hge].
  - pose proof (filter_two (covers k) l i j r1 r2 Hlt Hi Hj Hc1 Hc2). lia.
  - pose proof (filter_two (covers k) l j i r2 r1 ltac:(lia) Hj Hi Hc2 Hc1). lia.
Qed.

Lemma cover_exists (k : nat) (l : list TokenRange.t) :
  0 < cover_count k l ->
  exists r, r ∈ l /\ TokenRange.start r <= k < TokenRange.end_ r.
Proof.
  unfold cover_count. intros H.
  destruct (List.filter (covers k) l) as [|r rest] eqn:E; [simpl in H; lia|].
  assert (In r (List.filter (covers k) l)) as Hin by (rewrite E; left; reflexivity).
  apply filter_In in Hin as [Hin Hc]. exists r.
  split; [apply list_elem_of_In, Hin|].
  unfold covers in Hc. apply andb_true_iff in Hc as [Hc1 Hc2].
  apply Nat.leb_le in Hc1. apply Nat.ltb_lt in Hc2. lia.
Qed.

(** The two invariants of the enumerator. *)
Lemma enumerator_types_ok (query : QueryStruct.t) (fuel : nat)
    (a : TokenAssignment.t) :
  a ∈ Gen.yields (Run.out (yield_token_assignments fuel query)) ->
  from_complete query types_ok a.
Proof.
  apply yield_token_assignments_inv.
  - intros self node tlist s' Hinv _ _ Hadv. eapply advance_types_ok; eassumption.
  - intros self node fb s' Hinv _ Hadv. eapply advance_types_ok; eassumption.
  - apply types_ok_nil.
Qed.

Lemma enumerator_seq_ok (query : QueryStruct.t) (fuel : nat)
    (a : TokenAssignment.t) :
  wf_query query = true ->
  a ∈ Gen.yields (Run.out (yield_token_assignments fuel query)) ->
  from_complete query seq_ok a.
Proof.
  intros Hwf. apply yield_token_assignments_inv.
  - intros self node tlist s' [Ht Hty] Hnode Hin Hadv. split.
    + eapply advance_tiles; [exact Ht| |exact Hadv].
      apply (wf_query_tlist query _ node tlist Hwf Hnode Hin).
    + eapply advance_types_ok; eassumption.
  - intros self node fb s' [Ht Hty] _ Hadv. split.
    + eapply advance_tiles; [exact Ht| |exact Hadv]. lia.
    + eapply advance_types_ok; eassumption.
  - split; [exact I|apply types_ok_nil].
Qed.

(** *** The claims on the enumerator *)

(** C1: the ranges of an assignment the enumerator yields for a
    well-formed query of [n] slots are not empty and lie within [0, n),
    no two of them overlap, and every slot of [0, n) is in one of them. *)
Theorem assignment_ranges_partition (query : QueryStruct.t) (fuel : nat)
    (a : TokenAssignment.t) :
  wf_query query = true ->
  a ∈ Gen.yields (Run.out (yield_token_assignments fuel query)) ->
  (forall r, r ∈ assignment_ranges a ->
     TokenRange.start r < TokenRange.end_ r <= num_token_slots query)
  /\ (forall i j r1 r2,
        i <> j ->
        assignment_ranges a !! i = Some r1 ->
        assignment_ranges a !! j = Some r2 ->
        TokenRange.end_ r1 <= TokenRange.start r2
        \/ TokenRange.end_ r2 <= TokenRange.start r1)
  /\ (forall k, k < num_token_slots query ->
        exists r, r ∈ assignment_ranges a
                  /\ TokenRange.start r <= k < TokenRange.end_ r).
Proof.
  intros Hwf Ha.
  destruct (enumerator_seq_ok query fuel a Hwf Ha) as (s & [Htiles Htypes] & Hend & Hy).
  apply get_assignments_variant in Hy as [Hvar _].
  destruct (from_ranges_fields (TokenSequence.seq s)) as (Hname & _ & _).
  rewrite end_pos_chain_end in Hend.
  assert (forall k, cover_count k (assignment_ranges a)
                    = if k <? num_token_slots query then 1 else 0) as Hcover.
  { intros k. rewrite (variant_cover _ a k Hname Hvar).
    rewrite (from_ranges_cover k _ Htypes), (tiles_cover k _ 0 Htiles), Hend.
    reflexivity. }
  assert (forall r, r ∈ assignment_ranges a -> range_ok (num_token_slots query) r)
    as Hok.
  { apply (variant_range_ok _ _ a Hname Hvar). intros r Hr.
    apply from_ranges_subset in Hr.
    pose proof (tiles_range_ok _ 0 r Htiles Hr) as H. rewrite Hend in H.
    unfold range_ok. lia. }
  split; [exact Hok|]. split.
  - apply cover_disjoint.
    + intros k. rewrite Hcover. destruct (k <? _); lia.
    + intros r Hr. apply Hok, Hr.
  - intros k Hk. apply cover_exists. rewrite Hcover.
    apply Nat.ltb_lt in Hk. rewrite Hk. lia.
Qed.

Lemma assignment_ranges_partition_witness :
  exists a,
    Gen.yields (Run.out (yield_token_assignments 10 street_query)) !! 3 = Some a
    /\ assignment_ranges a = [mkTokenRange 1 2; mkTokenRange 0 1]
    /\ (forall r, r ∈ assignment_ranges a ->
          TokenRange.start r < TokenRange.end_ r <= 2)
    /\ (forall i j r1 r2,
          i <> j ->
          assignment_ranges a !! i = Some r1 ->
          assignment_ranges a !! j = Some r2 ->
          TokenRange.end_ r1 <= TokenRange.start r2
          \/ TokenRange.end_ r2 <= TokenRange.start r1)
    /\ (forall k, k < 2 ->
          exists r, r ∈ assignment_ranges a
                    /\ TokenRange.start r <= k < TokenRange.end_ r).
Proof.
  eexists. split; [vm_compute; reflexivity|]. split; [reflexivity|].
  apply (assignment_ranges_partition street_query 10).
  - vm_compute. reflexivity.
  - apply list_elem_of_lookup. exists 3. vm_compute. reflexivity.
Defined.

(** C7: [advance] never adds a range of a single type to a sequence that
    has one of the type; and an assignment the enumerator yields comes
    from a sequence in which every single type occurs at most once, the
    role of the type being that one range. *)
Theorem single_roles_once (self : TokenSequence.t) (ttype : TokenType)
    (e : nat) (force_break : bool) (break_penalty : Q)
    (query : QueryStruct.t) (fuel : nat) (a : TokenAssignment.t) :
  (ttype ∈ single_types -> has_types self [ttype] = true ->
   advance self ttype e force_break break_penalty = None)
  /\ (a ∈ Gen.yields (Run.out (yield_token_assignments fuel query)) ->
      exists s,
        end_pos s = num_token_slots query
        /\ a ∈ Gen.yields (get_assignments s query)
        /\ forall ttype', ttype' ∈ single_types ->
             count_type ttype' (TokenSequence.seq s) <= 1
             /\ option_list (role ttype' a)
                = ranges_of_type ttype' (TokenSequence.seq s)).
Proof.
  split.
  - intros Ht Hhas. unfold advance, appendable.
    assert (ttype_eqb ttype TOKEN_WORD = false) as ->.
    { unfold single_types in Ht. rewrite !elem_of_cons, elem_of_nil in Ht.
      destruct Ht as [->|[->|[->|[->|[->|[]]]]]]; reflexivity. }
    assert (ttype_eqb ttype TOKEN_PARTIAL = false) as ->.
    { unfold single_types in Ht. rewrite !elem_of_cons, elem_of_nil in Ht.
      destruct Ht as [->|[->|[->|[->|[->|[]]]]]]; reflexivity. }
    rewrite Hhas.
    destruct (TokenSequence.seq self) eqn:Hs; [|reflexivity].
    unfold has_types in Hhas. rewrite Hs in Hhas. discriminate.
  - intros Ha.
    destruct (enumerator_types_ok query fuel a Ha) as (s & Htypes & Hend & Hy).
    exists s. split; [exact Hend|]. split; [exact Hy|].
    apply get_assignments_variant in Hy as [[_ Hroles] _].
    intros t Ht. split; [apply Htypes, Ht|].
    rewrite (Hroles t Ht). apply from_ranges_role; assumption.
Qed.

Lemma single_roles_once_witness :
  advance (TokenSequence.mk [TypedRange.mk TOKEN_HOUSENUMBER (mkTokenRange 0 1)] 1 0)
          TOKEN_HOUSENUMBER 2 true 0.1 = None
  /\ exists a s,
       Gen.yields (Run.out (yield_token_assignments 10 street_query)) !! 3 = Some a
       /\ TokenAssignment.housenumber a = Some (mkTokenRange 0 1)
       /\ end_pos s = 2
       /\ a ∈ Gen.yields (get_assignments s street_query)
       /\ forall ttype', ttype' ∈ single_types ->
            count_type ttype' (TokenSequence.seq s) <= 1
            /\ option_list (role ttype' a)
               = ranges_of_type ttype' (TokenSequence.seq s).
Proof.
  split.
  - apply (single_roles_once
             (TokenSequence.mk [TypedRange.mk TOKEN_HOUSENUMBER (mkTokenRange 0 1)] 1 0)
             TOKEN_HOUSENUMBER 2 true 0.1 street_query 0 TokenAssignment.empty).
    + unfold single_types. rewrite !elem_of_cons. tauto.
    + reflexivity.
  - eexists.
    destruct (proj2 (single_roles_once
                       (TokenSequence.mk [] 0 0) TOKEN_WORD 0 true 0 street_query 10
                       (TokenAssignment.mk 0.1 (Some (mkTokenRange 1 2)) []
                          (Some (mkTokenRange 0 1)) None None None None)))
      as (s & H1 & H2 & H3).
    + apply list_elem_of_lookup. exists 3. vm_compute. reflexivity.
    + exists s. split; [vm_compute; reflexivity|]. split; [reflexivity|].
      split; [exact H1|]. split; [exact H2|exact H3].
Defined.

(** C8: a sequence whose PARTIAL ranges hold more than 50 slots yields
    no assignment, and no assignment the enumerator yields for a
    well-formed query has address ranges that hold more than 50 slots. *)
Theorem long_address_discarded (self : TokenSequence.t) (query : QueryStruct.t)
    (fuel : nat) (a : TokenAssignment.t) :
  ((50 < num_addr_tokens (ranges_of_type TOKEN_PARTIAL (TokenSequence.seq self)))%Z ->
   get_assignments self query = gen_return)
  /\ (wf_query query = true ->
      a ∈ Gen.yields (Run.out (yield_token_assignments fuel query)) ->
      (num_addr_tokens (TokenAssignment.address a) <= 50)%Z).
Proof.
  split.
  - intros H50. unfold get_assignments.
    destruct (from_ranges_fields (TokenSequence.seq self)) as (_ & -> & _).
    apply Z.ltb_lt in H50. rewrite H50. reflexivity.
  - intros Hwf Ha.
    destruct (enumerator_seq_ok query fuel a Hwf Ha) as (s & [Htiles _] & _ & Hy).
    apply get_assignments_variant in Hy as [Hvar H50].
    etransitivity; [|exact H50].
    apply variant_addr_tokens; [exact Hvar|].
    intros r Hr.
    assert (r ∈ map TypedRange.trange (TokenSequence.seq s)) as Hin.
    { apply from_ranges_subset, elem_of_assignment_ranges. tauto. }
    pose proof (tiles_range_ok _ 0 r Htiles Hin). lia.
Qed.

Lemma long_address_discarded_witness :
  get_assignments sixty_partials_seq sixty_partials_query = gen_return
  /\ yield_token_assignments 100 sixty_partials_query = Run.mk gen_return []
  /\ exists a,
       Gen.yields (Run.out (yield_token_assignments 10 street_query)) !! 1 = Some a
       /\ TokenAssignment.address a = [mkTokenRange 1 2]
       /\ (num_addr_tokens (TokenAssignment.address a) <= 50)%Z.
Proof.
  split; [|split].
  - apply (long_address_discarded sixty_partials_seq sixty_partials_query 0
             TokenAssignment.empty).
    vm_compute. reflexivity.
  - vm_compute. reflexivity.
  - eexists. split; [vm_compute; reflexivity|]. split; [reflexivity|].
    apply (long_address_discarded sixty_partials_seq street_query 10).
    + vm_compute. reflexivity.
    + apply list_elem_of_lookup. exists 1. vm_compute. reflexivity.
Defined.

(** *** The enumerator comes to an end *)

Lemma completed_then {A} (g k : Gen.t A) :
  Gen.completed (g ;;; k) = Gen.completed g && Gen.completed k.
Proof. unfold gen_then. destruct (Gen.completed g) eqn:E; simpl; auto. Qed.

Lemma completed_for {A B} (l : list B) (body : B -> Gen.t A) :
  (forall x, x ∈ l -> Gen.completed (body x) = true) ->
  Gen.completed (gen_for l body) = true.
Proof.
  induction l as [|x l IH]; intros Hb; simpl; [reflexivity|].
  rewrite completed_then, Hb, IH; [reflexivity| |constructor].
  intros y Hy. apply Hb. constructor. exact Hy.
Qed.

Lemma wf_query_node (query : QueryStruct.t) (i : nat) :
  wf_query query = true -> i <= num_token_slots query ->
  exists node, node_at query i = Some node.
Proof.
  unfold wf_query, num_token_slots, node_at. intros Hwf Hi.
  apply andb_true_iff in Hwf as [Hlen _]. apply Nat.ltb_lt in Hlen.
  apply lookup_lt_is_Some_2. lia.
Qed.

Lemma postcode_completed (self : TokenSequence.t) (base : TokenAssignment.t)
    (query_len : nat) :
  truthy (TokenAssignment.postcode base) = true ->
  Gen.completed (_get_assignments_postcode self base query_len) = true.
Proof.
  unfold _get_assignments_postcode.
  destruct (TokenAssignment.postcode base); [|discriminate]. intros _. simpl.
  destruct (_ || _); reflexivity.
Qed.

Lemma forward_completed (self : TokenSequence.t) (base : TokenAssignment.t)
    (query : QueryStruct.t) :
  wf_query query = true ->
  TokenAssignment.address base <> [] ->
  (forall r, r ∈ TokenAssignment.address base ->
     TokenRange.end_ r <= num_token_slots query) ->
  (forall r, r ∈ TokenAssignment.address base ->
     TokenRange.start r <= num_token_slots query) ->
  Gen.completed (_get_assignments_address_forward self base query) = true.
Proof.
  intros Hwf Hne Hend Hstart. unfold _get_assignments_address_forward.
  destruct (TokenAssignment.address base) as [|first rest] eqn:Haddr; [congruence|].
  simpl.
  destruct (and_then (TokenAssignment.postcode base) _); [reflexivity|].
  rewrite completed_then. simpl.
  destruct (_ || _); [reflexivity|].
  destruct (wf_query_node query (TokenRange.start first) Hwf) as [node ->].
  { apply Hstart. constructor. }
  simpl. destruct (negb _); [reflexivity|].
  apply completed_for. intros i Hi. apply elem_of_range in Hi. simpl.
  destruct (wf_query_node query i Hwf) as [nodei ->]; [|reflexivity].
  assert (TokenRange.end_ first <= num_token_slots query)
    by (apply Hend; constructor). lia.
Qed.

Lemma backward_completed (self : TokenSequence.t) (base : TokenAssignment.t)
    (query : QueryStruct.t) :
  wf_query query = true ->
  TokenAssignment.address base <> [] ->
  (forall r, r ∈ TokenAssignment.address base ->
     TokenRange.end_ r <= num_token_slots query) ->
  (forall r, r ∈ TokenAssignment.address base ->
     TokenRange.start r <= num_token_slots query) ->
  Gen.completed (_get_assignments_address_backward self base query) = true.
Proof.
  intros Hwf Hne Hend Hstart. unfold _get_assignments_address_backward.
  destruct (last (TokenAssignment.address base)) as [lastr|] eqn:Hlast;
    [|apply last_None in Hlast; congruence].
  apply last_Some_elem_of in Hlast. simpl.
  destruct (and_then (TokenAssignment.postcode base) _); [reflexivity|].
  rewrite completed_then.
  assert (Gen.completed
            (if (TokenSequence.direction self =? -1)%Z
                || (1 <? length (TokenAssignment.address base))
                || truthy (TokenAssignment.postcode base)
             then gen_yield
                    (TokenAssignment.set_address
                       (removelast (TokenAssignment.address base))
                       (TokenAssignment.set_name (Some lastr)
                          (TokenAssignment.set_penalty
                             (if negb (truthy (TokenAssignment.country base))
                                 && (TokenSequence.direction self =? -1)%Z
                                 && Qlt_bool (QueryStruct.dir_penalty query) 0
                              then (TokenSequence.penalty self
                                    - QueryStruct.dir_penalty query)%Q
                              else TokenSequence.penalty self) base)))
             else gen_return) = true) as ->.
  { destruct (_ || _); reflexivity. }
  simpl.
  destruct (_ || _); [reflexivity|].
  destruct (wf_query_node query (TokenRange.start lastr) Hwf) as [node ->].
  { apply Hstart, Hlast. }
  simpl. destruct (negb _); [reflexivity|].
  apply completed_for. intros i Hi. apply elem_of_range in Hi. simpl.
  destruct (wf_query_node query i Hwf) as [nodei ->]; [|reflexivity].
  specialize (Hend lastr Hlast). lia.
Qed.

(** For a sequence over a well-formed query, [get_assignments] raises
    nothing. *)
Lemma get_assignments_completed (self : TokenSequence.t) (query : QueryStruct.t) :
  wf_query query = true ->
  seq_ok (TokenSequence.seq self) ->
  end_pos self = num_token_slots query ->
  Gen.completed (get_assignments self query) = true.
Proof.
  intros Hwf [Htiles Htypes] Hend. unfold get_assignments.
  set (base := from_ranges (TokenSequence.seq self)).
  assert (forall r, r ∈ TokenAssignment.address base ->
            TokenRange.start r <= num_token_slots query
            /\ TokenRange.end_ r <= num_token_slots query) as Hin.
  { intros r Hr.
    assert (r ∈ map TypedRange.trange (TokenSequence.seq self)) as Hr'.
    { apply from_ranges_subset, elem_of_assignment_ranges. tauto. }
    pose proof (tiles_range_ok _ 0 r Htiles Hr') as H.
    rewrite <- end_pos_chain_end, Hend in H. lia. }
  destruct (50 <? _)%Z; [reflexivity|].
  rewrite completed_then.
  assert (Gen.completed
            (if truthy (TokenAssignment.postcode base)
                && negb (length (TokenAssignment.address base) =? 0)
             then _get_assignments_postcode self base (num_token_slots query)
             else gen_return) = true) as ->.
  { destruct (truthy (TokenAssignment.postcode base)) eqn:Hp; [|reflexivity].
    simpl. destruct (negb _); [|reflexivity]. apply postcode_completed, Hp. }
  simpl.
  destruct (length (TokenAssignment.address base) =? 0) eqn:Hlen.
  { destruct (_ && _); reflexivity. }
  assert (TokenAssignment.address base <> []) as Hne.
  { intros E. rewrite E in Hlen. discriminate. }
  rewrite !completed_then.
  apply andb_true_iff. split; [|apply andb_true_iff; split].
  - destruct (negb _); [|reflexivity].
    apply forward_completed; try assumption; intros r Hr; apply Hin, Hr.
  - destruct (negb _); [|reflexivity].
    apply backward_completed; try assumption; intros r Hr; apply Hin, Hr.
  - destruct (_ && _); reflexivity.
Qed.

Section Termination.

Variable query : QueryStruct.t.
Hypothesis Hwf : wf_query query = true.

Lemma append_state_pushes (todo : list TokenSequence.t)
    (newstate : option TokenSequence.t) (p : nat) :
  (forall s', newstate = Some s' ->
     seq_ok (TokenSequence.seq s') /\ p <= end_pos s' <= num_token_slots query) ->
  Gen.completed (fst (_append_state_to_todo query todo newstate)) = true
  /\ exists pushed,
       snd (_append_state_to_todo query todo newstate) = pushed ++ todo
       /\ length pushed <= 1
       /\ Forall (pending_ok query p) pushed.
Proof.
  intros Hnew. unfold _append_state_to_todo.
  destruct newstate as [s'|];
    [|split; [reflexivity|exists []; simpl; auto]].
  destruct (Hnew s' eq_refl) as [Hok Hpos].
  destruct (end_pos s' =? num_token_slots query) eqn:Hend.
  - apply Nat.eqb_eq in Hend.
    pose proof (recheck_sequence_seq s') as Hseq.
    destruct (recheck_sequence s') as [ok s'']. simpl in Hseq.
    destruct ok; simpl; (split; [|exists []; simpl; auto]); [|reflexivity].
    apply get_assignments_completed; [exact Hwf|rewrite Hseq; exact Hok|].
    rewrite (end_pos_seq s'' s' Hseq). exact Hend.
  - apply Nat.eqb_neq in Hend.
    destruct (negb (is_final s')); simpl;
      (split; [reflexivity|]); [|exists []; simpl; auto].
    exists [s']. simpl. split; [reflexivity|]. split; [lia|].
    constructor; [|constructor]. split; [exact Hok|lia].
Qed.

Lemma for_starting_pushes (state : TokenSequence.t) (node : QueryNode.t)
    (tlists : list TokenList.t) :
  seq_ok (TokenSequence.seq state) ->
  node_at query (end_pos state) = Some node ->
  (forall tlist, tlist ∈ tlists -> tlist ∈ QueryNode.starting node) ->
  forall todo,
    Gen.completed (fst (for_starting query state node tlists todo)) = true
    /\ exists pushed,
         snd (for_starting query state node tlists todo) = pushed ++ todo
         /\ length pushed <= length tlists
         /\ Forall (pending_ok query (S (end_pos state))) pushed.
Proof.
  intros [Htiles Htypes] Hnode.
  induction tlists as [|tlist tlists IH]; intros Hin todo.
  - simpl. split; [reflexivity|]. exists []. simpl. auto.
  - simpl.
    destruct (append_state_pushes todo
                (advance state (TokenList.ttype tlist) (TokenList.end_ tlist) true
                         (QueryNode.word_break_penalty node))
                (S (end_pos state))) as [Hc (pushed1 & Hp1 & Hl1 & Hf1)].
    { intros s' Hs'.
      pose proof (wf_query_tlist query _ node tlist Hwf Hnode
                    (Hin tlist ltac:(constructor))) as Hrange.
      destruct (advance_tiles _ _ _ _ _ _ Htiles (proj1 Hrange) Hs') as [Ht He].
      split; [split; [exact Ht|eapply advance_types_ok; eassumption]|]. lia. }
    destruct (_append_state_to_todo _ _ _) as [g todo1]. simpl in Hc, Hp1.
    rewrite Hc.
    destruct (IH (fun t Ht' => Hin t (list_elem_of_further _ _ _ Ht')) todo1)
      as [Hc' (pushed2 & Hp2 & Hl2 & Hf2)].
    destruct (for_starting query state node tlists todo1) as [g' todo2].
    simpl in *. split; [rewrite completed_then, Hc, Hc'; reflexivity|].
    exists (pushed2 ++ pushed1). rewrite Hp2, Hp1, app_assoc.
    split; [reflexivity|]. split; [rewrite length_app; lia|].
    apply Forall_app. split; assumption.
Qed.

Lemma starting_le_branching (i : nat) (node : QueryNode.t) :
  node_at query i = Some node ->
  S (length (QueryNode.starting node)) <= branching query.
Proof.
  unfold node_at, branching. intros Hnode. apply le_n_S.
  pose proof (proj1 (list_max_le
                       (map (fun node => length (QueryNode.starting node))
                            (QueryStruct.nodes query)) _) (le_n _)) as Hall.
  rewrite List.Forall_forall in Hall. apply Hall.
  apply in_map_iff. exists node. split; [reflexivity|].
  apply list_elem_of_In, list_elem_of_lookup. eauto.
Qed.

Lemma loop_body_pushes (state : TokenSequence.t) (todo : list TokenSequence.t) :
  pending_ok query 0 state ->
  Gen.completed (fst (loop_body query state todo)) = true
  /\ exists pushed,
       snd (loop_body query state todo) = pushed ++ todo
       /\ length pushed <= branching query
       /\ Forall (pending_ok query (S (end_pos state))) pushed.
Proof.
  intros [Hok Hpos]. unfold loop_body.
  destruct (wf_query_node query (end_pos state) Hwf ltac:(lia)) as [node Hnode].
  rewrite Hnode.
  pose proof (starting_le_branching _ node Hnode) as Hb.
  destruct (for_starting_pushes state node (QueryNode.starting node) Hok Hnode
              (fun t H => H) todo) as [Hc (pushed1 & Hp1 & Hl1 & Hf1)].
  destruct (for_starting query state node _ todo) as [g todo1]. simpl in Hc, Hp1.
  rewrite Hc.
  destruct (QueryNode.partial node).
  - destruct (append_state_pushes todo1
                (advance state TOKEN_PARTIAL (end_pos state + 1)
                         (btype_eqb (QueryNode.btype node) BREAK_PHRASE)
                         (QueryNode.word_break_penalty node))
                (S (end_pos state))) as [Hc' (pushed2 & Hp2 & Hl2 & Hf2)].
    { intros s' Hs'. destruct Hok as [Htiles Htypes].
      destruct (advance_tiles state s' TOKEN_PARTIAL (end_pos state + 1) _ _
                  Htiles ltac:(lia) Hs') as [Ht He].
      split; [split; [exact Ht|eapply advance_types_ok; eassumption]|]. lia. }
    destruct (_append_state_to_todo _ _ _) as [g' todo2]. simpl in *.
    split; [rewrite completed_then, Hc, Hc'; reflexivity|].
    exists (pushed2 ++ pushed1). rewrite Hp2, Hp1, app_assoc.
    split; [reflexivity|]. split; [rewrite length_app; lia|].
    apply Forall_app. split; assumption.
  - simpl. split; [exact Hc|]. exists pushed1.
    split; [exact Hp1|]. split; [lia|exact Hf1].
Qed.

Lemma weight_pos (b d : nat) : 1 <= weight b d.
Proof. destruct d; simpl; lia. Qed.

Lemma weight_mono (b d d' : nat) : 1 <= b -> d <= d' -> weight b d <= weight b d'.
Proof.
  intros Hb Hd. induction Hd as [|d' Hd IH]; [lia|].
  simpl. pose proof (weight_pos b d'). nia.
Qed.

Lemma potential_app (todo todo' : list TokenSequence.t) :
  potential query (todo ++ todo') = potential query todo + potential query todo'.
Proof. unfold potential. rewrite map_app, list_sum_app. reflexivity. Qed.

Lemma potential_pushed (p : nat) (pushed : list TokenSequence.t) :
  Forall (pending_ok query (S p)) pushed ->
  potential query pushed
  <= length pushed * weight (branching query) (num_token_slots query - S p).
Proof.
  induction 1 as [|s pushed [_ Hs] _ IH]; [unfold potential; simpl; lia|].
  unfold potential in *. simpl.
  pose proof (weight_mono (branching query)
                (num_token_slots query - end_pos s)
                (num_token_slots query - S p)
                ltac:(unfold branching; lia) ltac:(lia)).
  lia.
Qed.

Lemma run_todo_finishes (fuel : nat) :
  forall todo,
    Forall (pending_ok query 0) todo ->
    potential query todo <= fuel ->
    finished (run_todo fuel query todo) = true.
Proof.
  induction fuel as [|fuel IH]; intros todo Htodo Hpot.
  - destruct todo as [|s todo]; [reflexivity|].
    unfold potential in Hpot. simpl in Hpot.
    pose proof (weight_pos (branching query) (num_token_slots query - end_pos s)).
    lia.
  - destruct todo as [|state todo]; [reflexivity|].
    inversion Htodo as [|? ? Hstate Hrest]; subst.
    cbn [run_todo].
    destruct (loop_body_pushes state todo Hstate) as [Hc (pushed & Hp & Hl & Hf)].
    destruct (loop_body query state todo) as [g todo1]. simpl in Hc, Hp.
    rewrite Hc. subst todo1.
    assert (finished (run_todo fuel query (pushed ++ todo)) = true) as Hfin.
    { apply IH.
      - apply Forall_app. split; [|exact Hrest].
        eapply Forall_impl; [exact Hf|]. intros s [Hs1 Hs2]. split; [exact Hs1|lia].
      - rewrite potential_app.
        pose proof (potential_pushed _ _ Hf) as Hpp.
        destruct Hstate as [_ Hpos].
        change (potential query (state :: todo))
          with (weight (branching query) (num_token_slots query - end_pos state)
                + potential query todo) in Hpot.
        replace (num_token_slots query - end_pos state)
          with (S (num_token_slots query - S (end_pos state))) in Hpot by lia.
        cbn [weight] in Hpot.
        assert (length pushed
                * weight (branching query) (num_token_slots query - S (end_pos state))
                <= branching query
                   * weight (branching query)
                       (num_token_slots query - S (end_pos state)))
          by (apply Nat.mul_le_mono_r; exact Hl).
        lia. }
    unfold finished in *. simpl. rewrite completed_then, Hc. exact Hfin.
Qed.

(** On a well-formed query with at least one term, the enumerator runs
    to its end without raising, within a number of rounds the query
    bounds. *)
Lemma yield_token_assignments_finishes :
  QueryStruct.source query <> [] ->
  0 < num_token_slots query ->
  finished (yield_token_assignments
              (weight (branching query) (num_token_slots query)) query) = true.
Proof.
  intros Hsrc Hn. unfold yield_token_assignments.
  destruct (QueryStruct.source query) as [|phrase rest]; [congruence|]. simpl.
  apply run_todo_finishes.
  - constructor; [|constructor]. split; [split; [exact I|apply types_ok_nil]|].
    unfold end_pos. simpl. lia.
  - unfold potential, end_pos. simpl. rewrite Nat.sub_0_r. lia.
Qed.

End Termination.

(** * Further properties

    ** The states of the enumerator *)

Section EnumeratorStates.

Variable query : QueryStruct.t.

(** [Pend] holds of the sequences on the work list, [Adv] of what
    [advance] makes of them, [Done] of the sequences that
    [get_assignments] is called on. *)
Variables Pend Adv Done : TokenSequence.t -> Prop.

Hypothesis Adv_tlist :
  forall self node tlist s',
    Pend self ->
    node_at query (end_pos self) = Some node ->
    tlist ∈ QueryNode.starting node ->
    advance self (TokenList.ttype tlist) (TokenList.end_ tlist) true
            (QueryNode.word_break_penalty node) = Some s' ->
    Adv s'.

Hypothesis Adv_partial :
  forall self node force_break s',
    Pend self ->
    node_at query (end_pos self) = Some node ->
    advance self TOKEN_PARTIAL (end_pos self + 1) force_break
            (QueryNode.word_break_penalty node) = Some s' ->
    Adv s'.

Hypothesis Pend_push :
  forall s', Adv s' -> is_final s' = false ->
             end_pos s' <> num_token_slots query -> Pend s'.

Hypothesis Done_recheck :
  forall s' s'', Adv s' -> end_pos s' = num_token_slots query ->
                 recheck_sequence s' = (true, s'') -> Done s''.

Lemma append_state_states (todo : list TokenSequence.t)
    (newstate : option TokenSequence.t) :
  (forall s', newstate = Some s' -> Adv s') ->
  Forall Pend todo ->
  (forall a, a ∈ Gen.yields (fst (_append_state_to_todo query todo newstate)) ->
             from_done query Done a)
  /\ Forall Pend (snd (_append_state_to_todo query todo newstate)).
Proof.
  intros Hnew Htodo. unfold _append_state_to_todo.
  destruct newstate as [s'|]; [|split; [intros a H; inversion H|exact Htodo]].
  specialize (Hnew s' eq_refl).
  destruct (end_pos s' =? num_token_slots query) eqn:Hend.
  - apply Nat.eqb_eq in Hend.
    pose proof (recheck_sequence_seq s') as Hseq.
    pose proof (Done_recheck s') as Hdone.
    destruct (recheck_sequence s') as [ok s'']. simpl in Hseq.
    destruct ok; simpl; (split; [|exact Htodo]); [|intros a H; inversion H].
    intros a Ha. exists s''. split; [apply Hdone; auto|]. split; [|exact Ha].
    unfold end_pos in *. rewrite Hseq. exact Hend.
  - apply Nat.eqb_neq in Hend.
    destruct (is_final s') eqn:Hfin; simpl;
      (split; [intros a H; inversion H|]); [exact Htodo|].
    constructor; [|exact Htodo]. apply Pend_push; assumption.
Qed.

Lemma for_starting_states (state : TokenSequence.t) (node : QueryNode.t)
    (tlists : list TokenList.t) :
  Pend state ->
  node_at query (end_pos state) = Some node ->
  (forall tlist, tlist ∈ tlists -> tlist ∈ QueryNode.starting node) ->
  forall todo,
    Forall Pend todo ->
    (forall a, a ∈ Gen.yields (fst (for_starting query state node tlists todo)) ->
               from_done query Done a)
    /\ Forall Pend (snd (for_starting query state node tlists todo)).
Proof.
  intros Hstate Hnode. induction tlists as [|tlist tlists IH]; intros Hin todo Htodo.
  - simpl. split; [intros a H; inversion H|exact Htodo].
  - simpl.
    destruct (append_state_states todo
                (advance state (TokenList.ttype tlist) (TokenList.end_ tlist) true
                         (QueryNode.word_break_penalty node))) as [Hy Ht];
      [|exact Htodo|].
    { intros s' Hs'. eapply Adv_tlist; [exact Hstate|exact Hnode| |exact Hs'].
      apply Hin. constructor. }
    destruct (_append_state_to_todo _ _ _) as [g todo1]. simpl in Hy, Ht.
    destruct (Gen.completed g) eqn:Hg; [|split; assumption].
    destruct (IH (fun t Ht' => Hin t (list_elem_of_further _ _ _ Ht')) todo1 Ht)
      as [Hy' Ht'].
    destruct (for_starting query state node tlists todo1) as [g' todo2].
    simpl in *. split; [|exact Ht'].
    intros a Ha. apply elem_gen_then in Ha as [Ha|Ha]; auto.
Qed.

Lemma loop_body_states (state : TokenSequence.t) (todo : list TokenSequence.t) :
  Pend state -> Forall Pend todo ->
  (forall a, a ∈ Gen.yields (fst (loop_body query state todo)) ->
             from_done query Done a)
  /\ Forall Pend (snd (loop_body query state todo)).
Proof.
  intros Hstate Htodo. unfold loop_body.
  destruct (node_at query (end_pos state)) as [node|] eqn:Hnode;
    [|split; [intros a H; inversion H|exact Htodo]].
  destruct (for_starting_states state node (QueryNode.starting node) Hstate Hnode
              (fun t H => H) todo Htodo) as [Hy Ht].
  destruct (for_starting query state node _ todo) as [g todo1]. simpl in Hy, Ht.
  destruct (Gen.completed g); [|split; assumption].
  destruct (QueryNode.partial node); [|split; assumption].
  destruct (append_state_states todo1
              (advance state TOKEN_PARTIAL (end_pos state + 1)
                       (btype_eqb (QueryNode.btype node) BREAK_PHRASE)
                       (QueryNode.word_break_penalty node))) as [Hy' Ht'];
    [|exact Ht|].
  { intros s' Hs'. eapply Adv_partial; [exact Hstate|exact Hnode|exact Hs']. }
  destruct (_append_state_to_todo _ _ _) as [g' todo2]. simpl in *.
  split; [|exact Ht'].
  intros a Ha. apply elem_gen_then in Ha as [Ha|Ha]; auto.
Qed.

Lemma run_todo_states (fuel : nat) :
  forall todo,
    Forall Pend todo ->
    (forall a, a ∈ Gen.yields (Run.out (run_todo fuel query todo)) ->
               from_done query Done a)
    /\ Forall Pend (Run.todo (run_todo fuel query todo)).
Proof.
  induction fuel as [|fuel IH]; intros todo Htodo.
  - destruct todo; simpl; (split; [intros a H; inversion H|]);
      [constructor|exact Htodo].
  - destruct todo as [|state todo]; simpl.
    { split; [intros a H; inversion H|constructor]. }
    inversion Htodo as [|? ? Hstate Hrest]; subst.
    destruct (loop_body_states state todo Hstate Hrest) as [Hy Ht].
    destruct (loop_body query state todo) as [g todo1]. simpl in Hy, Ht.
    destruct (Gen.completed g); simpl; [|split; assumption].
    destruct (IH todo1 Ht) as [Hy' Ht']. split; [|exact Ht'].
    intros a Ha. apply elem_gen_then in Ha as [Ha|Ha]; auto.
Qed.

(** Whatever the enumerator yields comes from a sequence that satisfies
    [Done], if the first sequence satisfies [Pend]. *)
Lemma yield_token_assignments_states (fuel : nat) (a : TokenAssignment.t) :
  (forall d, Pend (TokenSequence.mk [] d 0)) ->
  a ∈ Gen.yields (Run.out (yield_token_assignments fuel query)) ->
  from_done query Done a.
Proof.
  intros Hinit. unfold yield_token_assignments.
  destruct (head (QueryStruct.source query)); [|intros H; inversion H].
  apply run_todo_states. constructor; [apply Hinit|constructor].
Qed.

End EnumeratorStates.

(** ** Penalties never go down *)

Lemma Qlt_bool_lt (x y : Q) : Qlt_bool x y = true -> (x < y)%Q.
Proof.
  unfold Qlt_bool. rewrite negb_true_iff, <- not_true_iff_false, Qle_bool_iff.
  intros H. lra.
Qed.

(** Split the conditions of the penalties that hold, and turn the
    comparisons of rationals among them into propositions. *)
Ltac penalty_facts :=
  repeat match goal with
  | H : _ && _ = true |- _ => apply andb_true_iff in H; destruct H
  | H : Qlt_bool _ _ = true |- _ => apply Qlt_bool_lt in H
  end.

Lemma extra_address_penalty_nonneg (address : list TokenRange.t) :
  (0 <= extra_address_penalty address)%Q.
Proof.
  unfold extra_address_penalty.
  assert (0 <= inject_Z (Z.max 0 (Z.of_nat (length address) - 1)))%Q as H.
  { unfold Qle. simpl. lia. }
  nra.
Qed.

Lemma advance_penalty (self s' : TokenSequence.t) (ttype : TokenType) (e : nat)
    (force_break : bool) (break_penalty : Q) :
  (0 <= break_penalty)%Q ->
  advance self ttype e force_break break_penalty = Some s' ->
  (TokenSequence.penalty self <= TokenSequence.penalty s')%Q.
Proof.
  intros Hbp. unfold advance.
  destruct (appendable self ttype); [|discriminate].
  destruct (last (TokenSequence.seq self)); [destruct (_ && _)|];
    intros H; inversion H; subst; simpl; lra.
Qed.

Lemma adapt_penalty_bounds (self : TokenSequence.t) (priors : nat) (new_dir : Z) :
  (TokenSequence.penalty self
   <= TokenSequence.penalty (snd (_adapt_penalty_from_priors self priors new_dir))
   <= TokenSequence.penalty self + 0.8)%Q.
Proof.
  unfold _adapt_penalty_from_priors.
  destruct (2 <=? priors); [destruct (_ =? 0)%Z; [|destruct (priors =? 2)]|];
    simpl; lra.
Qed.

(** [recheck_sequence] adds at most 0.8 for each side of the house
    number and 1 for a near item, and takes nothing off. *)
Lemma recheck_sequence_penalty (self : TokenSequence.t) :
  (TokenSequence.penalty self
   <= TokenSequence.penalty (snd (recheck_sequence self))
   <= TokenSequence.penalty self + 2.6)%Q.
Proof.
  unfold recheck_sequence.
  destruct (index_of_type _ _) as [hnrpos|]; [|simpl; lra].
  set (r1 := if negb (TokenSequence.direction self =? -1)%Z
             then _adapt_penalty_from_priors self _ (-1) else (true, self)).
  assert (TokenSequence.penalty self <= TokenSequence.penalty (snd r1)
          <= TokenSequence.penalty self + 0.8)%Q as H1.
  { subst r1. destruct (negb _); [apply adapt_penalty_bounds|simpl; lra]. }
  destruct r1 as [ok1 self1]. simpl in H1.
  destruct ok1; simpl; [|lra].
  set (r2 := if negb (TokenSequence.direction self1 =? 1)%Z
             then _adapt_penalty_from_priors self1 _ 1 else (true, self1)).
  assert (TokenSequence.penalty self1 <= TokenSequence.penalty (snd r2)
          <= TokenSequence.penalty self1 + 0.8)%Q as H2.
  { subst r2. destruct (negb _); [apply adapt_penalty_bounds|simpl; lra]. }
  destruct r2 as [ok2 self2]. simpl in H2.
  destruct ok2; simpl; [|lra].
  destruct (existsb _ _); simpl; lra.
Qed.

Lemma postcode_penalty (self : TokenSequence.t) (base a : TokenAssignment.t)
    (query_len : nat) :
  a ∈ Gen.yields (_get_assignments_postcode self base query_len) ->
  (TokenSequence.penalty self <= TokenAssignment.penalty a)%Q.
Proof.
  unfold _get_assignments_postcode. intros H.
  apply elem_gen_try in H as (postcode & _ & H).
  destruct (_ || _); [|destruct (elem_gen_return _ H)].
  apply elem_gen_yield in H. subst a. simpl.
  pose proof (extra_address_penalty_nonneg (TokenAssignment.address base)).
  destruct (_ =? 0); lra.
Qed.

Lemma forward_penalty (self : TokenSequence.t) (base a : TokenAssignment.t)
    (query : QueryStruct.t) :
  penalties_nonneg query ->
  a ∈ Gen.yields (_get_assignments_address_forward self base query) ->
  (TokenSequence.penalty self <= TokenAssignment.penalty a)%Q.
Proof.
  intros Hnn. unfold _get_assignments_address_forward. intros H.
  apply elem_gen_try in H as (first & _ & H).
  destruct (and_then (TokenAssignment.postcode base) _);
    [destruct (elem_gen_return _ H)|].
  apply elem_gen_then in H as [H|H].
  - apply elem_gen_yield in H. subst a. simpl.
    destruct (_ && _) eqn:E; [penalty_facts|]; lra.
  - destruct (_ || _); [destruct (elem_gen_return _ H)|].
    apply elem_gen_try in H as (node & _ & H).
    destruct (negb _); [destruct (elem_gen_return _ H)|].
    apply elem_gen_for in H as (i & _ & H).
    simpl in H. apply elem_gen_try in H as (nodei & Hnodei & H).
    apply elem_gen_yield in H. subst a. simpl.
    pose proof (Hnn i nodei Hnodei).
    destruct (negb (truthy (TokenAssignment.country base)) && _ && _) eqn:E1;
      destruct (_ || _);
      destruct ((TokenSequence.direction self =? 0)%Z && _) eqn:E3;
      penalty_facts; lra.
Qed.

Lemma backward_penalty (self : TokenSequence.t) (base a : TokenAssignment.t)
    (query : QueryStruct.t) :
  penalties_nonneg query ->
  a ∈ Gen.yields (_get_assignments_address_backward self base query) ->
  (TokenSequence.penalty self <= TokenAssignment.penalty a)%Q.
Proof.
  intros Hnn. unfold _get_assignments_address_backward. intros H.
  apply elem_gen_try in H as (lastr & _ & H).
  destruct (and_then (TokenAssignment.postcode base) _);
    [destruct (elem_gen_return _ H)|].
  apply elem_gen_then in H as [H|H].
  - destruct (_ || _); [|destruct (elem_gen_return _ H)].
    apply elem_gen_yield in H. subst a. simpl.
    destruct (_ && _) eqn:E; [penalty_facts|]; lra.
  - destruct (_ || _); [destruct (elem_gen_return _ H)|].
    apply elem_gen_try in H as (node & _ & H).
    destruct (negb _); [destruct (elem_gen_return _ H)|].
    apply elem_gen_for in H as (i & _ & H).
    simpl in H. apply elem_gen_try in H as (nodei & Hnodei & H).
    apply elem_gen_yield in H. subst a. simpl.
    pose proof (Hnn i nodei Hnodei).
    destruct (negb (truthy (TokenAssignment.country base)) && _ && _) eqn:E1;
      destruct (and_then (TokenAssignment.housenumber base) _);
      destruct (1 <? _);
      destruct ((TokenSequence.direction self =? 0)%Z && _) eqn:E3;
      penalty_facts; lra.
Qed.

(** No assignment costs less than its sequence. *)
Lemma get_assignments_penalty (self : TokenSequence.t) (query : QueryStruct.t)
    (a : TokenAssignment.t) :
  penalties_nonneg query ->
  a ∈ Gen.yields (get_assignments self query) ->
  (TokenSequence.penalty self <= TokenAssignment.penalty a)%Q.
Proof.
  intros Hnn. unfold get_assignments. intros H.
  destruct (50 <? _)%Z; [destruct (elem_gen_return _ H)|].
  apply elem_gen_then in H as [H|H].
  { destruct (_ && _); [|destruct (elem_gen_return _ H)].
    eapply postcode_penalty, H. }
  destruct (length _ =? 0).
  { destruct (_ && _); [|destruct (elem_gen_return _ H)].
    apply elem_gen_yield in H. subst a. simpl. lra. }
  set (self' := if and_then (TokenAssignment.postcode _) _
                then add_seq_penalty 0.1 self else self) in H.
  assert (TokenSequence.penalty self <= TokenSequence.penalty self')%Q as Hself.
  { subst self'. destruct (and_then _ _); simpl; lra. }
  apply elem_gen_then in H as [H|H].
  { destruct (negb _); [|destruct (elem_gen_return _ H)].
    pose proof (forward_penalty _ _ _ _ Hnn H). lra. }
  apply elem_gen_then in H as [H|H].
  { destruct (negb _); [|destruct (elem_gen_return _ H)].
    pose proof (backward_penalty _ _ _ _ Hnn H). lra. }
  destruct (_ && _); [|destruct (elem_gen_return _ H)].
  apply elem_gen_yield in H. subst a. simpl. lra.
Qed.

(** X2: when no break of the query has a negative penalty, no assignment
    the enumerator yields has a negative penalty. *)
Theorem assignment_penalty_nonneg (query : QueryStruct.t) (fuel : nat)
    (a : TokenAssignment.t) :
  penalties_nonneg query ->
  a ∈ Gen.yields (Run.out (yield_token_assignments fuel query)) ->
  (0 <= TokenAssignment.penalty a)%Q.
Proof.
  intros Hnn Ha.
  pose (P := fun s : TokenSequence.t => (0 <= TokenSequence.penalty s)%Q).
  destruct (yield_token_assignments_states query P P P) with (fuel := fuel) (a := a)
    as (s & Hs & _ & Hy).
  - intros self node tlist s' Hself Hnode _ Hadv. unfold P in *.
    pose proof (advance_penalty _ _ _ _ _ _ (Hnn _ _ Hnode) Hadv). lra.
  - intros self node fb s' Hself Hnode Hadv. unfold P in *.
    pose proof (advance_penalty _ _ _ _ _ _ (Hnn _ _ Hnode) Hadv). lra.
  - auto.
  - intros s' s'' Hs' _ Hre. unfold P in *.
    pose proof (recheck_sequence_penalty s') as Hb. rewrite Hre in Hb. simpl in Hb.
    lra.
  - intros d. unfold P. simpl. lra.
  - exact Ha.
  - unfold P in Hs. pose proof (get_assignments_penalty _ _ _ Hnn Hy). lra.
Qed.

Lemma street_query_penalties_nonneg : penalties_nonneg street_query.
Proof.
  intros i node Hnode. unfold node_at in Hnode.
  destruct i as [|[|[|i]]]; simpl in Hnode; inversion Hnode; subst; simpl;
    unfold Qle; simpl; lia.
Qed.

Lemma assignment_penalty_nonneg_witness :
  exists a,
    Gen.yields (Run.out (yield_token_assignments 10 street_query)) !! 4 = Some a
    /\ (0 <= TokenAssignment.penalty a)%Q.
Proof.
  eexists. split; [vm_compute; reflexivity|].
  apply (assignment_penalty_nonneg street_query 10).
  - exact street_query_penalties_nonneg.
  - apply list_elem_of_lookup. exists 4. vm_compute. reflexivity.
Defined.

(** ** What an assignment is made of *)

(** X3: every assignment [get_assignments] yields gives something to
    search by: a name, a house number, a postcode, a country or a near
    item. *)
Theorem assignment_searchable (self : TokenSequence.t) (query : QueryStruct.t)
    (a : TokenAssignment.t) :
  a ∈ Gen.yields (get_assignments self query) ->
  truthy (TokenAssignment.name a) = true
  \/ truthy (TokenAssignment.housenumber a) = true
  \/ truthy (TokenAssignment.postcode a) = true
  \/ truthy (TokenAssignment.country a) = true
  \/ truthy (TokenAssignment.near_item a) = true.
Proof.
  unfold get_assignments. intros H.
  destruct (50 <? _)%Z; [destruct (elem_gen_return _ H)|].
  apply elem_gen_then in H as [H|H].
  { destruct (truthy (TokenAssignment.postcode _)) eqn:Hp; simpl in H;
      [|destruct (elem_gen_return _ H)].
    destruct (negb _); [|destruct (elem_gen_return _ H)].
    apply postcode_variant in H as [_ Hroles].
    specialize (Hroles TOKEN_POSTCODE). simpl in Hroles.
    rewrite Hroles; [tauto|]. unfold single_types. rewrite !elem_of_cons. tauto. }
  destruct (length _ =? 0).
  { destruct (_ && _) eqn:E; [|destruct (elem_gen_return _ H)].
    apply elem_gen_yield in H. subst a. simpl.
    apply andb_true_iff in E as [_ E]. rewrite !orb_true_iff in E. tauto. }
  apply elem_gen_then in H as [H|H].
  { destruct (negb _); [|destruct (elem_gen_return _ H)].
    left. unfold _get_assignments_address_forward in H.
    apply elem_gen_try in H as (first & _ & H).
    destruct (and_then _ _); [destruct (elem_gen_return _ H)|].
    apply elem_gen_then in H as [H|H].
    - apply elem_gen_yield in H. subst a. reflexivity.
    - destruct (_ || _); [destruct (elem_gen_return _ H)|].
      apply elem_gen_try in H as (node & _ & H).
      destruct (negb _); [destruct (elem_gen_return _ H)|].
      apply elem_gen_for in H as (i & _ & H). simpl in H.
      apply elem_gen_try in H as (nodei & _ & H).
      apply elem_gen_yield in H. subst a. reflexivity. }
  apply elem_gen_then in H as [H|H].
  { destruct (negb _); [|destruct (elem_gen_return _ H)].
    left. unfold _get_assignments_address_backward in H.
    apply elem_gen_try in H as (lastr & _ & H).
    destruct (and_then _ _); [destruct (elem_gen_return _ H)|].
    apply elem_gen_then in H as [H|H].
    - destruct (_ || _); [|destruct (elem_gen_return _ H)].
      apply elem_gen_yield in H. subst a. reflexivity.
    - destruct (_ || _); [destruct (elem_gen_return _ H)|].
      apply elem_gen_try in H as (node & _ & H).
      destruct (negb _); [destruct (elem_gen_return _ H)|].
      apply elem_gen_for in H as (i & _ & H). simpl in H.
      apply elem_gen_try in H as (nodei & _ & H).
      apply elem_gen_yield in H. subst a. reflexivity. }
  destruct (_ && _) eqn:E; [|destruct (elem_gen_return _ H)].
  apply elem_gen_yield in H. subst a. simpl.
  apply andb_true_iff in E as [E _]. tauto.
Qed.

Lemma assignment_searchable_witness :
  exists a,
    Gen.yields (get_assignments seq_address_postcode query_two_slots) !! 1 = Some a
    /\ (truthy (TokenAssignment.name a) = true
        \/ truthy (TokenAssignment.housenumber a) = true
        \/ truthy (TokenAssignment.postcode a) = true
        \/ truthy (TokenAssignment.country a) = true
        \/ truthy (TokenAssignment.near_item a) = true).
Proof.
  eexists. split; [vm_compute; reflexivity|].
  apply (assignment_searchable seq_address_postcode query_two_slots).
  apply list_elem_of_lookup. exists 1. vm_compute. reflexivity.
Defined.

(** X4: [from_ranges] gives no name and penalty 0, lists the PARTIAL
    ranges in their order as the address, drops the WORD ranges, and
    fills every other role with the last range of its type. *)
Theorem from_ranges_roles (s : list TypedRange.t) :
  TokenAssignment.name (from_ranges s) = None
  /\ (TokenAssignment.penalty (from_ranges s) == 0)%Q
  /\ TokenAssignment.address (from_ranges s) = ranges_of_type TOKEN_PARTIAL s
  /\ (forall ttype, ttype ∈ single_types ->
        role ttype (from_ranges s) = last (ranges_of_type ttype s))
  /\ (forall r, r ∈ assignment_ranges (from_ranges s) ->
        exists tr, tr ∈ s /\ TypedRange.trange tr = r
                   /\ TypedRange.ttype tr <> TOKEN_WORD).
Proof.
  destruct (from_ranges_fields s) as (Hname & Haddr & Hrole).
  split; [exact Hname|]. split; [|split; [exact Haddr|split; [exact Hrole|]]].
  - clear Hname Haddr Hrole.
    induction s as [|r s IH] using rev_ind; [reflexivity|].
    rewrite from_ranges_snoc. unfold from_ranges_step.
    destruct (TypedRange.ttype r); exact IH.
  - intros r Hr. apply elem_of_assignment_ranges in Hr.
    assert (forall t, t <> TOKEN_WORD -> r ∈ ranges_of_type t s ->
              exists tr, tr ∈ s /\ TypedRange.trange tr = r
                         /\ TypedRange.ttype tr <> TOKEN_WORD) as Hfind.
    { intros t Ht Hin. unfold ranges_of_type in Hin.
      apply list_elem_of_In, in_map_iff in Hin as (tr & Htr & Hin).
      apply filter_In in Hin as [Hin Hty]. apply ttype_eqb_eq in Hty.
      exists tr. split; [apply list_elem_of_In, Hin|]. split; congruence. }
    destruct Hr as [Hr|[Hr|(t & Ht & Hr)]].
    + congruence.
    + rewrite Haddr in Hr. apply (Hfind TOKEN_PARTIAL); [discriminate|exact Hr].
    + rewrite (Hrole t Ht) in Hr. apply last_Some_elem_of in Hr.
      apply (Hfind t); [|exact Hr].
      intros ->. unfold single_types in Ht.
      rewrite !elem_of_cons, elem_of_nil in Ht. intuition discriminate.
Qed.

(** X5: the name and the address ranges of an assignment lie within
    PARTIAL ranges of its sequence; the other roles are those of the
    base assignment. *)
Theorem name_from_partial (self : TokenSequence.t) (query : QueryStruct.t)
    (a : TokenAssignment.t) :
  a ∈ Gen.yields (get_assignments self query) ->
  (forall r, TokenAssignment.name a = Some r \/ r ∈ TokenAssignment.address a ->
     exists p, p ∈ ranges_of_type TOKEN_PARTIAL (TokenSequence.seq self)
               /\ within r p)
  /\ (forall ttype, ttype ∈ single_types ->
        role ttype a = last (ranges_of_type ttype (TokenSequence.seq self))).
Proof.
  intros Ha. apply get_assignments_variant in Ha as [[Hchoice Hroles] _].
  destruct (from_ranges_fields (TokenSequence.seq self)) as (Hname & Haddr & Hrole).
  split; [|intros t Ht; rewrite (Hroles t Ht); apply Hrole, Ht].
  rewrite <- Haddr.
  assert (forall p, p ∈ TokenAssignment.address (from_ranges (TokenSequence.seq self)) ->
            exists p', p' ∈ TokenAssignment.address (from_ranges (TokenSequence.seq self))
                       /\ within p p') as Hself.
  { intros p Hp. exists p. split; [exact Hp|]. unfold within. lia. }
  intros r Hr.
  destruct Hchoice as [Hn' Ha|first rest Hb Hn' Ha|first rest i Hb Hi Hn' Ha
                       |init lastr Hb Hn' Ha|init lastr i Hb Hi Hn' Ha];
    rewrite Hn', Ha in Hr; rewrite ?Hb in *.
  - destruct Hr as [Hr|Hr]; [congruence|]. apply Hself, Hr.
  - apply Hself. destruct Hr as [Hr|Hr];
      [inversion Hr; constructor|constructor; exact Hr].
  - destruct Hr as [Hr|Hr].
    + inversion Hr; subst. exists first. split; [constructor|].
      unfold within. simpl. lia.
    + apply elem_of_cons in Hr as [->|Hr].
      * exists first. split; [constructor|]. unfold within. simpl. lia.
      * apply Hself. constructor. exact Hr.
  - apply Hself. apply elem_of_app. destruct Hr as [Hr|Hr];
      [inversion Hr; right; constructor|left; exact Hr].
  - destruct Hr as [Hr|Hr].
    + inversion Hr; subst. exists lastr.
      split; [apply elem_of_app; right; constructor|].
      unfold within. simpl. lia.
    + apply elem_of_app in Hr as [Hr|Hr].
      * apply Hself. apply elem_of_app. left. exact Hr.
      * apply list_elem_of_singleton in Hr. subst r. exists lastr.
        split; [apply elem_of_app; right; constructor|].
        unfold within. simpl. lia.
Qed.

Lemma name_from_partial_witness :
  exists a,
    Gen.yields (get_assignments seq_address_postcode query_two_slots) !! 1 = Some a
    /\ TokenAssignment.name a = Some (mkTokenRange 0 1)
    /\ (forall r, TokenAssignment.name a = Some r \/ r ∈ TokenAssignment.address a ->
          exists p, p ∈ ranges_of_type TOKEN_PARTIAL
                         (TokenSequence.seq seq_address_postcode)
                    /\ within r p)
    /\ (forall ttype, ttype ∈ single_types ->
          role ttype a
          = last (ranges_of_type ttype (TokenSequence.seq seq_address_postcode))).
Proof.
  eexists. split; [vm_compute; reflexivity|]. split; [reflexivity|].
  apply (name_from_partial seq_address_postcode query_two_slots).
  apply list_elem_of_lookup. exists 1. vm_compute. reflexivity.
Defined.

Lemma from_ranges_roles_witness :
  TokenAssignment.postcode (from_ranges seq_two_postcodes) = Some (mkTokenRange 3 4)
  /\ TokenAssignment.address (from_ranges seq_two_postcodes) = [mkTokenRange 2 3]
  /\ forall r, r ∈ assignment_ranges (from_ranges seq_two_postcodes) ->
       exists tr, tr ∈ seq_two_postcodes /\ TypedRange.trange tr = r
                  /\ TypedRange.ttype tr <> TOKEN_WORD.
Proof.
  split; [reflexivity|]. split; [reflexivity|].
  apply (from_ranges_roles seq_two_postcodes).
Defined.

(** ** Countries and near items stand at an end of the query *)

Lemma interior_snoc (s : list TypedRange.t) (r : TypedRange.t) :
  interior (s ++ [r]) = drop 1 s.
Proof. unfold interior. rewrite removelast_last. reflexivity. Qed.

Lemma is_final_false (self : TokenSequence.t) (init : list TypedRange.t)
    (x lastr : TypedRange.t) :
  TokenSequence.seq self = (x :: init) ++ [lastr] ->
  is_final self = false ->
  boundary_type (TypedRange.ttype lastr) = false.
Proof.
  unfold is_final. intros ->. rewrite last_snoc, length_app. simpl.
  replace (1 <? S (length init + 1)) with true
    by (symmetry; apply Nat.ltb_lt; lia).
  simpl. unfold boundary_type. tauto.
Qed.

Lemma advance_interior (self s' : TokenSequence.t) (ttype : TokenType)
    (e : nat) (force_break : bool) (break_penalty : Q) :
  interior_ok (TokenSequence.seq self) ->
  is_final self = false ->
  advance self ttype e force_break break_penalty = Some s' ->
  interior_ok (TokenSequence.seq s').
Proof.
  intros Hint Hfin. unfold advance.
  destruct (appendable self ttype); [|discriminate].
  destruct (last (TokenSequence.seq self)) as [lastr|] eqn:Hlast.
  - apply last_Some in Hlast as [init Hinit].
    unfold interior_ok in *. rewrite Hinit in Hint. rewrite interior_snoc in Hint.
    destruct (negb force_break && _);
      intros H; inversion H; subst; clear H; simpl.
    + rewrite Hinit, removelast_last, interior_snoc. exact Hint.
    + rewrite interior_snoc, Hinit.
      destruct init as [|x init]; [constructor|]. simpl in *.
      rewrite drop_0 in *. apply Forall_app. split; [exact Hint|].
      constructor; [|constructor].
      eapply is_final_false; [exact Hinit|exact Hfin].
  - intros H; inversion H; subst. constructor.
Qed.

Lemma elem_of_ends (s : list TypedRange.t) (tr : TypedRange.t) :
  tr ∈ s -> tr ∈ interior s \/ head s = Some tr \/ last s = Some tr.
Proof.
  intros Hin. destruct s as [|x rest]; [inversion Hin|].
  apply elem_of_cons in Hin as [->|Hin]; [right; left; reflexivity|].
  destruct (last rest) as [l|] eqn:Hlast;
    [|apply last_None in Hlast; subst; inversion Hin].
  apply last_Some in Hlast as [init ->].
  change (x :: init ++ [l]) with ((x :: init) ++ [l]).
  rewrite interior_snoc, last_snoc. simpl. rewrite drop_0.
  apply elem_of_app in Hin as [Hin|Hin]; [left; exact Hin|].
  apply list_elem_of_singleton in Hin. subst. right; right; reflexivity.
Qed.

(** X6: in an assignment the enumerator yields for a well-formed query,
    the country and the near item stand at an end of the query: their
    range starts at slot 0 or ends at the last slot. *)
Theorem boundary_roles_at_ends (query : QueryStruct.t) (fuel : nat)
    (a : TokenAssignment.t) (ttype : TokenType) (r : TokenRange.t) :
  wf_query query = true ->
  a ∈ Gen.yields (Run.out (yield_token_assignments fuel query)) ->
  ttype = TOKEN_COUNTRY \/ ttype = TOKEN_NEAR_ITEM ->
  role ttype a = Some r ->
  TokenRange.start r = 0 \/ TokenRange.end_ r = num_token_slots query.
Proof.
  intros Hwf Ha Ht Hr.
  pose (D := fun s : TokenSequence.t =>
               seq_ok (TokenSequence.seq s) /\ interior_ok (TokenSequence.seq s)).
  pose (P := fun s : TokenSequence.t => D s /\ is_final s = false).
  destruct (yield_token_assignments_states query P D D) with (fuel := fuel) (a := a)
    as (s & [[Htiles Htypes] Hint] & Hend & Hy).
  - intros self node tlist s' [[[Hti Hty] Hi] Hf] Hnode Hin Hadv. split; [split|].
    + eapply advance_tiles; [exact Hti| |exact Hadv].
      apply (wf_query_tlist query _ node tlist Hwf Hnode Hin).
    + eapply advance_types_ok; eassumption.
    + eapply advance_interior; eassumption.
  - intros self node fb s' [[[Hti Hty] Hi] Hf] Hnode Hadv. split; [split|].
    + eapply advance_tiles; [exact Hti| |exact Hadv]. lia.
    + eapply advance_types_ok; eassumption.
    + eapply advance_interior; eassumption.
  - intros s' Hs' Hf _. split; assumption.
  - intros s' s'' Hs' _ Hre. unfold D in *.
    pose proof (recheck_sequence_seq s') as Hseq. rewrite Hre in Hseq.
    simpl in Hseq. rewrite Hseq. exact Hs'.
  - intros d. split; [split; [split; [exact I|apply types_ok_nil]|constructor]|].
    reflexivity.
  - exact Ha.
  - assert (ttype ∈ single_types) as Hsingle.
    { unfold single_types. rewrite !elem_of_cons. destruct Ht as [->| ->]; tauto. }
    destruct (name_from_partial s query a Hy) as [_ Hroles].
    rewrite (Hroles ttype Hsingle) in Hr. apply last_Some_elem_of in Hr.
    unfold ranges_of_type in Hr.
    apply list_elem_of_In, in_map_iff in Hr as (tr & Htr & Hin).
    apply filter_In in Hin as [Hin Hty]. apply ttype_eqb_eq in Hty.
    apply list_elem_of_In in Hin.
    destruct (elem_of_ends _ tr Hin) as [Hi|[Hh|Hl]].
    + exfalso. unfold interior_ok in Hint. rewrite Forall_forall in Hint.
      specialize (Hint tr Hi). rewrite Hty in Hint.
      destruct Ht as [->| ->]; discriminate.
    + left. destruct (TokenSequence.seq s) as [|x rest]; [discriminate|].
      simpl in Hh. inversion Hh; subst x. simpl in Htiles.
      rewrite <- Htr. tauto.
    + right. unfold end_pos in Hend. rewrite Hl in Hend. rewrite <- Htr. exact Hend.
Qed.

Lemma boundary_roles_at_ends_witness :
  exists a,
    Gen.yields (Run.out (yield_token_assignments 30 country_query)) !! 0 = Some a
    /\ TokenAssignment.country a = Some (mkTokenRange 2 3)
    /\ (TokenRange.start (mkTokenRange 2 3) = 0
        \/ TokenRange.end_ (mkTokenRange 2 3) = 3).
Proof.
  eexists. split; [vm_compute; reflexivity|]. split; [reflexivity|].
  apply (boundary_roles_at_ends country_query 30
           (TokenAssignment.mk 0.1 (Some (mkTokenRange 0 2)) [] None None
              (Some (mkTokenRange 2 3)) None None) TOKEN_COUNTRY).
  - vm_compute. reflexivity.
  - apply list_elem_of_lookup. exists 0. vm_compute. reflexivity.
  - left. reflexivity.
  - reflexivity.
Defined.

(** ** The recheck of a complete sequence *)

Lemma adapt_penalty_false (self : TokenSequence.t) (priors : nat) (new_dir : Z) :
  fst (_adapt_penalty_from_priors self priors new_dir) = false -> 3 <= priors.
Proof.
  unfold _adapt_penalty_from_priors.
  destruct (2 <=? priors) eqn:H2; [|discriminate].
  destruct (_ =? 0)%Z; [discriminate|].
  destruct (priors =? 2) eqn:E; [discriminate|]. intros _.
  apply Nat.leb_le in H2. apply Nat.eqb_neq in E. lia.
Qed.

(** X7: [recheck_sequence] leaves the ranges as they are and takes
    nothing off the penalty, adding at most 2.6; a sequence without a
    house number passes unchanged, and a sequence is rejected only when
    three or more PARTIAL ranges stand on one side of its house number. *)
Theorem recheck_sequence_effect (self : TokenSequence.t) :
  TokenSequence.seq (snd (recheck_sequence self)) = TokenSequence.seq self
  /\ (TokenSequence.penalty self
      <= TokenSequence.penalty (snd (recheck_sequence self))
      <= TokenSequence.penalty self + 2.6)%Q
  /\ (index_of_type TOKEN_HOUSENUMBER (TokenSequence.seq self) = None ->
      recheck_sequence self = (true, self))
  /\ (fst (recheck_sequence self) = false ->
      exists hnrpos,
        index_of_type TOKEN_HOUSENUMBER (TokenSequence.seq self) = Some hnrpos
        /\ (3 <= count_partial (take hnrpos (TokenSequence.seq self))
            \/ 3 <= count_partial (drop (hnrpos + 1) (TokenSequence.seq self)))).
Proof.
  split; [apply recheck_sequence_seq|]. split; [apply recheck_sequence_penalty|].
  unfold recheck_sequence. split; [intros ->; reflexivity|].
  destruct (index_of_type _ _) as [hnrpos|]; [|discriminate].
  intros Hfalse. exists hnrpos. split; [reflexivity|].
  destruct (negb (TokenSequence.direction self =? -1)%Z).
  - pose proof (adapt_penalty_false self
                  (count_partial (take hnrpos (TokenSequence.seq self))) (-1)) as H1.
    destruct (_adapt_penalty_from_priors self _ (-1)) as [ok1 self1].
    destruct ok1; [|left; apply H1; reflexivity].
    simpl in Hfalse.
    destruct (negb (TokenSequence.direction self1 =? 1)%Z).
    + pose proof (adapt_penalty_false self1
                    (count_partial (drop (hnrpos + 1) (TokenSequence.seq self))) 1)
        as H2.
      destruct (_adapt_penalty_from_priors self1 _ 1) as [ok2 self2].
      destruct ok2; [|right; apply H2; reflexivity].
      simpl in Hfalse. destruct (existsb _ _); discriminate.
    + simpl in Hfalse. destruct (existsb _ _); discriminate.
  - simpl in Hfalse.
    destruct (negb (TokenSequence.direction self =? 1)%Z).
    + pose proof (adapt_penalty_false self
                    (count_partial (drop (hnrpos + 1) (TokenSequence.seq self))) 1)
        as H2.
      destruct (_adapt_penalty_from_priors self _ 1) as [ok2 self2].
      destruct ok2; [|right; apply H2; reflexivity].
      simpl in Hfalse. destruct (existsb _ _); discriminate.
    + simpl in Hfalse. destruct (existsb _ _); discriminate.
Qed.

Lemma recheck_sequence_effect_witness :
  fst (recheck_sequence seq_late_housenumber) = false
  /\ exists hnrpos,
       index_of_type TOKEN_HOUSENUMBER (TokenSequence.seq seq_late_housenumber)
       = Some hnrpos
       /\ (3 <= count_partial (take hnrpos (TokenSequence.seq seq_late_housenumber))
           \/ 3 <= count_partial
                     (drop (hnrpos + 1) (TokenSequence.seq seq_late_housenumber))).
Proof.
  split; [reflexivity|].
  apply (recheck_sequence_effect seq_late_housenumber). reflexivity.
Defined.

(** ** The enumerator comes to an end *)

Lemma run_todo_stable (query : QueryStruct.t) (fuel : nat) :
  forall todo k,
    finished (run_todo fuel query todo) = true ->
    run_todo (fuel + k) query todo = run_todo fuel query todo.
Proof.
  induction fuel as [|fuel IH]; intros todo k Hfin.
  - destruct todo as [|s todo]; [destruct k; reflexivity|].
    unfold finished in Hfin. simpl in Hfin. discriminate.
  - destruct todo as [|state todo]; [reflexivity|].
    cbn [Nat.add run_todo] in *.
    destruct (loop_body query state todo) as [g todo1].
    destruct (Gen.completed g) eqn:Hg; [|reflexivity].
    rewrite IH; [reflexivity|].
    unfold finished in *. simpl in Hfin. rewrite completed_then, Hg in Hfin.
    exact Hfin.
Qed.

(** X8: on a well-formed query with at least one phrase and one term, the
    loop of the enumerator ends, without an exception, within a number
    of rounds that the query bounds; more rounds yield nothing more. *)
Theorem enumerator_terminates (query : QueryStruct.t) (k : nat) :
  wf_query query = true ->
  QueryStruct.source query <> [] ->
  0 < num_token_slots query ->
  let fuel := weight (branching query) (num_token_slots query) in
  finished (yield_token_assignments fuel query) = true
  /\ yield_token_assignments (fuel + k) query = yield_token_assignments fuel query.
Proof.
  intros Hwf Hsrc Hn fuel.
  pose proof (yield_token_assignments_finishes query Hwf Hsrc Hn) as Hfin.
  split; [exact Hfin|].
  unfold yield_token_assignments in *.
  destruct (head (QueryStruct.source query)); [|reflexivity].
  apply run_todo_stable. exact Hfin.
Qed.

Lemma enumerator_terminates_witness :
  finished (yield_token_assignments (weight (branching street_query) 2) street_query)
  = true
  /\ yield_token_assignments (weight (branching street_query) 2 + 5) street_query
     = yield_token_assignments (weight (branching street_query) 2) street_query.
Proof.
  apply (enumerator_terminates street_query 5).
  - vm_compute. reflexivity.
  - discriminate.
  - vm_compute. lia.
Defined.

(** ** The rerank phase keeps the token graph *)

Lemma wf_query_iff (query : QueryStruct.t) :
  wf_query query = true <->
  0 < length (QueryStruct.nodes query)
  /\ forall i node tlist,
       node_at query i = Some node -> tlist ∈ QueryNode.starting node ->
       i < TokenList.end_ tlist <= num_token_slots query.
Proof.
  split.
  - intros Hwf. split.
    + unfold wf_query in Hwf. apply andb_true_iff in Hwf as [H _].
      apply Nat.ltb_lt, H.
    + intros i node tlist. apply wf_query_tlist, Hwf.
  - intros [Hlen Hall]. unfold wf_query. apply andb_true_iff.
    split; [apply Nat.ltb_lt, Hlen|].
    apply forallb_forall. intros [i node] Hin.
    apply list_elem_of_In, elem_of_lookup_imap in Hin as (j & y & Heq & Hy).
    inversion Heq; subst j y.
    apply forallb_forall. intros tlist Ht. apply list_elem_of_In in Ht.
    specialize (Hall i node tlist Hy Ht). unfold tlist_ok.
    apply andb_true_iff. rewrite Nat.ltb_lt, Nat.leb_le. lia.
Qed.

Lemma shape_node_at (query query' : QueryStruct.t) (i : nat) (node : QueryNode.t) :
  query_shape query' = query_shape query ->
  node_at query i = Some node ->
  exists node', node_at query' i = Some node' /\ node_shape node' = node_shape node.
Proof.
  unfold query_shape, node_at. intros Hshape Hnode.
  apply (f_equal (fun l => l !! i)) in Hshape.
  change (map node_shape) with (fmap (M:=list) node_shape) in Hshape.
  rewrite !list_lookup_fmap, Hnode in Hshape.
  destruct (QueryStruct.nodes query' !! i) as [node'|]; [|discriminate].
  exists node'. split; [reflexivity|]. simpl in Hshape. congruence.
Qed.

Lemma shape_tlist_at (node node' : QueryNode.t) (k : nat) (tlist : TokenList.t) :
  node_shape node' = node_shape node ->
  QueryNode.starting node !! k = Some tlist ->
  exists tlist', QueryNode.starting node' !! k = Some tlist'
                 /\ tlist_shape tlist' = tlist_shape tlist.
Proof.
  unfold node_shape. intros Hshape Hk.
  apply (f_equal (fun l => l !! k)) in Hshape.
  change (map tlist_shape) with (fmap (M:=list) tlist_shape) in Hshape.
  rewrite !list_lookup_fmap, Hk in Hshape.
  destruct (QueryNode.starting node' !! k) as [tlist'|]; [|discriminate].
  exists tlist'. split; [reflexivity|]. simpl in Hshape. congruence.
Qed.

Lemma shape_num_token_slots (query query' : QueryStruct.t) :
  query_shape query' = query_shape query ->
  num_token_slots query' = num_token_slots query.
Proof.
  unfold query_shape, num_token_slots. intros H.
  apply (f_equal length) in H. rewrite !length_map in H. lia.
Qed.

(** Well-formedness is a matter of the shape. *)
Lemma shape_wf_query (query query' : QueryStruct.t) :
  query_shape query' = query_shape query ->
  wf_query query = true -> wf_query query' = true.
Proof.
  intros Hshape Hwf. apply wf_query_iff in Hwf as [Hlen Hall].
  apply wf_query_iff. split.
  - pose proof (shape_num_token_slots _ _ Hshape) as Hn.
    unfold query_shape in Hshape. apply (f_equal length) in Hshape.
    rewrite !length_map in Hshape. lia.
  - intros i node' tlist' Hnode' Hin.
    destruct (shape_node_at query' query i node' (eq_sym Hshape) Hnode')
      as (node & Hnode & Hns).
    apply list_elem_of_lookup in Hin as [k Hk].
    destruct (shape_tlist_at node' node k tlist' Hns Hk) as (tlist & Htl & Hts).
    rewrite (shape_num_token_slots _ _ Hshape).
    assert (TokenList.end_ tlist' = TokenList.end_ tlist) as ->.
    { unfold tlist_shape in Hts. congruence. }
    apply (Hall i node tlist Hnode). apply list_elem_of_lookup. eauto.
Qed.

Section RerankWhole.

Variable get_opcodes : string -> string -> list Opcode.t.




End RerankWhole.


(** ** The rerank phase raises nothing on a well-formed query *)

Lemma elem_of_iter_token_lists (query : QueryStruct.t) (i k : nat) :
  (i, k) ∈ iter_token_lists query <->
  exists node, node_at query i = Some node /\ k < length (QueryNode.starting node).
Proof.
  unfold iter_token_lists, node_at. rewrite list_elem_of_join. split.
  - intros (l & Hin & Hl).
    apply elem_of_lookup_imap in Hl as (j & node & -> & Hnode).
    apply list_elem_of_In, in_map_iff in Hin as (k' & Heq & Hk).
    inversion Heq; subst. apply in_seq in Hk. exists node. split; [exact Hnode|lia].
  - intros (node & Hnode & Hk).
    exists (map (pair i) (seq 0 (length (QueryNode.starting node)))). split.
    + apply list_elem_of_In, in_map_iff. exists k. split; [reflexivity|].
      apply in_seq. lia.
    + apply elem_of_lookup_imap. exists i, node. split; [reflexivity|exact Hnode].
Qed.

Lemma rematch_norm_fold (parts : list QueryPart.t) (node : QueryNode.t) (len : nat) :
  forall a norm,
    a + len <= length parts ->
    exists norm',
      fold_left
        (fun norm j =>
           match norm with
           | None => None
           | Some norm =>
               if negb (btype_eqb (QueryNode.btype node) BREAK_TOKEN) then
                 match parts !! j with
                 | Some partj =>
                     Some (norm +:+ "  " +:+ QueryPart.normalized partj)
                 | None => None
                 end
               else Some norm
           end) (seq a len) (Some norm) = Some norm'.
Proof.
  induction len as [|len IH]; intros a norm Ha; simpl; [eauto|].
  destruct (negb _).
  - destruct (lookup_lt_is_Some_2 parts a ltac:(lia)) as [parta ->].
    apply IH. lia.
  - apply IH. lia.
Qed.

Lemma rematch_norm_some (parts : list QueryPart.t) (node : QueryNode.t) (i e : nat) :
  i < length parts -> e <= length parts ->
  exists norm, rematch_norm parts node i e = Some norm.
Proof.
  intros Hi He. unfold rematch_norm, range.
  destruct (lookup_lt_is_Some_2 parts i Hi) as [parti ->].
  apply rematch_norm_fold. lia.
Qed.

Section RerankTotal.

Variable get_opcodes : string -> string -> list Opcode.t.

Lemma rerank_starting_some (parts : list QueryPart.t) (i k : nat)
    (node : QueryNode.t) (tlist : TokenList.t) :
  TokenList.tokens tlist <> [] ->
  i < length parts ->
  TokenList.end_ tlist <= length parts ->
  exists starting, rerank_starting get_opcodes parts i k node tlist = Some starting.
Proof.
  intros Hne Hi He.
  assert (exists token0, head (TokenList.tokens tlist) = Some token0) as [token0 Hhead].
  { destruct (TokenList.tokens tlist) as [|token0 rest]; [congruence|].
    exists token0. reflexivity. }
  assert (exists starting,
             rerank_rematch get_opcodes parts i k node tlist = Some starting)
    as Hrematch.
  { unfold rerank_rematch. destruct (negb _); [|eauto].
    destruct (rematch_norm_some parts node i (TokenList.end_ tlist) Hi He)
      as [norm ->]. eauto. }
  unfold rerank_starting.
  destruct (ttype_eqb (TokenList.ttype tlist) TOKEN_POSTCODE).
  - eexists. apply mapM_total. intros repl.
    apply rerank_postcode_repl_long. exact Hhead.
  - destruct (ttype_eqb (TokenList.ttype tlist) TOKEN_HOUSENUMBER);
      [|exact Hrematch].
    rewrite Hhead. destruct (_ <=? 3); [|exact Hrematch].
    destruct (existsb _ _); eauto.
Qed.

Lemma rerank_fold_some (parts : list QueryPart.t) (query : QueryStruct.t)
    (visits : list (nat * nat)) :
  wf_query query = true ->
  lists_nonempty query ->
  num_token_slots query <= length parts ->
  (forall visit, visit ∈ visits -> visit ∈ iter_token_lists query) ->
  forall current,
    query_shape current = query_shape query ->
    exists query',
      fold_left (rerank_step get_opcodes parts) visits (Some current) = Some query'.
Proof.
  intros Hwf Hne Hparts. induction visits as [|[i k] visits IH];
    intros Hvisits current Hshape; [simpl; eauto|].
  cbn [fold_left].
  assert ((i, k) ∈ iter_token_lists query) as Hv by (apply Hvisits; constructor).
  apply elem_of_iter_token_lists in Hv as (node0 & Hnode0 & Hk).
  destruct (lookup_lt_is_Some_2 _ _ Hk) as [tlist0 Htl0].
  destruct (shape_node_at query current i node0 Hshape Hnode0)
    as (node & Hnode & Hns).
  destruct (shape_tlist_at node0 node k tlist0 Hns Htl0) as (tlist & Htl & Hts).
  assert (tlist0 ∈ QueryNode.starting node0) as Hin0
    by (apply list_elem_of_lookup; eauto).
  pose proof (wf_query_tlist query i node0 tlist0 Hwf Hnode0 Hin0) as Hrange.
  pose proof (Hne i node0 tlist0 Hnode0 Hin0) as Hne0.
  unfold tlist_shape in Hts. inversion Hts as [[Hend Hty Hlw]].
  destruct (rerank_starting_some parts i k node tlist) as [starting Hst].
  { intros E. rewrite E in Hlw. simpl in Hlw.
    destruct (TokenList.tokens tlist0); [congruence|discriminate]. }
  { lia. }
  { lia. }
  assert (rerank_step get_opcodes parts (Some current) (i, k)
          = Some (set_nodes (<[i := set_starting starting node]>
                               (QueryStruct.nodes current)) current)) as Hstep.
  { unfold rerank_step. rewrite Hnode, Htl, Hst. reflexivity. }
  rewrite Hstep. apply IH.
  - intros v Hv'. apply Hvisits. constructor. exact Hv'.
  - rewrite <- Hshape. eapply rerank_step_shape. exact Hstep.
Qed.

(** X10: on a well-formed query in which every token list holds a token,
    with a term for every slot, [rerank_tokens] raises nothing. *)
Theorem rerank_tokens_total (parts : list QueryPart.t) (query : QueryStruct.t) :
  wf_query query = true ->
  lists_nonempty query ->
  num_token_slots query <= length parts ->
  exists query', rerank_tokens get_opcodes query parts = Some query'.
Proof.
  intros Hwf Hne Hparts. unfold rerank_tokens.
  apply (rerank_fold_some parts query); auto.
Qed.

End RerankTotal.

Lemma postcode_housenumber_query_nonempty (word : string) :
  lists_nonempty (postcode_housenumber_query word).
Proof.
  intros i node tlist Hnode Hin. unfold node_at in Hnode.
  destruct i as [|[|i]]; simpl in Hnode; inversion Hnode; subst; simpl in Hin.
  - rewrite !elem_of_cons, elem_of_nil in Hin.
    destruct Hin as [->|[->|[]]]; discriminate.
  - inversion Hin.
Qed.

Lemma rerank_tokens_total_witness :
  exists query',
    rerank_tokens opcodes_of_equal (postcode_housenumber_query "12")
      [QueryPart.mk "12" "12" 0.5] = Some query'.
Proof.
  apply (rerank_tokens_total opcodes_of_equal [QueryPart.mk "12" "12" 0.5]
           (postcode_housenumber_query "12")).
  - vm_compute. reflexivity.
  - apply postcode_housenumber_query_nonempty.
  - vm_compute. lia.
Defined.

(** ** Further properties of the tokens of the word table *)

Lemma housenumber_char_penalty_nonneg (s : string) :
  (0 <= housenumber_char_penalty s)%Q.
Proof.
  rewrite housenumber_char_penalty_count.
  apply Qmult_le_0_compat; [lra|].
  change 0%Q with (inject_Z 0). rewrite <- Zle_Qle. lia.
Qed.

(** X11: the token of a row never has less than the base penalty, but for
    a row of type H with an empty word token, whose token has the base
    penalty less 0.2. *)
Theorem from_db_row_penalty_bound (row : SaRow.t) (base_penalty : Q)
    (token : ICUToken.t) :
  from_db_row row base_penalty = Some token ->
  if String.eqb (SaRow.type row) "H" && (String.length (SaRow.word_token row) =? 0)
  then (ICUToken.penalty token == base_penalty - 0.2)%Q
  else (base_penalty <= ICUToken.penalty token)%Q.
Proof.
  unfold from_db_row.
  destruct (row_lookup_word row); [|discriminate].
  destruct (max_1 _); [|discriminate].
  destruct (max_1 _); [|discriminate].
  intros H; inversion H; subst; clear H. simpl.
  unfold row_penalty.
  destruct (String.eqb (SaRow.type row) "w") eqn:Hw.
  { apply String.eqb_eq in Hw. rewrite Hw. simpl. lra. }
  destruct (String.eqb (SaRow.type row) "W") eqn:HW.
  { apply String.eqb_eq in HW. rewrite HW. simpl.
    destruct (SaRow.word row) as [word|]; [|lra].
    destruct (_ && _); [|lra]. destruct (isdigit word); lra. }
  destruct (String.eqb (SaRow.type row) "H") eqn:HH; simpl.
  - pose proof (housenumber_char_penalty_nonneg (SaRow.word_token row)) as Hc.
    rewrite <- len_eqb_zero.
    destruct (Nat.eqb_spec (len (SaRow.word_token row)) 0) as [Hlen|Hlen].
    + apply len_zero in Hlen. rewrite Hlen.
      change (housenumber_char_penalty EmptyString) with 0%Q.
      change (chars EmptyString) with (@nil N).
      change (len EmptyString) with 0. cbn [forallb].
      change (inject_Z (Z.of_nat 0 - 1)) with (-1)%Q. lra.
    + destruct (forallb _ _); [|lra].
      assert (0 <= inject_Z (Z.of_nat (len (SaRow.word_token row)) - 1))%Q.
      { change 0%Q with (inject_Z 0). rewrite <- Zle_Qle. lia. }
      nra.
  - destruct (String.eqb (SaRow.type row) "C"); [|lra].
    destruct (_ =? 1); lra.
Qed.

Lemma from_db_row_penalty_bound_witness :
  (exists token, from_db_row row_mixed 0.1 = Some token
     /\ (0.1 <= ICUToken.penalty token)%Q)
  /\ (exists token, from_db_row (SaRow.mk 3 EmptyString "H" None None) 0.5 = Some token
     /\ (ICUToken.penalty token == 0.5 - 0.2)%Q).
Proof.
  split; eexists; (split; [vm_compute; reflexivity|]).
  - apply (from_db_row_penalty_bound row_mixed 0.1). vm_compute. reflexivity.
  - apply (from_db_row_penalty_bound (SaRow.mk 3 EmptyString "H" None None) 0.5).
    vm_compute. reflexivity.
Defined.

Section Rematch.

Variable get_opcodes : string -> string -> list Opcode.t.

Lemma opcode_distance_nonneg (len : Z) (op : Opcode.t) :
  (Opcode.tag op = op_replace ->
   (Opcode.afrom op <= Opcode.ato op \/ Opcode.bfrom op <= Opcode.bto op)%Z) ->
  (0 <= opcode_distance len op)%Z.
Proof.
  intros Hop. unfold opcode_distance.
  destruct (Opcode.tag op); try destruct (_ || _); try lia.
  specialize (Hop eq_refl). lia.
Qed.

Lemma distance_fold_nonneg (len : Z) (ops : list Opcode.t) :
  (forall op, op ∈ ops -> Opcode.tag op = op_replace ->
     (Opcode.afrom op <= Opcode.ato op \/ Opcode.bfrom op <= Opcode.bto op)%Z) ->
  forall d, (0 <= d)%Z ->
    (d <= fold_left (fun d op => d + opcode_distance len op) ops d)%Z.
Proof.
  induction ops as [|op ops IH]; intros Hops d Hd; simpl; [lia|].
  pose proof (opcode_distance_nonneg len op (Hops op ltac:(constructor))) as H0.
  etransitivity; [|apply IH].
  - lia.
  - intros op' Hin. apply Hops. constructor. exact Hin.
  - lia.
Qed.

(** X12: [rematch] never lowers the penalty of a token when every replace
    opcode spans an ordered range of one of the two strings, and leaves a
    token with an empty lookup word as it is. *)
Theorem rematch_penalty_grows (token : ICUToken.t) (norm : string) :
  (forall op, op ∈ get_opcodes (ICUToken.lookup_word token) norm ->
     Opcode.tag op = op_replace ->
     (Opcode.afrom op <= Opcode.ato op \/ Opcode.bfrom op <= Opcode.bto op)%Z) ->
  (ICUToken.penalty token <= ICUToken.penalty (rematch get_opcodes token norm))%Q
  /\ (ICUToken.lookup_word token = EmptyString ->
      rematch get_opcodes token norm = token).
Proof.
  intros Hops. unfold rematch.
  destruct (len (ICUToken.lookup_word token) =? 0) eqn:Hlen.
  - split; [lra|reflexivity].
  - apply Nat.eqb_neq in Hlen. split.
    + simpl.
      pose proof (distance_fold_nonneg
                    (Z.of_nat (len (ICUToken.lookup_word token)))
                    _ Hops 0%Z ltac:(lia)) as Hd.
      set (d := fold_left _ _ _) in *.
      assert (0 <= inject_Z d
                   / inject_Z (Z.of_nat (len (ICUToken.lookup_word token))))%Q.
      { apply Qle_shift_div_l.
        - change 0%Q with (inject_Z 0). rewrite <- Zlt_Qlt. lia.
        - rewrite Qmult_0_l. change 0%Q with (inject_Z 0). rewrite <- Zle_Qle. lia. }
      lra.
    + intros E. rewrite E in Hlen. exfalso. apply Hlen. reflexivity.
Qed.

End Rematch.

Lemma rematch_penalty_grows_witness :
  (ICUToken.penalty word_token_example
   <= ICUToken.penalty (rematch opcodes_of_distinct word_token_example "xy"))%Q
  /\ (ICUToken.penalty (rematch opcodes_of_distinct word_token_example "xy") == 2.3)%Q.
Proof.
  split; [|vm_compute; reflexivity].
  apply (rematch_penalty_grows opcodes_of_distinct word_token_example "xy").
  intros op Hop _. apply list_elem_of_singleton in Hop. subst op. simpl. lia.
Defined.

(** ** Further properties of the tokens added for terms *)

Lemma has_tokens_app (node : QueryNode.t) (e : nat) (ttypes : list TokenType)
    (added : list TokenList.t) :
  has_tokens (set_starting (QueryNode.starting node ++ added) node) e ttypes
  = has_tokens node e ttypes
    || existsb (fun tl => (TokenList.end_ tl =? e)
                          && ttype_in (TokenList.ttype tl) ttypes) added.
Proof. unfold has_tokens. simpl. apply existsb_app. Qed.

Lemma extra_node_idempotent (phrase_admits : PhraseType -> TokenType -> bool)
    (parts : list QueryPart.t) (bound i : nat) (node : QueryNode.t) :
  extra_node phrase_admits parts bound i
    (extra_node phrase_admits parts bound i node)
  = extra_node phrase_admits parts bound i node.
Proof.
  unfold extra_node. destruct (parts !! i) as [part|]; [|reflexivity].
  destruct ((i <? bound) && extra_token_due phrase_admits part node i) eqn:Hdue.
  - replace (extra_token_due phrase_admits part _ i) with false;
      [rewrite andb_false_r; reflexivity|].
    unfold extra_token_due. rewrite has_tokens_app. simpl.
    rewrite Nat.eqb_refl. simpl. rewrite orb_true_r. simpl.
    rewrite andb_false_r. reflexivity.
  - rewrite Hdue. reflexivity.
Qed.

(** X13: [add_extra_tokens] run again on its own result adds nothing. *)
Theorem add_extra_tokens_idempotent (phrase_admits : PhraseType -> TokenType -> bool)
    (query query' : QueryStruct.t) (parts : list QueryPart.t) :
  add_extra_tokens phrase_admits query parts = Some query' ->
  add_extra_tokens phrase_admits query' parts = Some query'.
Proof.
  rewrite !add_extra_tokens_spec. intros H. inversion H; subst; clear H.
  f_equal. unfold set_nodes. simpl. f_equal.
  apply list_eq. intros i. rewrite !list_lookup_imap.
  destruct (QueryStruct.nodes query !! i); simpl; [|reflexivity].
  rewrite extra_node_idempotent. reflexivity.
Qed.

Lemma add_extra_tokens_idempotent_witness :
  exists query',
    add_extra_tokens admits_all query_two_slots
      [QueryPart.mk "12" "12" 0.1; QueryPart.mk "main" "main" 0.5] = Some query'
    /\ add_extra_tokens admits_all query'
         [QueryPart.mk "12" "12" 0.1; QueryPart.mk "main" "main" 0.5] = Some query'.
Proof.
  eexists. split; [vm_compute; reflexivity|].
  apply (add_extra_tokens_idempotent admits_all query_two_slots).
  vm_compute. reflexivity.
Defined.

Lemma extra_node_cases (phrase_admits : PhraseType -> TokenType -> bool)
    (parts : list QueryPart.t) (bound i : nat) (node : QueryNode.t) :
  extra_node phrase_admits parts bound i node = node
  \/ exists part,
       parts !! i = Some part
       /\ extra_node phrase_admits parts bound i node
          = set_starting
              (QueryNode.starting node
                 ++ [TokenList.mk (i + 1) TOKEN_HOUSENUMBER [extra_token part]])
              node.
Proof.
  unfold extra_node. destruct (parts !! i) as [part|]; [|left; reflexivity].
  destruct (_ && _); [right; eauto|left; reflexivity].
Qed.

Lemma add_extra_tokens_graph (phrase_admits : PhraseType -> TokenType -> bool)
    (query query' : QueryStruct.t) (parts : list QueryPart.t) :
  wf_query query = true ->
  length parts <= num_token_slots query ->
  add_extra_tokens phrase_admits query parts = Some query' ->
  wf_query query' = true
  /\ num_token_slots query' = num_token_slots query
  /\ forall i node,
       node_at query i = Some node ->
       exists node',
         node_at query' i = Some node'
         /\ node_frame node' = node_frame node
         /\ QueryNode.starting node `prefix_of` QueryNode.starting node'.
Proof.
  intros Hwf Hparts. rewrite add_extra_tokens_spec.
  intros H; inversion H; subst; clear H.
  assert (num_token_slots
            (set_nodes (imap (extra_node phrase_admits parts 1000)
                             (QueryStruct.nodes query)) query)
          = num_token_slots query) as Hslots.
  { unfold num_token_slots. simpl. rewrite length_imap. reflexivity. }
  apply wf_query_iff in Hwf as [Hlen Hall].
  split; [|split; [exact Hslots|]].
  - apply wf_query_iff. split; [simpl; rewrite length_imap; exact Hlen|].
    intros i node' tlist Hnode' Hin. rewrite Hslots.
    unfold node_at in Hnode'. simpl in Hnode'.
    rewrite list_lookup_imap in Hnode'.
    destruct (QueryStruct.nodes query !! i) as [node|] eqn:Hnode; [|discriminate].
    simpl in Hnode'. inversion Hnode'; subst node'; clear Hnode'.
    destruct (extra_node_cases phrase_admits parts 1000 i node)
      as [E|(part & Hpart & E)]; rewrite E in Hin.
    + apply (Hall i node tlist Hnode Hin).
    + simpl in Hin. apply elem_of_app in Hin as [Hin|Hin].
      * apply (Hall i node tlist Hnode Hin).
      * apply list_elem_of_singleton in Hin. subst tlist. simpl.
        apply lookup_lt_Some in Hpart. lia.
  - intros i node Hnode. exists (extra_node phrase_admits parts 1000 i node).
    split.
    + unfold node_at in *. simpl. rewrite list_lookup_imap, Hnode. reflexivity.
    + destruct (extra_node_cases phrase_admits parts 1000 i node)
        as [E|(part & Hpart & E)]; rewrite E.
      * split; reflexivity.
      * split; [reflexivity|]. simpl. apply prefix_app_r. reflexivity.
Qed.

(** X14: [add_extra_tokens], given no more terms than the query has
    slots, leaves the query well formed; it keeps every node but for the
    token lists that start there, and these it only extends at the
    end. *)
Theorem add_extra_tokens_keeps_graph (phrase_admits : PhraseType -> TokenType -> bool)
    (query query' : QueryStruct.t) (parts : list QueryPart.t) :
  wf_query query = true ->
  length parts <= num_token_slots query ->
  add_extra_tokens phrase_admits query parts = Some query' ->
  wf_query query' = true
  /\ num_token_slots query' = num_token_slots query
  /\ forall i node,
       node_at query i = Some node ->
       exists node',
         node_at query' i = Some node'
         /\ node_frame node' = node_frame node
         /\ QueryNode.starting node `prefix_of` QueryNode.starting node'.
Proof. apply add_extra_tokens_graph. Qed.

Lemma add_extra_tokens_keeps_graph_witness :
  exists query',
    add_extra_tokens admits_all query_two_slots
      [QueryPart.mk "12" "12" 0.1; QueryPart.mk "main" "main" 0.5] = Some query'
    /\ wf_query query' = true.
Proof.
  eexists. split; [vm_compute; reflexivity|].
  apply (add_extra_tokens_keeps_graph admits_all query_two_slots _
           [QueryPart.mk "12" "12" 0.1; QueryPart.mk "main" "main" 0.5]).
  - vm_compute. reflexivity.
  - vm_compute. lia.
  - vm_compute. reflexivity.
Defined.

(** ** The tokens of the rows of the lookup *)



Lemma insert_token_elem (e : nat) (ttype : TokenType) (token : ICUToken.t)
    (starting : list TokenList.t) (tlist : TokenList.t) :
  tlist ∈ insert_token e ttype token starting ->
  tlist ∈ starting \/ (TokenList.end_ tlist = e /\ TokenList.tokens tlist <> []).
Proof.
  induction starting as [|tl rest IH]; simpl.
  - intros H. apply list_elem_of_singleton in H. subst. right. split; [reflexivity|].
    discriminate.
  - destruct ((TokenList.end_ tl =? e) && ttype_eqb (TokenList.ttype tl) ttype) eqn:Hc.
    + intros H. apply elem_of_cons in H as [->|H].
      * right. simpl. apply andb_true_iff in Hc as [Hc _]. apply Nat.eqb_eq in Hc.
        split; [exact Hc|]. intros E. apply app_eq_nil in E as [_ E]. discriminate.
      * left. apply elem_of_cons. right. exact H.
    + intros H. apply elem_of_cons in H as [->|H].
      * left. apply elem_of_cons. left. reflexivity.
      * destruct (IH H) as [H1|H1]; [left; apply elem_of_cons; right; exact H1|].
        right. exact H1.
Qed.

Section Rows.

Variable phrase_admits : PhraseType -> TokenType -> bool.

Lemma add_token_graph (slots : nat) (query : QueryStruct.t) (trange : TokenRange.t)
    (ttype : TokenType) (token : ICUToken.t) :
  graph_ok slots query ->
  TokenRange.start trange < TokenRange.end_ trange <= slots ->
  exists query',
    add_token phrase_admits query trange ttype token = Some query'
    /\ graph_ok slots query'.
Proof.
  intros (Hwf & Hslots & Hne) Hrange. unfold add_token.
  apply wf_query_iff in Hwf as [Hlen Hall].
  assert (TokenRange.start trange < length (QueryStruct.nodes query)) as Hs
    by (unfold num_token_slots in Hslots; lia).
  destruct (lookup_lt_is_Some_2 _ _ Hs) as [snode Hsnode].
  unfold node_at. rewrite Hsnode.
  destruct (phrase_admits (QueryNode.ptype snode) ttype).
  2:{ eexists. split; [reflexivity|]. split; [apply wf_query_iff; auto|auto]. }
  eexists. split; [reflexivity|].
  assert (forall i node tlist,
            <[TokenRange.start trange :=
                set_starting (insert_token (TokenRange.end_ trange) ttype token
                                (QueryNode.starting snode)) snode]>
              (QueryStruct.nodes query) !! i = Some node ->
            tlist ∈ QueryNode.starting node ->
            i < TokenList.end_ tlist <= slots /\ TokenList.tokens tlist <> []) as Hnew.
  { intros i node tlist Hnode Hin.
    destruct (decide (i = TokenRange.start trange)) as [->|Hi].
    - rewrite list_lookup_insert_eq in Hnode by exact Hs.
      inversion Hnode; subst node; clear Hnode. simpl in Hin.
      apply insert_token_elem in Hin as [Hin|[He Ht]].
      + split; [rewrite <- Hslots; exact (Hall _ snode tlist Hsnode Hin)|].
        exact (Hne _ snode tlist Hsnode Hin).
      + split; [lia|exact Ht].
    - rewrite list_lookup_insert_ne in Hnode by congruence.
      split; [rewrite <- Hslots; exact (Hall _ node tlist Hnode Hin)|].
      exact (Hne _ node tlist Hnode Hin). }
  assert (num_token_slots
            (set_nodes
               (<[TokenRange.start trange :=
                    set_starting (insert_token (TokenRange.end_ trange) ttype token
                                    (QueryNode.starting snode)) snode]>
                  (QueryStruct.nodes query)) query) = slots) as Hslots'.
  { unfold num_token_slots. simpl. rewrite length_insert. exact Hslots. }
  split; [|split; [exact Hslots'|]].
  - apply wf_query_iff. split; [simpl; rewrite length_insert; exact Hlen|].
    intros i node tlist Hnode Hin. rewrite Hslots'.
    apply (Hnew i node tlist Hnode Hin).
  - intros i node tlist Hnode Hin. apply (Hnew i node tlist Hnode Hin).
Qed.

Lemma insert_row_graph (slots : nat) (row : SaRow.t) (query : QueryStruct.t)
    (trange : TokenRange.t) :
  graph_ok slots query ->
  TokenRange.start trange < TokenRange.end_ trange <= slots ->
  row_reads slots row trange = true ->
  exists query',
    insert_row phrase_admits row (Some query) trange = Some query'
    /\ graph_ok slots query'.
Proof.
  intros Hok Hrange Hreads. unfold insert_row, row_reads in *.
  destruct (from_db_row row _) as [token|]; [|discriminate].
  destruct Hok as (Hwf & Hslots & Hne). rewrite Hslots.
  destruct (row_token_type slots row trange) as [[ttype|]|]; [| |discriminate].
  - apply add_token_graph; [repeat split; assumption|exact Hrange].
  - eexists. split; [reflexivity|]. repeat split; assumption.
Qed.

Lemma insert_ranges_graph (slots : nat) (row : SaRow.t) (ranges : list TokenRange.t) :
  forallb (fun trange =>
             (TokenRange.start trange <? TokenRange.end_ trange)
             && (TokenRange.end_ trange <=? slots)
             && row_reads slots row trange) ranges = true ->
  forall query,
    graph_ok slots query ->
    exists query',
      fold_left (insert_row phrase_admits row) ranges (Some query) = Some query'
      /\ graph_ok slots query'.
Proof.
  induction ranges as [|trange ranges IH]; intros Hall query Hok.
  - exists query. split; [reflexivity|exact Hok].
  - cbn [forallb] in Hall. apply andb_true_iff in Hall as [Hr Hall].
    apply andb_true_iff in Hr as [Hr Hreads].
    apply andb_true_iff in Hr as [Hlt Hle].
    apply Nat.ltb_lt in Hlt. apply Nat.leb_le in Hle.
    destruct (insert_row_graph slots row query trange Hok ltac:(lia) Hreads)
      as (query1 & Hstep & Hok1).
    cbn [fold_left]. rewrite Hstep. apply IH; assumption.
Qed.

Lemma insert_rows_graph (slots : nat) (words : gmap string (list TokenRange.t))
    (rows : list SaRow.t) :
  rows_ok slots words rows = true ->
  forall query,
    graph_ok slots query ->
    exists query',
      insert_rows phrase_admits query words rows = Some query'
      /\ graph_ok slots query'.
Proof.
  unfold insert_rows, rows_ok.
  induction rows as [|row rows IH]; intros Hall query Hok.
  - exists query. split; [reflexivity|exact Hok].
  - cbn [forallb] in Hall. apply andb_true_iff in Hall as [Hrow Hall].
    destruct (insert_ranges_graph slots row _ Hrow query Hok)
      as (query1 & Hstep & Hok1).
    cbn [fold_left]. rewrite Hstep. apply IH; assumption.
Qed.

(** X16: when every range listed for a row lies inside the query and the
    row reads for it, the loop over the rows of the lookup raises
    nothing and leaves a well-formed query of as many slots in which
    every token list holds a token. *)
Theorem insert_rows_keeps_graph (slots : nat)
    (words : gmap string (list TokenRange.t)) (rows : list SaRow.t)
    (query : QueryStruct.t) :
  graph_ok slots query ->
  rows_ok slots words rows = true ->
  exists query',
    insert_rows phrase_admits query words rows = Some query'
    /\ graph_ok slots query'.
Proof. intros Hok Hrows. apply insert_rows_graph; assumption. Qed.

End Rows.

Lemma query_two_slots_graph_ok : graph_ok 2 query_two_slots.
Proof.
  split; [reflexivity|]. split; [reflexivity|].
  intros i node tlist Hnode Hin. unfold node_at in Hnode.
  destruct i as [|[|[|i]]]; simpl in Hnode; inversion Hnode; subst;
    inversion Hin.
Qed.

Lemma insert_rows_keeps_graph_witness :
  exists query',
    insert_rows admits_all query_two_slots two_words two_rows = Some query'
    /\ graph_ok 2 query'.
Proof.
  apply (insert_rows_keeps_graph admits_all 2 two_words two_rows query_two_slots).
  - exact query_two_slots_graph_ok.
  - vm_compute. reflexivity.
Defined.

(** ** The tokens of a query, from the lookup on *)

Lemma add_extra_tokens_nonempty (phrase_admits : PhraseType -> TokenType -> bool)
    (query query' : QueryStruct.t) (parts : list QueryPart.t) :
  lists_nonempty query ->
  add_extra_tokens phrase_admits query parts = Some query' ->
  lists_nonempty query'.
Proof.
  intros Hne. rewrite add_extra_tokens_spec.
  intros H; inversion H; subst; clear H.
  intros i node' tlist Hnode' Hin.
  unfold node_at in Hnode'. simpl in Hnode'. rewrite list_lookup_imap in Hnode'.
  destruct (QueryStruct.nodes query !! i) as [node|] eqn:Hnode; [|discriminate].
  simpl in Hnode'. inversion Hnode'; subst node'; clear Hnode'.
  destruct (extra_node_cases phrase_admits parts 1000 i node)
    as [E|(part & Hpart & E)]; rewrite E in Hin.
  - exact (Hne i node tlist Hnode Hin).
  - simpl in Hin. apply elem_of_app in Hin as [Hin|Hin].
    + exact (Hne i node tlist Hnode Hin).
    + apply list_elem_of_singleton in Hin. subst tlist. discriminate.
Qed.

Lemma shape_lists_nonempty (query query' : QueryStruct.t) :
  query_shape query' = query_shape query ->
  lists_nonempty query -> lists_nonempty query'.
Proof.
  intros Hshape Hne i node' tlist' Hnode' Hin.
  destruct (shape_node_at query' query i node' (eq_sym Hshape) Hnode')
    as (node & Hnode & Hns).
  apply list_elem_of_lookup in Hin as [k Hk].
  destruct (shape_tlist_at node' node k tlist' Hns Hk) as (tlist & Htl & Hts).
  assert (tlist ∈ QueryNode.starting node) as Hin
    by (apply list_elem_of_lookup; eauto).
  pose proof (Hne i node tlist Hnode Hin) as Ht.
  unfold tlist_shape in Hts. inversion Hts as [[Hend Hty Hlw]].
  intros E. rewrite E in Hlw. simpl in Hlw.
  destruct (TokenList.tokens tlist); [congruence|discriminate].
Qed.

(** X17: from the lookup on, [analyze_query] raises nothing and returns a
    well-formed query of as many slots, in which every token list holds
    a token, when it starts from such a query, there is a term for each
    slot, and every range listed for a row lies inside the query and the
    row reads for it. *)
Theorem analyze_query_tokens_total (phrase_admits : PhraseType -> TokenType -> bool)
    (get_opcodes : string -> string -> list Opcode.t) (slots : nat)
    (query : QueryStruct.t) (parts : list QueryPart.t)
    (words : gmap string (list TokenRange.t)) (rows : list SaRow.t) :
  graph_ok slots query ->
  length parts = slots ->
  rows_ok slots words rows = true ->
  exists query',
    analyze_query_tokens phrase_admits get_opcodes query parts words rows = Some query'
    /\ graph_ok slots query'.
Proof.
  intros Hok Hparts Hrows. unfold analyze_query_tokens.
  destruct (insert_rows_graph phrase_admits slots words rows Hrows query Hok)
    as (query1 & -> & (Hwf1 & Hslots1 & Hne1)).
  destruct (add_extra_tokens phrase_admits query1 parts) as [query2|] eqn:Hextra;
    [|rewrite add_extra_tokens_spec in Hextra; discriminate].
  destruct (add_extra_tokens_graph phrase_admits query1 query2 parts Hwf1
              ltac:(lia) Hextra) as (Hwf2 & Hslots2 & _).
  pose proof (add_extra_tokens_nonempty phrase_admits query1 query2 parts Hne1 Hextra)
    as Hne2.
  destruct (rerank_fold_some get_opcodes parts query2 (iter_token_lists query2)
              Hwf2 Hne2 ltac:(lia) ltac:(auto) query2 eq_refl) as [query3 Hrerank].
  exists query3. split; [exact Hrerank|].
  pose proof (rerank_fold_shape get_opcodes parts _ _ _ Hrerank) as Hshape.
  split; [exact (shape_wf_query _ _ Hshape Hwf2)|].
  split; [rewrite (shape_num_token_slots _ _ Hshape); lia|].
  exact (shape_lists_nonempty _ _ Hshape Hne2).
Qed.

Lemma analyze_query_tokens_total_witness :
  exists query',
    analyze_query_tokens admits_all opcodes_of_equal query_two_slots two_parts two_words
      two_rows = Some query'
    /\ graph_ok 2 query'.
Proof.
  apply (analyze_query_tokens_total admits_all opcodes_of_equal 2 query_two_slots two_parts
           two_words two_rows).
  - exact query_two_slots_graph_ok.
  - reflexivity.
  - vm_compute. reflexivity.
Defined.

(** ** The results the near search keeps *)

(** X18: the near search keeps the best result of the inner search
    exactly when it comes from placex, has a bounding box of an area
    below 20 and an address rank from 0 to 30. *)
Theorem near_base_keeps_best (base : list SearchResult.t) (r0 : SearchResult.t) :
  head (sort_results base) = Some r0 ->
  r0 ∈ near_base base
  <-> SearchResult.source_table r0 = PLACEX
      /\ (exists b, SearchResult.bbox r0 = Some b /\ (Bbox.area b < 20)%Q)
      /\ (0 <= SearchResult.rank_address r0 <= 30)%Z.
Proof.
  intros Hhead. rewrite (near_base_filter base r0 Hhead).
  rewrite list_elem_of_In, filter_In, <- list_elem_of_In, retained_spec.
  assert (r0 ∈ sort_results base) as Hin0.
  { destruct (sort_results base) as [|r0' sorted]; [discriminate|].
    simpl in Hhead. inversion Hhead. constructor. }
  assert (SearchResult.accuracy r0
          <= fadd (SearchResult.accuracy r0) (Double.of_Q 0.5))%Q as Hacc.
  { apply round_double_add_ge. vm_compute. discriminate. }
  assert (in_rank_window (SearchResult.rank_address r0) (SearchResult.rank_address r0)
          <-> (0 <= SearchResult.rank_address r0 <= 30)%Z) as Hin
    by (unfold in_rank_window; lia).
  tauto.
Qed.

Lemma near_base_keeps_best_witness :
  result_street ∈ near_base inner_results.
Proof.
  apply (near_base_keeps_best inner_results result_street).
  - vm_compute. reflexivity.
  - split; [reflexivity|]. split.
    + exists (Bbox.mk 0.01). split; [reflexivity|]. simpl. lra.
    + simpl. lia.
Defined.

(** ** The layer filter *)

(** X19: with every layer asked for, the filter lets through exactly the
    rows whose address rank is from 0 to 30. *)
Theorem filter_by_layer_all (row : PlacexRow.t) :
  holds row (_filter_by_layer (DataLayer.mk true true true true true))
  = (0 <=? PlacexRow.rank_address row)%Z && (PlacexRow.rank_address row <=? 30)%Z.
Proof.
  simpl. rewrite orb_false_r.
  destruct (1 <=? PlacexRow.rank_address row)%Z eqn:H1;
    destruct (PlacexRow.rank_address row <=? 30)%Z eqn:H30;
    destruct (PlacexRow.rank_address row =? 0)%Z eqn:H0;
    destruct (0 <=? PlacexRow.rank_address row)%Z eqn:H00;
    try reflexivity; exfalso;
    rewrite ?Z.leb_le, ?Z.leb_gt, ?Z.eqb_eq, ?Z.eqb_neq in *; lia.
Qed.

Lemma holds_filter_by_layer (layers : DataLayer.t) (row : PlacexRow.t) :
  holds row (_filter_by_layer layers)
  = passes_by_rank layers row || passes_by_class layers row.
Proof.
  destruct layers as [a p r n m]. unfold passes_by_rank, passes_by_class.
  destruct a, p, r, n, m; cbn -[Z.leb Z.eqb String.eqb]; btauto.
Qed.

Lemma passes_by_rank_monotone (layers layers' : DataLayer.t) (row : PlacexRow.t) :
  layers_le layers layers' = true ->
  (PlacexRow.is_address_point row = true ->
   (1 <= PlacexRow.rank_address row <= 30)%Z) ->
  passes_by_rank layers row = true ->
  passes_by_rank layers' row = true.
Proof.
  intros Hle Hpoint. unfold passes_by_rank.
  destruct layers as [a p r n m], layers' as [a' p' r' n' m'].
  destruct row as [rank class point]. simpl in *.
  destruct a, p, a', p'; try discriminate Hle; simpl; try discriminate;
    rewrite ?orb_true_iff, ?andb_true_iff, ?Z.leb_le, ?Z.eqb_eq; try tauto; try lia.
  intros [H|H]; [lia|]. apply Hpoint in H. lia.
Qed.

Lemma passes_by_class_monotone (layers layers' : DataLayer.t) (row : PlacexRow.t) :
  layers_le layers layers' = true ->
  passes_by_class layers row = true ->
  passes_by_class layers' row = true.
Proof.
  intros Hle. unfold passes_by_class.
  destruct layers as [a p r n m], layers' as [a' p' r' n' m'].
  destruct row as [rank class point]. unfold layers_le in Hle. simpl in Hle.
  cbn [PlacexRow.rank_address PlacexRow.class_ DataLayer.RAILWAY DataLayer.NATURAL
       DataLayer.MANMADE].
  destruct (rank =? 0)%Z; [|intros H; discriminate H].
  assert (implb r r' && implb n n' && implb m m' = true) as Hle'.
  { destruct a, p, a', p', r, r', n, n', m, m'; simpl in Hle |- *;
      congruence. }
  clear Hle.
  destruct r, n, m, r', n', m'; try discriminate Hle';
    cbn -[String.eqb]; intros H; try exact H; try discriminate H;
    destruct (String.eqb_spec class "railway") as [->|];
    try (simpl in H |- *; congruence);
    destruct (String.eqb class "natural"), (String.eqb class "water"),
      (String.eqb class "waterway");
    simpl in H |- *; congruence.
Qed.

(** X20: asking for more layers never filters out a row that passed with
    fewer, given that address points have an address rank from 1 to
    30. *)
Theorem filter_by_layer_monotone (layers layers' : DataLayer.t) (row : PlacexRow.t) :
  layers_le layers layers' = true ->
  (PlacexRow.is_address_point row = true ->
   (1 <= PlacexRow.rank_address row <= 30)%Z) ->
  holds row (_filter_by_layer layers) = true ->
  holds row (_filter_by_layer layers') = true.
Proof.
  intros Hle Hpoint. rewrite !holds_filter_by_layer, !orb_true_iff.
  intros [H|H].
  - left. exact (passes_by_rank_monotone layers layers' row Hle Hpoint H).
  - right. exact (passes_by_class_monotone layers layers' row Hle H).
Qed.

Lemma filter_by_layer_monotone_witness :
  holds (PlacexRow.mk 0 "railway" false)
    (_filter_by_layer (DataLayer.mk true false true false true)) = true.
Proof.
  apply (filter_by_layer_monotone (DataLayer.mk false false true false false)
           (DataLayer.mk true false true false true)
           (PlacexRow.mk 0 "railway" false)).
  - reflexivity.
  - simpl. discriminate.
  - reflexivity.
Defined.

(** ** The results of a place search *)

Lemma decimal_value_range (c : N) (d : Z) :
  decimal_value c = Some d -> (0 <= d <= 9)%Z.
Proof.
  unfold decimal_value. destruct (List.find _ _) as [[lo hi]|]; [|discriminate].
  intros H; inversion H; subst; clear H.
  pose proof (N.mod_lt (c - lo) 10 ltac:(discriminate)) as Hlt.
  set (d := ((c - lo) mod 10)%N) in *. clearbody d. lia.
Qed.

Lemma int_of_digits_acc (l : list N) :
  forall (acc n : Z),
    (0 <= acc)%Z ->
    fold_left (fun acc c =>
                 match acc, decimal_value c with
                 | Some acc, Some d => Some (10 * acc + d)%Z
                 | _, _ => None
                 end) l (Some acc) = Some n ->
    (0 <= n < (acc + 1) * 10 ^ Z.of_nat (length l))%Z.
Proof.
  induction l as [|c l IH]; intros acc n Hacc Hn.
  - simpl in *. inversion Hn; subst. lia.
  - cbn [fold_left] in Hn.
    destruct (decimal_value c) as [d|] eqn:Hd.
    + apply decimal_value_range in Hd.
      apply IH in Hn; [|lia]. destruct Hn as [H0 H1]. split; [exact H0|].
      cbn [length]. rewrite Nat2Z.inj_succ, Z.pow_succ_r by lia.
      eapply Z.lt_le_trans; [exact H1|].
      assert (0 < 10 ^ Z.of_nat (length l))%Z by (apply Z.pow_pos_nonneg; lia).
      nia.
    + exfalso. clear -Hn. induction l as [|c' l IHl]; [discriminate|].
      apply IHl. exact Hn.
Qed.

Lemma int_of_digits_none (l : list N) :
  forall acc,
    fold_left (fun acc c =>
                 match acc, decimal_value c with
                 | Some acc, Some d => Some (10 * acc + d)%Z
                 | _, _ => None
                 end) l (Some acc) = None ->
    exists c, c ∈ l /\ decimal_value c = None.
Proof.
  induction l as [|c l IH]; intros acc Hn; [discriminate|].
  cbn [fold_left] in Hn. destruct (decimal_value c) as [d|] eqn:Hd.
  - destruct (IH _ Hn) as (c' & Hin & Hc'). exists c'. split; [|exact Hc'].
    constructor. exact Hin.
  - exists c. split; [constructor|exact Hd].
Qed.

Lemma int_of_digits_bound (value : string) (n : Z) :
  len value < 8 -> int_of_digits value = Some n -> (0 <= n < 10000000)%Z.
Proof.
  intros Hlen. unfold int_of_digits. destruct (len value =? 0); [discriminate|].
  intros Hn. apply int_of_digits_acc in Hn; [|lia].
  destruct Hn as [H0 H1]. split; [exact H0|].
  eapply Z.lt_le_trans; [exact H1|].
  change 10000000%Z with (10 ^ 7)%Z. rewrite Z.mul_1_l.
  apply Z.pow_le_mono_r; [lia|]. unfold len in Hlen. lia.
Qed.

(** X21: the numerals handed to the lookups of interpolated house
    numbers are the numbers written by the house numbers that are
    strings of one to seven digits, in their order, no other: each is a
    number from 0 to 9999999.  The list raises a [ValueError] exactly
    when such a house number holds a digit that is no decimal digit. *)
Theorem numerals_bound (values : list string) :
  match numerals values with
  | Some numerals =>
      (exists kept : string -> bool,
         Forall2 (fun value n => int_of_digits value = Some n)
                 (List.filter kept values) numerals
         /\ forall value, kept value = true
                          <-> isdigit value = true /\ len value < 8)
      /\ (forall n, n ∈ numerals <->
         exists value, value ∈ values /\ isdigit value = true /\ len value < 8
                       /\ int_of_digits value = Some n)
      /\ (forall n, n ∈ numerals -> (0 <= n < 10000000)%Z)
      /\ (forall value, value ∈ values -> isdigit value = true -> len value < 8 ->
            exists n, int_of_digits value = Some n)
  | None =>
      exists value c,
        value ∈ values /\ isdigit value = true /\ len value < 8
        /\ c ∈ chars value /\ char_isdigit c = true /\ decimal_value c = None
  end.
Proof.
  unfold numerals.
  assert (forall value,
            value ∈ List.filter (fun n => isdigit n && (len n <? 8)) values
            <-> value ∈ values /\ isdigit value = true /\ len value < 8) as Hfilter.
  { intros value. rewrite list_elem_of_In, filter_In, <- list_elem_of_In.
    rewrite andb_true_iff, Nat.ltb_lt. tauto. }
  destruct (mapM _ _) as [nums|] eqn:Hmap.
  - apply mapM_Some in Hmap.
    assert (forall n, n ∈ nums <->
              exists value, value ∈ values /\ isdigit value = true /\ len value < 8
                            /\ int_of_digits value = Some n) as Hiff.
    { intros n. split.
      - intros Hn. apply list_elem_of_lookup in Hn as [i Hi].
        destruct (Forall2_lookup_r _ _ _ _ _ Hmap Hi) as (value & Hv & Hint).
        exists value. apply list_elem_of_lookup_2, Hfilter in Hv.
        tauto.
      - intros (value & Hv & Hd & Hl & Hint).
        assert (value ∈ List.filter (fun n => isdigit n && (len n <? 8)) values)
          as Hin by (apply Hfilter; tauto).
        apply list_elem_of_lookup in Hin as [i Hi].
        destruct (Forall2_lookup_l _ _ _ _ _ Hmap Hi) as (n' & Hn' & Hint').
        rewrite Hint in Hint'. inversion Hint'; subst n'.
        eapply list_elem_of_lookup_2, Hn'. }
    split; [|split; [exact Hiff|split]].
    + exists (fun n => isdigit n && (len n <? 8)). split; [exact Hmap|].
      intros value. rewrite andb_true_iff, Nat.ltb_lt. tauto.
    + intros n Hn. apply Hiff in Hn as (value & _ & _ & Hl & Hint).
      exact (int_of_digits_bound value n Hl Hint).
    + intros value Hv Hd Hl.
      assert (value ∈ List.filter (fun n => isdigit n && (len n <? 8)) values)
        as Hin by (apply Hfilter; tauto).
      apply list_elem_of_lookup in Hin as [i Hi].
      destruct (Forall2_lookup_l _ _ _ _ _ Hmap Hi) as (n & _ & Hint). eauto.
  - apply mapM_None, Exists_exists in Hmap as (value & Hv & Hint).
    apply Hfilter in Hv as (Hv & Hd & Hl).
    unfold int_of_digits in Hint. pose proof Hd as Hd'.
    unfold isdigit in Hd'. apply andb_true_iff in Hd' as [Hne Hall].
    apply negb_true_iff in Hne. rewrite Hne in Hint.
    apply int_of_digits_none in Hint as (c & Hc & Hdec).
    exists value, c. repeat split; try assumption.
    rewrite forallb_forall in Hall. apply Hall, list_elem_of_In, Hc.
Qed.

Lemma numerals_bound_witness :
  (forall n, n ∈ [12%Z; 12%Z] ->  (0 <= n < 10000000)%Z)
  /\ numerals ["12"; "12a"; "١٢"; "123456789"] = Some [12%Z; 12%Z]
  /\ numerals ["12"; "²"] = None.
Proof.
  split; [|split; vm_compute; reflexivity].
  pose proof (numerals_bound ["12"; "12a"; "١٢"; "123456789"]) as H.
  replace (numerals ["12"; "12a"; "١٢"; "123456789"]) with (Some [12%Z; 12%Z]) in H
    by (vm_compute; reflexivity).
  apply H.
Defined.

Lemma no_semicolon_empty : no_semicolon EmptyString.
Proof. intros [|c before] after; discriminate. Qed.

Lemma no_semicolon_cons (c : ascii) (s : string) :
  no_semicolon (String c s) <-> c <> ";"%char /\ no_semicolon s.
Proof.
  split.
  - intros H. split.
    + intros ->. exact (H EmptyString s eq_refl).
    + intros before after E. apply (H (String c before) after).
      rewrite E. reflexivity.
  - intros [Hc Hs] [|c' before] after E.
    + inversion E. congruence.
    + inversion E. exact (Hs before after ltac:(assumption)).
Qed.

Lemma split_semicolon_nonempty (s : string) : split_semicolon s <> [].
Proof.
  destruct s as [|c r]; simpl; [discriminate|].
  destruct (Ascii.eqb c ";"); [discriminate|].
  destruct (split_semicolon r); discriminate.
Qed.

(** The first part stands at the start, the others behind a semicolon. *)
Lemma split_semicolon_parts (s : string) :
  forall w ws,
    split_semicolon s = w :: ws ->
    (no_semicolon w
     /\ exists after,
          s = w +:+ after /\ (after = EmptyString \/ exists a, after = ";" +:+ a))
    /\ forall nr,
         nr ∈ ws ->
         no_semicolon nr
         /\ exists b after,
              s = (b +:+ ";") +:+ nr +:+ after
              /\ (after = EmptyString \/ exists a, after = ";" +:+ a).
Proof.
  induction s as [|c r IH]; intros w ws Hsplit.
  - simpl in Hsplit. inversion Hsplit; subst. split.
    + split; [exact no_semicolon_empty|]. exists EmptyString. auto.
    + intros nr Hnr. inversion Hnr.
  - cbn [split_semicolon] in Hsplit.
    destruct (split_semicolon r) as [|w' ws'] eqn:Hr;
      [exfalso; exact (split_semicolon_nonempty r Hr)|].
    destruct (IH w' ws' eq_refl) as [(Hw' & after' & Er & Hafter') Htail].
    destruct (Ascii.eqb_spec c ";") as [->|Hc].
    + inversion Hsplit; subst w ws. split.
      * split; [exact no_semicolon_empty|]. exists (String ";" r).
        split; [reflexivity|]. right. exists r. reflexivity.
      * intros nr Hnr. apply elem_of_cons in Hnr as [->|Hnr].
        -- split; [exact Hw'|]. exists EmptyString, after'.
           split; [|exact Hafter']. rewrite Er at 1. reflexivity.
        -- destruct (Htail nr Hnr) as (Hn & b & after & Eb & Hafter).
           split; [exact Hn|]. exists (String ";" b), after.
           split; [|exact Hafter]. rewrite Eb at 1. reflexivity.
    + inversion Hsplit; subst w ws. split.
      * split; [apply no_semicolon_cons; auto|]. exists after'.
        split; [|exact Hafter']. rewrite Er at 1. reflexivity.
      * intros nr Hnr. destruct (Htail nr Hnr) as (Hn & b & after & Eb & Hafter).
        split; [exact Hn|]. exists (String c b), after.
        split; [|exact Hafter]. rewrite Eb at 1. reflexivity.
Qed.

Lemma split_semicolon_head (nr after : string) :
  no_semicolon nr ->
  (after = EmptyString \/ exists a, after = ";" +:+ a) ->
  exists ws, split_semicolon (nr +:+ after) = nr :: ws.
Proof.
  induction nr as [|c nr IH]; intros Hnr Hafter.
  - change (EmptyString +:+ after) with after.
    destruct Hafter as [->|[a ->]]; [exists []; reflexivity|].
    exists (split_semicolon a). reflexivity.
  - apply no_semicolon_cons in Hnr as [Hc Hnr].
    destruct (IH Hnr Hafter) as [ws Hws].
    change (String c nr +:+ after) with (String c (nr +:+ after)).
    cbn [split_semicolon]. rewrite Hws.
    destruct (Ascii.eqb_spec c ";") as [->|_]; [congruence|].
    exists ws. reflexivity.
Qed.

Lemma split_semicolon_skip (b rest : string) :
  exists w pre,
    split_semicolon ((b +:+ ";") +:+ rest) = (w :: pre) ++ split_semicolon rest.
Proof.
  induction b as [|c b (w & pre & IH)].
  - exists EmptyString, []. reflexivity.
  - change ((String c b +:+ ";") +:+ rest) with (String c ((b +:+ ";") +:+ rest)).
    cbn [split_semicolon]. rewrite IH.
    destruct (Ascii.eqb c ";"); [exists EmptyString, (w :: pre); reflexivity|].
    exists (String c w), pre. reflexivity.
Qed.

(** [split(';')] gives the parts between the semicolons. *)
Lemma split_semicolon_spec (s nr : string) :
  nr ∈ split_semicolon s <-> semicolon_part nr s.
Proof.
  split.
  - intros Hnr. destruct (split_semicolon s) as [|w ws] eqn:Hs;
      [inversion Hnr|].
    destruct (split_semicolon_parts s w ws Hs) as [(Hw & after & E & Hafter) Htail].
    apply elem_of_cons in Hnr as [->|Hnr].
    + split; [exact Hw|]. exists EmptyString, after. auto.
    + destruct (Htail nr Hnr) as (Hn & b & after' & E' & Hafter').
      split; [exact Hn|]. exists (b +:+ ";"), after'. eauto.
  - intros (Hn & before & after & -> & Hbefore & Hafter).
    destruct (split_semicolon_head nr after Hn Hafter) as [ws Hws].
    destruct Hbefore as [->|[b ->]].
    + change (EmptyString +:+ nr +:+ after) with (nr +:+ after).
      rewrite Hws. constructor.
    + destruct (split_semicolon_skip b (nr +:+ after)) as (w & pre & Hskip).
      rewrite Hskip, Hws. apply elem_of_app. right. constructor.
Qed.

Lemma string_in_elem (s : string) (l : list string) :
  string_in s l = true <-> s ∈ l.
Proof.
  unfold string_in. rewrite existsb_exists. split.
  - intros (x & Hx & E). apply String.eqb_eq in E. subst.
    apply list_elem_of_In, Hx.
  - intros H. exists s. split; [apply list_elem_of_In, H|apply String.eqb_refl].
Qed.

Section PlaceResults.

Variable housenumbers : list string.
Variable qualifiers : list (string * string).
Variable excluded : list Z.
Variable min_rank : Z.
Variable _get_placex_housenumbers : list Z -> list PlaceResult.t.
Variable _get_osmline : list Z -> list Z -> list PlaceResult.t.
Variable _get_tiger : list Z -> list Z -> Z -> list PlaceResult.t.

Lemma housenumber_found_spec (housenumber : string) :
  existsb (fun nr => string_in nr housenumbers) (split_semicolon housenumber) = true
  <-> housenumber_found housenumbers housenumber.
Proof.
  unfold housenumber_found. rewrite existsb_exists. split.
  - intros (nr & Hnr & Hin). exists nr. split; [apply string_in_elem, Hin|].
    apply split_semicolon_spec, list_elem_of_In, Hnr.
  - intros (nr & Hin & Hpart). exists nr.
    split; [apply list_elem_of_In, split_semicolon_spec, Hpart|].
    apply string_in_elem, Hin.
Qed.

Lemma sub_result_passed (accuracy : Double.t) (found sub : PlaceResult.t) :
  sub_result housenumbers accuracy found = Some sub ->
  passed_on housenumbers accuracy found sub.
Proof.
  unfold sub_result, passed_on.
  destruct (PlaceResult.housenumber found) as [housenumber|] eqn:Hh; [|discriminate].
  destruct (String.length housenumber =? 0) eqn:Hlen; [discriminate|].
  assert (housenumber <> EmptyString) as Hne by (intros ->; discriminate).
  pose proof (housenumber_found_spec housenumber) as Hspec.
  destruct (existsb _ _); intros H; inversion H; subst; clear H;
    (split; [reflexivity|]); exists housenumber;
    (split; [reflexivity|]); (split; [exact Hne|]); simpl; split; intros Hf.
  - reflexivity.
  - exfalso. apply Hf, Hspec. reflexivity.
  - apply Hspec in Hf. discriminate.
  - reflexivity.
Qed.

Lemma sub_result_accuracy (accuracy : Double.t) (found sub : PlaceResult.t) :
  sub_result housenumbers accuracy found = Some sub ->
  (accuracy <= PlaceResult.accuracy sub)%Q.
Proof.
  unfold sub_result.
  destruct (PlaceResult.housenumber found) as [housenumber|]; [|discriminate].
  destruct (String.length housenumber =? 0); [discriminate|].
  destruct (existsb _ _); intros H; inversion H; subst; simpl.
  - apply Qle_refl.
  - apply fadd_ge. vm_compute. discriminate.
Qed.

Lemma row_results_split (numerals : list Z) (row : PlaceRow.t)
    (out : list PlaceResult.t) :
  housenumbers <> [] ->
  (PlaceRow.rank_address row < 30)%Z ->
  row_results housenumbers qualifiers excluded min_rank
    _get_placex_housenumbers _get_osmline _get_tiger numerals row = Some out ->
  exists subs,
    out = subs
          ++ (if street_kept qualifiers excluded min_rank (create_from_placex_row row)
              then [set_accuracy (fadd (PlaceRow.accuracy row) (Double.of_Q 1.0))
                      (create_from_placex_row row)]
              else [])
    /\ mapM (sub_result housenumbers (PlaceRow.accuracy row))
            (row_subs _get_placex_housenumbers _get_osmline _get_tiger numerals row)
       = Some subs.
Proof.
  intros Hh Hrank. unfold row_results.
  assert ((length housenumbers =? 0) = false) as ->
    by (destruct housenumbers; [congruence|reflexivity]).
  apply Z.ltb_lt in Hrank. rewrite Hrank. cbn [negb andb].
  change (PlaceResult.accuracy
            (set_accuracy (PlaceRow.accuracy row) (create_from_placex_row row)))
    with (PlaceRow.accuracy row).
  destruct (mapM _ _) as [subs|] eqn:Hsubs; [|discriminate].
  change (street_kept qualifiers excluded min_rank
            (set_accuracy (PlaceRow.accuracy row) (create_from_placex_row row)))
    with (street_kept qualifiers excluded min_rank (create_from_placex_row row)).
  destruct (street_kept _ _ _ _); intros H; injection H as <-;
    exists subs; (split; [|reflexivity]).
  - reflexivity.
  - rewrite app_nil_r. reflexivity.
Qed.

(** X22: for a street searched with house numbers, the loop first passes
    on the house-number results found below it, in their order: those of
    placex if there are any, else the interpolated ones of the
    interpolation lines, else those of Tiger.  Each has a house number
    and gets the accuracy of the row when one of its house numbers,
    which semicolons separate, is among those searched for, and 0.6 more
    otherwise.  Then, if it passes the filters, comes the street itself
    with the accuracy of the row plus 1. *)
Theorem housenumbers_before_street (numerals : list Z) (row : PlaceRow.t)
    (out : list PlaceResult.t) :
  housenumbers <> [] ->
  (PlaceRow.rank_address row < 30)%Z ->
  row_results housenumbers qualifiers excluded min_rank
    _get_placex_housenumbers _get_osmline _get_tiger numerals row = Some out ->
  exists found subs,
    out = subs
          ++ (if street_kept qualifiers excluded min_rank (create_from_placex_row row)
              then [set_accuracy (fadd (PlaceRow.accuracy row) (Double.of_Q 1.0))
                      (create_from_placex_row row)]
              else [])
    /\ Forall2 (passed_on housenumbers (PlaceRow.accuracy row)) found subs
    /\ found
       = match PlaceRow.placex_hnr row, PlaceRow.interpol_hnr row,
               PlaceRow.tiger_hnr row with
         | Some (id :: ids), _, _ => _get_placex_housenumbers (id :: ids)
         | _, Some (id :: ids), _ => _get_osmline (id :: ids) numerals
         | _, _, Some (id :: ids) =>
             _get_tiger (id :: ids) numerals (PlaceRow.osm_id row)
         | _, _, _ => []
         end.
Proof.
  intros Hh Hrank Hout.
  destruct (row_results_split numerals row out Hh Hrank Hout) as (subs & -> & Hsubs).
  exists (row_subs _get_placex_housenumbers _get_osmline _get_tiger numerals row), subs.
  split; [reflexivity|]. split.
  - apply mapM_Some_1 in Hsubs.
    eapply Forall2_impl; [exact Hsubs|].
    intros found sub. apply sub_result_passed.
  - unfold row_subs.
    destruct (PlaceRow.placex_hnr row) as [[|? ?]|],
      (PlaceRow.interpol_hnr row) as [[|? ?]|],
      (PlaceRow.tiger_hnr row) as [[|? ?]|]; reflexivity.
Qed.

Lemma row_results_accuracy (numerals : list Z) (row : PlaceRow.t)
    (out : list PlaceResult.t) :
  row_results housenumbers qualifiers excluded min_rank
    _get_placex_housenumbers _get_osmline _get_tiger numerals row = Some out ->
  Forall (fun r => (PlaceRow.accuracy row <= PlaceResult.accuracy r)%Q) out.
Proof.
  intros Hout.
  destruct (negb (length housenumbers =? 0) && (PlaceRow.rank_address row <? 30)%Z)
    eqn:Hc.
  - apply andb_true_iff in Hc as [Hh Hrank].
    apply negb_true_iff, Nat.eqb_neq in Hh. apply Z.ltb_lt in Hrank.
    destruct (row_results_split numerals row out) as (subs & -> & Hsubs);
      [intros E; rewrite E in Hh; apply Hh; reflexivity|exact Hrank|exact Hout|].
    apply Forall_app. split.
    + apply mapM_Some_1 in Hsubs. clear Hout.
      induction Hsubs as [|x y xs ys Hxy _ IH]; [constructor|].
      constructor; [exact (sub_result_accuracy _ x y Hxy)|exact IH].
    + destruct (street_kept _ _ _ _); constructor; [|constructor].
      apply fadd_ge. vm_compute. discriminate.
  - unfold row_results in Hout. rewrite Hc in Hout.
    inversion Hout; subst. constructor; [apply Qle_refl|constructor].
Qed.

Lemma place_results_fold (a : Q) (numerals : list Z) (rows : list PlaceRow.t) :
  Forall (fun row => (a <= PlaceRow.accuracy row)%Q) rows ->
  forall acc out,
    Forall (fun r => (a <= PlaceResult.accuracy r)%Q) acc ->
    fold_left (fun results row =>
                 match results,
                       row_results housenumbers qualifiers excluded min_rank
                         _get_placex_housenumbers _get_osmline _get_tiger
                         numerals row with
                 | Some results, Some more => Some (results ++ more)
                 | _, _ => None
                 end) rows (Some acc) = Some out ->
    Forall (fun r => (a <= PlaceResult.accuracy r)%Q) out.
Proof.
  induction 1 as [|row rows Hrow _ IH]; intros acc out Hacc Hout.
  - inversion Hout; subst. exact Hacc.
  - cbn [fold_left] in Hout.
    destruct (row_results _ _ _ _ _ _ _ _ row) as [more|] eqn:Hmore.
    + apply (IH (acc ++ more) out); [|exact Hout].
      apply Forall_app. split; [exact Hacc|].
      eapply Forall_impl; [exact (row_results_accuracy numerals row more Hmore)|].
      intros r Hr. simpl in Hr. lra.
    + exfalso. clear -Hout. induction rows as [|r rs IHr]; [discriminate|].
      apply IHr. exact Hout.
Qed.

(** X23: no result of a place search is more accurate than its row: when
    every row has an accuracy of at least [a], so has every result. *)
Theorem place_results_accuracy (a : Q) (rows : list PlaceRow.t)
    (out : list PlaceResult.t) :
  Forall (fun row => (a <= PlaceRow.accuracy row)%Q) rows ->
  place_results housenumbers qualifiers excluded min_rank
    _get_placex_housenumbers _get_osmline _get_tiger rows = Some out ->
  Forall (fun r => (a <= PlaceResult.accuracy r)%Q) out.
Proof.
  intros Hrows. unfold place_results.
  destruct (numerals housenumbers) as [nums|]; [|discriminate].
  intros Hout. apply (place_results_fold a nums rows Hrows [] out); [constructor|].
  exact Hout.
Qed.

End PlaceResults.

Lemma housenumbers_before_street_witness :
  exists found subs,
    street_row_results
    = subs ++ (if street_kept [] [] 0 (create_from_placex_row street_row)
               then [set_accuracy (fadd (PlaceRow.accuracy street_row)
                                        (Double.of_Q 1.0))
                       (create_from_placex_row street_row)]
               else [])
    /\ Forall2 (passed_on ["12"] (PlaceRow.accuracy street_row)) found subs
    /\ found = houses_below [8%Z; 9%Z; 10%Z].
Proof.
  apply (housenumbers_before_street ["12"] [] [] 0 houses_below
           (fun _ _ => []) (fun _ _ _ => []) [12%Z] street_row street_row_results).
  - discriminate.
  - simpl. lia.
  - vm_compute. reflexivity.
Defined.

Lemma place_results_accuracy_witness :
  Forall (fun r => (Double.of_Q 0.3 <= PlaceResult.accuracy r)%Q) street_row_results.
Proof.
  apply (place_results_accuracy ["12"] [] [] 0 houses_below
           (fun _ _ => []) (fun _ _ _ => []) (Double.of_Q 0.3) [street_row]
           street_row_results).
  - constructor; [vm_compute; discriminate|constructor].
  - vm_compute. reflexivity.
Defined.

(** ** The categories of a near search *)

Section NearLookup.

Variable penalty : Double.t.
Variable categories : list ((string * string) * Double.t).
Variable max_results : nat.
Variable category_rows : list Z -> string * string -> list SearchResult.t.

Hypothesis rows_limited :
  forall ids category, length (category_rows ids category) <= max_results.

Lemma lookup_categories_spec (ids : list Z) (cats : list ((string * string) * Double.t)) :
  forall results,
    length results < max_results ->
    (forall r, r ∈ results ->
       exists category cat_penalty,
         (category, cat_penalty) ∈ categories
         /\ SearchResult.accuracy r = fadd penalty cat_penalty) ->
    (forall cat, cat ∈ cats -> cat ∈ categories) ->
    length (lookup_categories penalty max_results category_rows ids cats results)
    < 2 * max_results
    /\ forall r,
         r ∈ lookup_categories penalty max_results category_rows ids cats results ->
         exists category cat_penalty,
           (category, cat_penalty) ∈ categories
           /\ SearchResult.accuracy r = fadd penalty cat_penalty.
Proof.
  induction cats as [|[category cat_penalty] cats IH]; intros results Hlen Hacc Hcats.
  - simpl. split; [lia|exact Hacc].
  - cbn [lookup_categories].
    assert (length (results ++ lookup_category penalty category_rows ids category
                                 cat_penalty) < 2 * max_results) as Hlen'.
    { rewrite length_app. unfold lookup_category. rewrite length_map.
      pose proof (rows_limited ids category). lia. }
    assert (forall r,
              r ∈ results ++ lookup_category penalty category_rows ids category
                               cat_penalty ->
              exists category cat_penalty,
                (category, cat_penalty) ∈ categories
                /\ SearchResult.accuracy r = fadd penalty cat_penalty) as Hacc'.
    { intros r Hr. apply elem_of_app in Hr as [Hr|Hr]; [exact (Hacc r Hr)|].
      unfold lookup_category in Hr.
      apply list_elem_of_fmap in Hr as (r0 & -> & _).
      exists category, cat_penalty. split; [|reflexivity].
      apply Hcats. constructor. }
    destruct (max_results <=? length _) eqn:Hfull.
    + split; [exact Hlen'|exact Hacc'].
    + apply Nat.leb_gt in Hfull. apply IH; [exact Hfull|exact Hacc'|].
      intros cat Hcat. apply Hcats. constructor. exact Hcat.
Qed.

(** X24: when [max_results] is positive and the query of a category
    gives no more than [max_results] rows, a near search returns fewer than twice [max_results] results,
    and the accuracy of each is the float sum of the penalty of the
    search and the penalty of one of its categories. *)
Theorem near_lookup_results (base : list SearchResult.t) :
  0 < max_results ->
  length (near_lookup penalty categories max_results category_rows base)
  < 2 * max_results
  /\ forall r,
       r ∈ near_lookup penalty categories max_results category_rows base ->
       exists category cat_penalty,
         (category, cat_penalty) ∈ categories
         /\ SearchResult.accuracy r = fadd penalty cat_penalty.
Proof.
  intros Hmax. unfold near_lookup.
  destruct (near_base base) as [|r0 kept].
  - split; [simpl; lia|]. intros r Hr. inversion Hr.
  - apply lookup_categories_spec; [simpl; lia| |auto].
    intros r Hr. inversion Hr.
Qed.

End NearLookup.

Lemma near_lookup_results_witness :
  length (near_lookup (Double.of_Q 0.5) [(("amenity", "pub"), Double.of_Q 0.1); (("amenity", "bar"), Double.of_Q 0.2)] 1
            (fun _ _ => [result_house]) inner_results) < 2 * 1.
Proof.
  apply (near_lookup_results (Double.of_Q 0.5)
           [(("amenity", "pub"), Double.of_Q 0.1); (("amenity", "bar"), Double.of_Q 0.2)]
           1 (fun _ _ => [result_house])).
  - intros ids category. simpl. lia.
  - lia.
Defined.

(** ** The country search *)

(** X25: a country search that finds something sets the rank window of
    the searches after it to [min(5, max_rank)] and [min(25, max_rank)]:
    the window is never empty, whatever the former [min_rank] was, and
    does not go beyond the former [max_rank]; a search that finds
    nothing leaves the details as they are, and the country tables are
    not asked when places are excluded. *)
Theorem country_lookup_ranks
    (placex_countries country_tables : SearchDetails.t -> list SearchResult.t)
    (details : SearchDetails.t) :
  let '(results, details') :=
    country_lookup placex_countries country_tables details in
  (results = [] -> details' = details)
  /\ (results <> [] ->
      SearchDetails.min_rank details' = Z.min 5 (SearchDetails.max_rank details)
      /\ SearchDetails.max_rank details' = Z.min 25 (SearchDetails.max_rank details)
      /\ (SearchDetails.min_rank details' <= SearchDetails.max_rank details'
          <= SearchDetails.max_rank details)%Z
      /\ SearchDetails.excluded details' = SearchDetails.excluded details
      /\ SearchDetails.max_results details' = SearchDetails.max_results details)
  /\ (placex_countries details = [] -> SearchDetails.excluded details <> [] ->
      results = [])
  /\ (placex_countries details <> [] -> results = placex_countries details).
Proof.
  unfold country_lookup, lookup_in_country_table.
  destruct (placex_countries details) as [|r rs] eqn:Hplacex.
  - destruct (SearchDetails.excluded details) as [|e es] eqn:Hex.
    + destruct (country_tables details) as [|c cs]; simpl;
        repeat split; try congruence; simpl; lia.
    + simpl. repeat split; congruence.
  - simpl. repeat split; try congruence; lia.
Qed.

(** ** The regex preprocessor *)

Lemma strip_true_spec (text : string) :
  strip_true text = true <-> exists c, c ∈ chars text /\ char_isspace c = false.
Proof.
  unfold strip_true. rewrite existsb_exists. split.
  - intros (c & Hc & Hs). exists c. split; [apply list_elem_of_In, Hc|].
    apply negb_true_iff, Hs.
  - intros (c & Hc & Hs). exists c. split; [apply list_elem_of_In, Hc|].
    apply negb_true_iff, Hs.
Qed.

(** X26: the regex preprocessor applies the replacements in their
    order, each to the text the one before has left, to the text of
    every phrase, and returns, in their order and with their types, the
    phrases whose text then holds a character that is no white space, by
    the white space of Unicode; it drops the others.  Run again without
    replacements, it returns its result as it is. *)
Theorem regex_replace_phrases (Pattern : Type)
    (re_sub : Pattern -> string -> string -> string)
    (compiled_patterns : list (Pattern * string)) (phrases : list Phrase.t) :
  (exists kept : Phrase.t -> bool,
     regex_replace Pattern re_sub compiled_patterns phrases
     = List.filter kept (map (split_phrase Pattern re_sub compiled_patterns) phrases)
     /\ forall p, kept p = true
                  <-> exists c, c ∈ chars (Phrase.text p) /\ char_isspace c = false)
  /\ (forall p0, split_phrase Pattern re_sub [] p0 = p0)
  /\ (forall patterns pattern replace p0,
        split_phrase Pattern re_sub (patterns ++ [(pattern, replace)]) p0
        = Phrase.mk (Phrase.ptype p0)
            (re_sub pattern replace
               (Phrase.text (split_phrase Pattern re_sub patterns p0))))
  /\ map Phrase.ptype (regex_replace Pattern re_sub compiled_patterns phrases)
       `sublist_of` map Phrase.ptype phrases
  /\ (forall p,
        p ∈ regex_replace Pattern re_sub compiled_patterns phrases
        <-> (exists c, c ∈ chars (Phrase.text p) /\ char_isspace c = false)
            /\ exists p0, p0 ∈ phrases
                          /\ p = split_phrase Pattern re_sub compiled_patterns p0)
  /\ regex_replace Pattern re_sub []
       (regex_replace Pattern re_sub compiled_patterns phrases)
     = regex_replace Pattern re_sub compiled_patterns phrases.
Proof.
  assert (forall p0, split_phrase Pattern re_sub [] p0 = p0) as Hnil.
  { intros [ptype text]. reflexivity. }
  unfold regex_replace. split; [|split; [|split; [|split; [|split]]]].
  - exists (fun p => strip_true (Phrase.text p)). split; [reflexivity|].
    intros p. apply strip_true_spec.
  - exact Hnil.
  - intros patterns pattern replace p0. unfold split_phrase.
    rewrite fold_left_app. reflexivity.
  - induction phrases as [|p0 phrases IH]; simpl; [constructor|].
    destruct (strip_true _); simpl.
    + apply sublist_skip, IH.
    + apply sublist_cons, IH.
  - intros p. rewrite list_elem_of_In, filter_In, <- list_elem_of_In.
    rewrite list_elem_of_fmap, strip_true_spec. split.
    + intros [(p0 & -> & Hp0) Hs]. eauto.
    + intros [Hs (p0 & Hp0 & ->)]. eauto.
  - assert (forall l : list Phrase.t, map (split_phrase Pattern re_sub []) l = l)
      as Hid.
    { induction l as [|p l IH]; simpl; [reflexivity|].
      rewrite Hnil, IH. reflexivity. }
    rewrite Hid.
    induction (map (split_phrase Pattern re_sub compiled_patterns) phrases)
      as [|p l IH]; simpl; [reflexivity|].
    destruct (strip_true (Phrase.text p)) eqn:Hp; simpl; [|exact IH].
    rewrite Hp, IH. reflexivity.
Qed.

(** A phrase whose text is an ideographic space, which is white space
    in Unicode and three bytes in UTF-8, is dropped. *)
Example ideographic_space_dropped :
  regex_replace unit (fun _ _ text => text) []
    [Phrase.mk PHRASE_ANY "　"; Phrase.mk PHRASE_ANY " a "]
  = [Phrase.mk PHRASE_ANY " a "].
Proof. vm_compute. reflexivity. Qed.

(** ** The import command *)

(** X27: with [--prepare-database] the import command either refuses the
    arguments, when [--continue] is given too, or creates the database
    skeleton and returns 0 without importing anything. *)
Theorem run_prepare_database (files : list string) (args : NominatimArgs.t) :
  NominatimArgs.prepare_database args = true ->
  run files args
  = match NominatimArgs.continue_at args with
    | Some _ => ([], None)
    | None => ([setup_country_config; setup_database_skeleton], Some 0%Z)
    end.
Proof.
  destruct args as [osm c prepare no_updates]. simpl. intros ->.
  destruct osm as [osm|], c as [[]|]; reflexivity.
Qed.

Lemma run_prepare_database_witness :
  run ["planet.osm.pbf"] (NominatimArgs.mk (Some ["planet.osm.pbf"]) None true false)
  = ([setup_country_config; setup_database_skeleton], Some 0%Z).
Proof.
  apply (run_prepare_database ["planet.osm.pbf"]
           (NominatimArgs.mk (Some ["planet.osm.pbf"]) None true false)).
  reflexivity.
Defined.

(** X28: an import continued at a later stage takes the steps of a full
    import from some point on, after the set-up of the country
    configuration and but for the set-up of the tokenizer; it creates the
    tokenizer anew exactly when it loads the data, and loads the
    tokenizer of the database otherwise. *)
Theorem run_continue_resumes (files osm : list string) (osm' : option (list string))
    (c : ContinueAt) (no_updates : bool) (code : Z) :
  files <> [] ->
  snd (run files (NominatimArgs.mk osm' (Some c) false no_updates)) = Some code ->
  (exists skipped resumed,
      without_tokenizer
        (fst (run files (NominatimArgs.mk (Some osm) None false no_updates)))
      = setup_country_config :: skipped ++ resumed
      /\ without_tokenizer
           (fst (run files (NominatimArgs.mk osm' (Some c) false no_updates)))
         = setup_country_config :: resumed)
  /\ takes create_tokenizer
       (fst (run files (NominatimArgs.mk osm' (Some c) false no_updates)))
     = takes load_data_into_placex
         (fst (run files (NominatimArgs.mk osm' (Some c) false no_updates)))
  /\ takes get_tokenizer_for_db
       (fst (run files (NominatimArgs.mk osm' (Some c) false no_updates)))
     = negb (takes load_data_into_placex
               (fst (run files (NominatimArgs.mk osm' (Some c) false no_updates)))).
Proof.
  intros Hfiles Hcode.
  destruct files as [|file files]; [congruence|].
  destruct osm' as [osm'|], c, no_updates; try discriminate Hcode;
    (split; [|split; reflexivity]);
    cbn.
  all: match goal with
       | |- exists skipped resumed,
              setup_country_config :: setup_database_skeleton :: ?full = _
              /\ setup_country_config :: ?cont = _ =>
           let n := eval cbv in (length full - length cont) in
           exists (setup_database_skeleton :: take n full), cont;
           split; reflexivity
       end.
Qed.

Lemma run_continue_resumes_witness :
  takes create_tokenizer
    (fst (run ["planet.osm.pbf"] (NominatimArgs.mk None (Some indexing) false true)))
  = takes load_data_into_placex
      (fst (run ["planet.osm.pbf"] (NominatimArgs.mk None (Some indexing) false true))).
Proof.
  apply (run_continue_resumes ["planet.osm.pbf"] ["planet.osm.pbf"] None indexing true 0).
  - discriminate.
  - reflexivity.
Defined.
